(** * d-zero: the event-sourced collaboration core

    A shallow embedding of [src/eventSource/EventSource.ts],
    [src/eventSource/HostEventSource.ts] and [mergeSorted], followed by the
    properties of the engine and of the host role.

    Conventions of the embedding:
    - a method of a class is a computation in the monad [JS S], where [S] is
      the object it mutates; a thrown exception keeps every mutation made
      before the [throw], as in JavaScript;
    - [Date.now()] and [Math.random()] are inputs of the methods that read
      them;
    - an object whose identity matters (the closure [safeCallback], a
      snapshot, an abort controller) carries a reference number drawn from a
      counter; a port is named by a number;
    - subscriber callbacks return or throw, they do not call back into the
      engine;
    - timestamps are integers ([Z]); arrays are lists, newest element last.

    [HostEventSource.subscribeEvents] is left out: it calls an overload of
    [subscribe] that [EventSource.ts] does not have. *)

From stdpp Require Import base list strings gmap sorting.
From Stdlib Require Import ZArith Lia.
From Stdlib Require OrderedTypeEx.

(** ** Completions and the method monad *)

Inductive JsError := Error (message : string).

Inductive completion (A : Type) :=
| Normal (a : A)
| Throw (x : JsError).
Arguments Normal {A} a.
Arguments Throw {A} x.

Definition JS (S A : Type) : Type := S → completion A * S.

#[global] Instance js_ret {S} : MRet (JS S) := λ A a s, (Normal a, s).

#[global] Instance js_bind {S} : MBind (JS S) := λ A B k m s,
  match m s with
  | (Normal a, s') => k a s'
  | (Throw x, s') => (Throw x, s')
  end.

Definition gets {S A} (f : S → A) : JS S A := λ s, (Normal (f s), s).
Definition modify {S} (f : S → S) : JS S unit := λ s, (Normal tt, f s).

(** [try { m } catch (e) { h e }] *)
Definition try_catch {S A} (m : JS S A) (h : JsError → JS S A) : JS S A :=
  λ s, match m s with
       | (Normal a, s') => (Normal a, s')
       | (Throw x, s') => h x s'
       end.

(** The completion of a pure call (the reducer, a listener body). *)
Definition call {S A} (c : completion A) : JS S A := λ s, (c, s).

(** [for (const x of xs) body(x)] *)
Fixpoint for_of {S A} (xs : list A) (body : A → JS S unit) : JS S unit :=
  match xs with
  | [] => mret tt
  | x :: rest => body x;; for_of rest body
  end.

(** ** BaseEvent (unnamed/part_001) *)

Record Source := { clientId : string }.

Record BaseEvent (Payload Meta : Type) := {
  id : string;
  timestamp : Z;
  source : Source;
  context : option Meta;
  payload : Payload;
}.
Arguments id {Payload Meta} _.
Arguments timestamp {Payload Meta} _.
Arguments source {Payload Meta} _.
Arguments context {Payload Meta} _.
Arguments payload {Payload Meta} _.

(** ** mergeSorted (unnamed/part_002)

    The two cursors [i], [j] of the source are the two remaining suffixes;
    when one side is exhausted the other is concatenated as it is. *)

Fixpoint mergeSorted {T} (left right : list T) (compare : T → T → Z) : list T :=
  let fix go (right : list T) : list T :=
    match left, right with
    | [], _ => right
    | _, [] => left
    | a :: left', b :: right' =>
        if (compare a b <=? 0)%Z
        then a :: mergeSorted left' right compare
        else b :: go right'
    end
  in go right.

(** [String.prototype.localeCompare], as the code-unit lexicographic order.
    The two agree on the ids the program generates
    ([Math.random().toString(36)]: digits and lower-case letters). *)
Definition localeCompare (a b : string) : Z :=
  match String.compare a b with
  | Lt => (-1)%Z
  | Eq => 0%Z
  | Gt => 1%Z
  end.

(** The comparator [insertEvents] passes to [mergeSorted]. *)
Definition compareEvents {Payload Meta} (a b : BaseEvent Payload Meta) : Z :=
  if decide (timestamp a ≠ timestamp b)
  then (timestamp a - timestamp b)%Z
  else localeCompare (id a) (id b).

(** ** EventSource (src/eventSource/EventSource.ts) *)

Inductive ConsoleEntry :=
| console_error (x : JsError)
| console_warn (clientId : string) (eventId : string).

Section EventSource.
Context {Payload Meta State : Type}.

#[local] Abbreviation Event := (BaseEvent Payload Meta).

(** An element of [snapshots]: the object [{state, eventIndex}]; [snap_ref]
    is its identity, which the disposer of [createSnapshot] looks up. *)
Record Snapshot := {
  snap_state : State;
  eventIndex : nat;
  snap_ref : nat;
}.

(** An element of [subscribers]: the closure [safeCallback] of one call of
    [subscribe], given by the [callback] it wraps; [sub_ref] is its
    identity.  A callback returns or throws; it is not modelled as
    re-entering the engine. *)
Record Subscriber := {
  sub_ref : nat;
  callback : State → completion unit;
}.

Record EventSource := {
  snapshotInterval : Z;
  initialState : State;
  applyEvent : State → Event → completion State;
  events : list Event;
  subscribers : list Subscriber;
  state : State;
  snapshots : list Snapshot;
  (** source of identities for closures and snapshot objects *)
  next_ref : nat;
  (** observable effects: the calls made to subscriber callbacks, oldest
      first, and what was written to the console *)
  delivered : list (nat * State);
  console : list ConsoleEntry;
}.

Definition set_initialState (v : State) (e : EventSource) : EventSource :=
  {| snapshotInterval := snapshotInterval e; initialState := v;
     applyEvent := applyEvent e; events := events e;
     subscribers := subscribers e; state := state e;
     snapshots := snapshots e; next_ref := next_ref e;
     delivered := delivered e; console := console e |}.

Definition set_events (v : list Event) (e : EventSource) : EventSource :=
  {| snapshotInterval := snapshotInterval e; initialState := initialState e;
     applyEvent := applyEvent e; events := v;
     subscribers := subscribers e; state := state e;
     snapshots := snapshots e; next_ref := next_ref e;
     delivered := delivered e; console := console e |}.

Definition set_subscribers (v : list Subscriber) (e : EventSource) : EventSource :=
  {| snapshotInterval := snapshotInterval e; initialState := initialState e;
     applyEvent := applyEvent e; events := events e;
     subscribers := v; state := state e;
     snapshots := snapshots e; next_ref := next_ref e;
     delivered := delivered e; console := console e |}.

Definition set_state (v : State) (e : EventSource) : EventSource :=
  {| snapshotInterval := snapshotInterval e; initialState := initialState e;
     applyEvent := applyEvent e; events := events e;
     subscribers := subscribers e; state := v;
     snapshots := snapshots e; next_ref := next_ref e;
     delivered := delivered e; console := console e |}.

Definition set_snapshots (v : list Snapshot) (e : EventSource) : EventSource :=
  {| snapshotInterval := snapshotInterval e; initialState := initialState e;
     applyEvent := applyEvent e; events := events e;
     subscribers := subscribers e; state := state e;
     snapshots := v; next_ref := next_ref e;
     delivered := delivered e; console := console e |}.

Definition set_next_ref (v : nat) (e : EventSource) : EventSource :=
  {| snapshotInterval := snapshotInterval e; initialState := initialState e;
     applyEvent := applyEvent e; events := events e;
     subscribers := subscribers e; state := state e;
     snapshots := snapshots e; next_ref := v;
     delivered := delivered e; console := console e |}.

Definition set_delivered (v : list (nat * State)) (e : EventSource) : EventSource :=
  {| snapshotInterval := snapshotInterval e; initialState := initialState e;
     applyEvent := applyEvent e; events := events e;
     subscribers := subscribers e; state := state e;
     snapshots := snapshots e; next_ref := next_ref e;
     delivered := v; console := console e |}.

Definition set_console (v : list ConsoleEntry) (e : EventSource) : EventSource :=
  {| snapshotInterval := snapshotInterval e; initialState := initialState e;
     applyEvent := applyEvent e; events := events e;
     subscribers := subscribers e; state := state e;
     snapshots := snapshots e; next_ref := next_ref e;
     delivered := delivered e; console := v |}.

(** A fresh identity. *)
Definition new_ref : JS EventSource nat :=
  r ← gets next_ref;
  modify (set_next_ref (S r));;
  mret r.

(** [constructor(initialState, applyEvent, {snapshotInterval = 100} = {})];
    [None] for the options stands for an omitted [snapshotInterval]. *)
Definition new_EventSource (initial : State)
    (apply : State → Event → completion State)
    (interval : option Z) : completion EventSource :=
  let snapshotInterval := default 100%Z interval in
  if (snapshotInterval <=? 0)%Z
  then Throw (Error "snapshotInterval must be a positive integer")
  else Normal {| snapshotInterval := snapshotInterval;
                 initialState := initial; applyEvent := apply;
                 events := []; subscribers := []; state := initial;
                 snapshots := []; next_ref := 0;
                 delivered := []; console := [] |}.

Definition getState : JS EventSource State := gets state.

(** The closure [safeCallback] of [subscribe]. *)
Definition safeCallback (s : Subscriber) (st : State) : JS EventSource unit :=
  try_catch
    (modify (λ e, set_delivered (delivered e ++ [(sub_ref s, st)]) e);;
     call (callback s st))
    (λ x, modify (λ e, set_console (console e ++ [console_error x]) e)).

(** [subscribe] returns the identity of the pushed closure; [unsubscribe]
    is the closure it returns in the source. *)
Definition subscribe (cb : State → completion unit) : JS EventSource nat :=
  r ← new_ref;
  let safe := {| sub_ref := r; callback := cb |} in
  modify (λ e, set_subscribers (subscribers e ++ [safe]) e);;
  st ← gets state;
  safeCallback safe st;;
  mret r.

(** [a.splice(a.indexOf(x), 1)] when [x] is found: the first element that
    satisfies [is_x] goes. *)
Fixpoint remove_first {A} (is_x : A → bool) (a : list A) : list A :=
  match a with
  | [] => []
  | y :: rest => if is_x y then rest else y :: remove_first is_x rest
  end.

Definition unsubscribe (r : nat) : JS EventSource unit :=
  modify (λ e, set_subscribers
                 (remove_first (λ s, bool_decide (sub_ref s = r)) (subscribers e)) e).

Definition notify : JS EventSource unit :=
  copy ← gets subscribers;
  for_of copy (λ subscriber, st ← gets state; safeCallback subscriber st).

Definition getLatestSnapshot : JS EventSource Snapshot :=
  e ← gets (λ e, e);
  match last (snapshots e) with
  | None => mret {| snap_state := initialState e; eventIndex := 0;
                    snap_ref := next_ref e |}
  | Some s => mret s
  end.

Definition dropLatestSnapshot : JS EventSource unit :=
  modify (λ e, set_snapshots (removelast (snapshots e)) e).

Definition createSnapshot : JS EventSource nat :=
  r ← new_ref;
  e ← gets (λ e, e);
  let snapshot := {| snap_state := state e; eventIndex := length (events e);
                     snap_ref := r |} in
  modify (set_snapshots (snapshots e ++ [snapshot]));;
  mret r.

(** The closure [createSnapshot] returns. *)
Definition disposeSnapshot (r : nat) : JS EventSource unit :=
  modify (λ e, set_snapshots
                 (remove_first (λ s, bool_decide (snap_ref s = r)) (snapshots e)) e).

Definition dispatch (event : Event) : JS EventSource unit :=
  modify (λ e, set_events (events e ++ [event]) e);;
  e ← gets (λ e, e);
  st ← call (applyEvent e (state e) event);
  modify (set_state st);;
  notify;;
  latestSnapshot ← getLatestSnapshot;
  e ← gets (λ e, e);
  if (snapshotInterval e <=? Z.of_nat (length (events e))
                              - Z.of_nat (eventIndex latestSnapshot))%Z
  then createSnapshot;; mret tt
  else mret tt.

Definition replay (evs : list Event) : JS EventSource unit :=
  for_of evs (λ event,
    e ← gets (λ e, e);
    st ← call (applyEvent e (state e) event);
    modify (set_state st));;
  notify.

(** [while (this.getLatestSnapshot().eventIndex > eventIndex)
    this.dropLatestSnapshot()]: every iteration but the last removes a
    snapshot, so [length snapshots] iterations and a final test suffice
    (lemma [drop_loop_run]). *)
Fixpoint drop_loop (fuel : nat) (index : nat) : JS EventSource unit :=
  latest ← getLatestSnapshot;
  if bool_decide (index < eventIndex latest)
  then match fuel with
       | 0 => mret tt
       | S fuel' => dropLatestSnapshot;; drop_loop fuel' index
       end
  else mret tt.

Definition dropSnapshotsAfterEventIndex (index : nat) : JS EventSource unit :=
  n ← gets (λ e, length (snapshots e));
  drop_loop n index.

Definition removeEvent (event : Event) : JS EventSource unit :=
  evs ← gets events;
  match list_find (λ e, id e = id event) evs with
  | None => mret tt
  | Some (index, _) =>
      n ← gets (λ e, length (snapshots e));
      drop_loop n index;;
      snapshot ← getLatestSnapshot;
      evs ← gets events;
      modify (set_events (take (eventIndex snapshot) evs));;
      let eventsToReplay :=
        filter (λ e, id e ≠ id event) (drop (eventIndex snapshot) evs) in
      modify (set_state (snap_state snapshot));;
      modify (λ e, set_events (events e ++ eventsToReplay) e);;
      replay eventsToReplay
  end.

Definition rollbackToSnapshotSilent : JS EventSource (list Event) :=
  snapshot ← getLatestSnapshot;
  modify (set_state (snap_state snapshot));;
  evs ← gets events;
  modify (set_events (take (eventIndex snapshot) evs));;
  mret (drop (eventIndex snapshot) evs).

Definition insertEvents (evs : list Event) : JS EventSource unit :=
  match evs with
  | [] => mret tt
  | first :: _ =>
      let firstNewEventTimestamp := timestamp first in
      log ← gets events;
      let insertIndex :=
        match list_find (λ e, (firstNewEventTimestamp < timestamp e)%Z) log with
        | None => length log
        | Some (postEventIndex, _) => postEventIndex
        end in
      dropSnapshotsAfterEventIndex insertIndex;;
      existingEvents ← rollbackToSnapshotSilent;
      let newEvents := mergeSorted existingEvents evs compareEvents in
      modify (λ e, set_events (events e ++ newEvents) e);;
      replay newEvents
  end.

Definition rebaseline (st : State) : JS EventSource unit :=
  modify (set_initialState st);;
  modify (set_events []);;
  modify (set_snapshots []);;
  modify (set_state st);;
  notify.

End EventSource.

Arguments Snapshot : clear implicits.
Arguments Subscriber : clear implicits.
Arguments EventSource : clear implicits.

(** ** EventMessage (unnamed/part_003) *)

Inductive EventMessage (E : Type) :=
| msg_event (event : E)
| msg_rejection (eventId : string)
| msg_requestHistory (since : Z)
| msg_eventHistory (events : list E).
Arguments msg_event {E} event.
Arguments msg_rejection {E} eventId.
Arguments msg_requestHistory {E} since.
Arguments msg_eventHistory {E} events.

(** ** HostEventSource (src/eventSource/HostEventSource.ts) *)

Section HostEventSource.
Context {Payload Meta State : Type}.

(** [if (filtered)] in [broadcast] tests the JavaScript truthiness of a
    payload value; [null] is falsy. *)
Variable truthy : Payload → bool.

#[local] Abbreviation Event := (BaseEvent Payload Meta).
#[local] Abbreviation Engine := (EventSource Payload Meta State).

(** A value of the [clients] map: the port (an object, by identity) and the
    [dispose] closure, which aborts the listener registered with it. *)
Record Client := {
  port : nat;
  dispose : nat;
}.

(** A ['message'] listener registered on a port by [addClient]: the arrow
    function closes over [clientId] and [port]. *)
Record PortListener := {
  listener_ref : nat;
  listener_port : nat;
  listener_clientId : string;
}.

Record HostEventSource := {
  base : Engine;
  (** [Map<string, {port, dispose}>], in insertion order *)
  clients : list (string * Client);
  pastEventIds : gset string;
  validate : Event → string → bool;
  filterForClient : Payload → string → option Payload;
  (** the ports' side: live listeners, and every [postMessage], oldest
      first, with the port it was called on *)
  port_listeners : list PortListener;
  posted : list (nat * EventMessage Event);
}.

Definition set_base (v : Engine) (h : HostEventSource) : HostEventSource :=
  {| base := v; clients := clients h; pastEventIds := pastEventIds h;
     validate := validate h; filterForClient := filterForClient h;
     port_listeners := port_listeners h; posted := posted h |}.

Definition set_clients (v : list (string * Client)) (h : HostEventSource)
    : HostEventSource :=
  {| base := base h; clients := v; pastEventIds := pastEventIds h;
     validate := validate h; filterForClient := filterForClient h;
     port_listeners := port_listeners h; posted := posted h |}.

Definition set_pastEventIds (v : gset string) (h : HostEventSource)
    : HostEventSource :=
  {| base := base h; clients := clients h; pastEventIds := v;
     validate := validate h; filterForClient := filterForClient h;
     port_listeners := port_listeners h; posted := posted h |}.

Definition set_port_listeners (v : list PortListener) (h : HostEventSource)
    : HostEventSource :=
  {| base := base h; clients := clients h; pastEventIds := pastEventIds h;
     validate := validate h; filterForClient := filterForClient h;
     port_listeners := v; posted := posted h |}.

Definition set_posted (v : list (nat * EventMessage Event)) (h : HostEventSource)
    : HostEventSource :=
  {| base := base h; clients := clients h; pastEventIds := pastEventIds h;
     validate := validate h; filterForClient := filterForClient h;
     port_listeners := port_listeners h; posted := v |}.

(** A method inherited from [EventSource] runs on the [base] part. *)
Definition super {A} (m : JS Engine A) : JS HostEventSource A :=
  λ h, let '(c, e) := m (base h) in (c, set_base e h).

(** [port.postMessage(message)] *)
Definition postMessage (p : nat) (message : EventMessage Event)
    : JS HostEventSource unit :=
  modify (λ h, set_posted (posted h ++ [(p, message)]) h).

Definition warn (clientId eventId : string) : JS HostEventSource unit :=
  super (modify (λ e, set_console (console e ++ [console_warn clientId eventId]) e)).

(** [constructor(initialState, applyEvent, validate, filterForClient)] *)
Definition new_HostEventSource (initial : State)
    (apply : State → Event → completion State)
    (validate : Event → string → bool)
    (filterForClient : Payload → string → option Payload)
    : completion HostEventSource :=
  match new_EventSource initial apply None with
  | Throw x => Throw x
  | Normal e => Normal {| base := e; clients := []; pastEventIds := ∅;
                          validate := validate;
                          filterForClient := filterForClient;
                          port_listeners := []; posted := [] |}
  end.

(** Modelled from the spec: [dispatchEvent] is a method of the base class
    in the revision of [EventSource] this file was written against; that
    revision is missing.  The spec has the host "dispatch to the host log"
    here, and the test harness defines [dispatchEvent(event)] as
    [this.dispatch(event)]: it is the engine's [dispatch].  (That revision
    types the reducer on payloads; here it receives the event, as the
    engine of [EventSource.ts] passes it.)  When the reducer throws, this
    definition leaves the event appended, as [dispatch] does, where the
    spec wants the log untouched: what is stated about the host and the
    client is stated for calls of [dispatchEvent] that return, or does not
    depend on what a call that threw has left. *)
Definition dispatchEvent (event : Event) : JS Engine unit := dispatch event.

Definition validateClientEvent (proposedEvent : Event) (clientId : string)
    : JS HostEventSource bool :=
  h ← gets (λ h, h);
  if bool_decide (id proposedEvent ∈ pastEventIds h)
  then warn clientId (id proposedEvent);; mret false
  else if negb (validate h proposedEvent clientId)
  then warn clientId (id proposedEvent);; mret false
  else mret true.

Definition sendRejectionToClient (eventId clientId : string)
    : JS HostEventSource unit :=
  h ← gets (λ h, h);
  match list_find (λ c, c.1 = clientId) (clients h) with
  | Some (_, (_, client)) => postMessage (port client) (msg_rejection eventId)
  | None => mret tt
  end.

(** [now] is the value of [Date.now()]. *)
Definition receiveFromClient (proposedEvent : Event) (clientId : string)
    (now : Z) : JS HostEventSource unit :=
  ok ← validateClientEvent proposedEvent clientId;
  if negb ok
  then sendRejectionToClient (id proposedEvent) clientId
  else
    let authoritativeEvent :=
      {| id := id proposedEvent; timestamp := now;
         source := {| clientId := clientId |};
         context := context proposedEvent;
         payload := payload proposedEvent |} in
    super (dispatchEvent authoritativeEvent).

Definition broadcast (authoritativeEvent : Event) : JS HostEventSource unit :=
  entries ← gets clients;
  for_of entries (λ '(otherClientId, client),
    h ← gets (λ h, h);
    match filterForClient h (payload authoritativeEvent) otherClientId with
    | Some filtered =>
        if truthy filtered
        then postMessage (port client)
               (msg_event {| id := id authoritativeEvent;
                             timestamp := timestamp authoritativeEvent;
                             source := source authoritativeEvent;
                             context := context authoritativeEvent;
                             payload := filtered |})
        else mret tt
    | None => mret tt
    end).

(** The host's public [dispatch(payload)]; [generated] is the value of
    [generateEventId()] and [now] that of [Date.now()]. *)
Definition host_dispatch (pl : Payload) (generated : string) (now : Z)
    : JS HostEventSource unit :=
  let event :=
    {| id := generated; timestamp := now;
       source := {| clientId := "host" |};
       context := None; payload := pl |} in
  modify (λ h, set_pastEventIds (pastEventIds h ∪ {[id event]}) h);;
  super (dispatchEvent event);;
  broadcast event.

(** The ['message'] listener of [addClient]. *)
Definition onMessage (clientId : string) (p : nat)
    (data : EventMessage Event) (now : Z) : JS HostEventSource unit :=
  match data with
  | msg_event event => receiveFromClient event clientId now
  | msg_requestHistory since =>
      h ← gets (λ h, h);
      let eventsToSend :=
        omap (λ e : option Event, e)
          (map (λ e : Event,
                  match filterForClient h (payload e) clientId with
                  | Some filtered =>
                      Some {| id := id e; timestamp := timestamp e;
                              source := source e; context := context e;
                              payload := filtered |}
                  | None => None
                  end)
               (filter (λ e : Event, (since < timestamp e)%Z) (events (base h)))) in
      postMessage p (msg_eventHistory eventsToSend)
  | _ => mret tt
  end.

(** [Map.prototype.set]: an existing key keeps its place. *)
Fixpoint map_set {V} (k : string) (v : V) (m : list (string * V))
    : list (string * V) :=
  match m with
  | [] => [(k, v)]
  | (k', v') :: rest =>
      if bool_decide (k' = k) then (k, v) :: rest
      else (k', v') :: map_set k v rest
  end.

Definition addClient (clientId : string) (p : nat) : JS HostEventSource unit :=
  abortController ← super new_ref;
  modify (λ h, set_port_listeners
                 (port_listeners h ++
                    [{| listener_ref := abortController; listener_port := p;
                        listener_clientId := clientId |}]) h);;
  modify (λ h, set_clients
                 (map_set clientId {| port := p; dispose := abortController |}
                    (clients h)) h).

Definition removeClient (clientId : string) : JS HostEventSource unit :=
  h ← gets (λ h, h);
  match list_find (λ c, c.1 = clientId) (clients h) with
  | Some (_, (_, client)) =>
      modify (λ h, set_port_listeners
                     (filter (λ l, listener_ref l ≠ dispose client)
                        (port_listeners h)) h);;
      modify (λ h, set_clients (filter (λ c, c.1 ≠ clientId) (clients h)) h)
  | None => mret tt
  end.

(** A port emits ['message']: every live listener registered on it runs. *)
Definition port_message (p : nat) (data : EventMessage Event) (now : Z)
    : JS HostEventSource unit :=
  ls ← gets port_listeners;
  for_of (filter (λ l, listener_port l = p) ls)
    (λ l, onMessage (listener_clientId l) p data now).

Definition host_drop : JS HostEventSource unit :=
  evs ← gets (λ h, events (base h));
  match last evs with
  | Some e => super (removeEvent e)
  | None => mret tt
  end.

End HostEventSource.

Arguments HostEventSource : clear implicits.

(** * The mock port and the client role

    A shallow embedding of [src/eventSource/MockReconnectingPort.ts] and of
    the class [ClientEventSource], with the conventions of the engine:
    - a listener of a port is a function object with an identity; it
      returns or throws, and it does not call back into the port;
    - an [AbortSignal] is named by a number; the port's side of the world
      (the abort callbacks registered on signals, the signals that have
      fired, the calls the listeners received, the console) is kept beside
      the fields of the port;
    - a timer armed with [setTimeout] is kept in a list of armed timers and
      fires when the embedder runs it. *)

Module Port.

(** The keys of [ReconnectingPortEventMap]. *)
Inductive EventType := message | messageerror | connected | disconnected.

#[global] Instance EventType_eq_dec : EqDecision EventType.
Proof. solve_decision. Defined.

Section MockReconnectingPort.
Context {T Any : Type}.

(** The objects of [createMessageEvent] and [createEvent]: the fields that
    are not constant.  [data] is a message for ['message'] and any value
    for ['messageerror']. *)
Inductive PortEvent :=
| MessageEvent (type : EventType) (data : T + Any)
| Event (type : EventType).

(** A listener: a function object, compared by identity. *)
Record Listener := {
  fn_ref : nat;
  fn_body : PortEvent → completion unit;
}.

Inductive PortConsole :=
| listener_error (type : EventType) (error : JsError).

Record MockReconnectingPort := {
  (** [Map<type, Set<Function>>]; a set in insertion order *)
  listeners : EventType → option (list Listener);
  _connected : bool;
  messageQueue : list T;
  (** the world: the ['abort'] callbacks registered on signals, oldest
      first; the signals that have fired; the calls of listeners; the
      console *)
  abort_hooks : list (nat * (EventType * Listener));
  aborted : list nat;
  heard : list (nat * PortEvent);
  port_console : list PortConsole;
}.

Definition set_listeners (v : EventType → option (list Listener))
    (p : MockReconnectingPort) : MockReconnectingPort :=
  {| listeners := v; _connected := _connected p; messageQueue := messageQueue p;
     abort_hooks := abort_hooks p; aborted := aborted p; heard := heard p;
     port_console := port_console p |}.

Definition set_connected (v : bool) (p : MockReconnectingPort)
    : MockReconnectingPort :=
  {| listeners := listeners p; _connected := v; messageQueue := messageQueue p;
     abort_hooks := abort_hooks p; aborted := aborted p; heard := heard p;
     port_console := port_console p |}.

Definition set_messageQueue (v : list T) (p : MockReconnectingPort)
    : MockReconnectingPort :=
  {| listeners := listeners p; _connected := _connected p; messageQueue := v;
     abort_hooks := abort_hooks p; aborted := aborted p; heard := heard p;
     port_console := port_console p |}.

Definition set_abort_hooks (v : list (nat * (EventType * Listener)))
    (p : MockReconnectingPort) : MockReconnectingPort :=
  {| listeners := listeners p; _connected := _connected p;
     messageQueue := messageQueue p;
     abort_hooks := v; aborted := aborted p; heard := heard p;
     port_console := port_console p |}.

Definition set_aborted (v : list nat) (p : MockReconnectingPort)
    : MockReconnectingPort :=
  {| listeners := listeners p; _connected := _connected p;
     messageQueue := messageQueue p;
     abort_hooks := abort_hooks p; aborted := v; heard := heard p;
     port_console := port_console p |}.

Definition set_heard (v : list (nat * PortEvent)) (p : MockReconnectingPort)
    : MockReconnectingPort :=
  {| listeners := listeners p; _connected := _connected p;
     messageQueue := messageQueue p;
     abort_hooks := abort_hooks p; aborted := aborted p; heard := v;
     port_console := port_console p |}.

Definition set_port_console (v : list PortConsole) (p : MockReconnectingPort)
    : MockReconnectingPort :=
  {| listeners := listeners p; _connected := _connected p;
     messageQueue := messageQueue p;
     abort_hooks := abort_hooks p; aborted := aborted p; heard := heard p;
     port_console := v |}.

(** [Map.prototype.set] on the listeners. *)
Definition listeners_set (type : EventType) (v : list Listener)
    (m : EventType → option (list Listener)) : EventType → option (list Listener) :=
  λ k, if decide (k = type) then Some v else m k.

(** [Set.prototype.add] and [Set.prototype.delete]: by identity; a value
    that is in the set keeps its place. *)
Definition set_add (x : Listener) (s : list Listener) : list Listener :=
  if bool_decide (fn_ref x ∈ map fn_ref s) then s else s ++ [x].

Definition set_delete (x : Listener) (s : list Listener) : list Listener :=
  filter (λ y, fn_ref y ≠ fn_ref x) s.

(** [constructor(connected = true)] *)
Definition new_MockReconnectingPort (connected : option bool)
    : MockReconnectingPort :=
  {| listeners := λ _, None; _connected := default true connected;
     messageQueue := []; abort_hooks := []; aborted := []; heard := [];
     port_console := [] |}.

(** [get connected()] *)
Definition get_connected : JS MockReconnectingPort bool := gets _connected.

Definition simulateMessageDelivery (_message : T) : JS MockReconnectingPort unit :=
  mret tt.

Definition postMessage (message : T) : JS MockReconnectingPort unit :=
  isConnected ← gets _connected;
  if negb isConnected
  then modify (λ p, set_messageQueue (messageQueue p ++ [message]) p)
  else simulateMessageDelivery message.

Definition removeEventListener (type : EventType) (listener : Listener)
    : JS MockReconnectingPort unit :=
  found ← gets (λ p, listeners p type);
  match found with
  | Some set =>
      modify (λ p, set_listeners
                     (listeners_set type (set_delete listener set) (listeners p)) p)
  | None => mret tt
  end.

Definition addEventListener (type : EventType) (listener : Listener)
    (signal : option nat) : JS MockReconnectingPort unit :=
  has ← gets (λ p, listeners p type);
  (if has is None
   then modify (λ p, set_listeners (listeners_set type [] (listeners p)) p)
   else mret tt);;
  modify (λ p, set_listeners
                 (listeners_set type
                    (set_add listener (default [] (listeners p type)))
                    (listeners p)) p);;
  match signal with
  | Some s =>
      modify (λ p, set_abort_hooks (abort_hooks p ++ [(s, (type, listener))]) p)
  | None => mret tt
  end.

(** [controller.abort()] on the controller of [signal]: the ['abort']
    callbacks registered on the signal run, once. *)
Definition abort (signal : nat) : JS MockReconnectingPort unit :=
  p ← gets (λ p, p);
  if bool_decide (signal ∈ aborted p) then mret tt
  else
    modify (λ p, set_aborted (aborted p ++ [signal]) p);;
    for_of (filter (λ hook, hook.1 = signal) (abort_hooks p))
      (λ hook, removeEventListener hook.2.1 hook.2.2).

Definition createMessageEvent (type : EventType) (data : T + Any) : PortEvent :=
  MessageEvent type data.

Definition createEvent (type : EventType) : PortEvent := Event type.

Definition dispatchEvent (type : EventType) (event : PortEvent)
    : JS MockReconnectingPort unit :=
  found ← gets (λ p, listeners p type);
  match found with
  | Some set =>
      for_of set (λ listener,
        try_catch
          (modify (λ p, set_heard (heard p ++ [(fn_ref listener, event)]) p);;
           call (fn_body listener event))
          (λ error,
             modify (λ p, set_port_console
                            (port_console p ++ [listener_error type error]) p)))
  | None => mret tt
  end.

Definition receiveMessage (data : T) : JS MockReconnectingPort unit :=
  isConnected ← gets _connected;
  if negb isConnected
  then call (Throw (Error "Cannot receive messages when disconnected"))
  else dispatchEvent message (createMessageEvent message (inl data)).

Definition receiveMessageError (error : Any) : JS MockReconnectingPort unit :=
  dispatchEvent messageerror (createMessageEvent messageerror (inr error)).

(** [connect] flushes the queue through [this.postMessage], which is the
    method of the class unless the object overrides it. *)
Definition connect : JS MockReconnectingPort unit :=
  isConnected ← gets _connected;
  if (isConnected : bool) then mret tt
  else
    modify (set_connected true);;
    dispatchEvent connected (createEvent connected);;
    queuedMessages ← gets messageQueue;
    modify (set_messageQueue []);;
    for_of queuedMessages postMessage.

Definition disconnect : JS MockReconnectingPort unit :=
  isConnected ← gets _connected;
  if negb isConnected then mret tt
  else
    modify (set_connected false);;
    dispatchEvent disconnected (createEvent disconnected).

Definition getQueuedMessages : JS MockReconnectingPort (list T) :=
  gets messageQueue.

Definition clearQueue : JS MockReconnectingPort unit :=
  modify (set_messageQueue []).

Definition getListeners
    : JS MockReconnectingPort (EventType → option (list Listener)) :=
  gets listeners.

End MockReconnectingPort.

Arguments PortEvent : clear implicits.
Arguments Listener : clear implicits.
Arguments MockReconnectingPort : clear implicits.

(** ** createMockPortPair *)

(** The factory casts the peer to [any] before it hands it the message,
    so a message posted on one port is received by the other whatever the
    type parameters [T1] and [T2] say; one type of messages stands for
    both. *)

Section createMockPortPair.
Context {T Any : Type}.

(** A callback armed with [setTimeout(…, 0)]: the delivery of a message to
    the peer. *)
Inductive Timer :=
| deliver_to_port2 (message : T)
| deliver_to_port1 (message : T).

Record PortPair := {
  port1 : MockReconnectingPort T Any;
  port2 : MockReconnectingPort T Any;
  (** the armed timers, oldest first *)
  timers : list Timer;
}.

Definition set_port1 (v : MockReconnectingPort T Any) (s : PortPair) : PortPair :=
  {| port1 := v; port2 := port2 s; timers := timers s |}.
Definition set_port2 (v : MockReconnectingPort T Any) (s : PortPair) : PortPair :=
  {| port1 := port1 s; port2 := v; timers := timers s |}.
Definition set_timers (v : list Timer) (s : PortPair) : PortPair :=
  {| port1 := port1 s; port2 := port2 s; timers := v |}.

(** A method of the class on one of the two ports. *)
Definition on_port1 {A} (m : JS (MockReconnectingPort T Any) A) : JS PortPair A :=
  λ s, let '(c, p) := m (port1 s) in (c, set_port1 p s).
Definition on_port2 {A} (m : JS (MockReconnectingPort T Any) A) : JS PortPair A :=
  λ s, let '(c, p) := m (port2 s) in (c, set_port2 p s).

Definition setTimeout (t : Timer) : JS PortPair unit :=
  modify (λ s, set_timers (timers s ++ [t]) s).

Definition createMockPortPair : PortPair :=
  {| port1 := new_MockReconnectingPort None;
     port2 := new_MockReconnectingPort None;
     timers := [] |}.

(** The overrides of [postMessage]. *)
Definition port1_postMessage (message : T) : JS PortPair unit :=
  on_port1 (postMessage message);;
  connected1 ← on_port1 get_connected;
  connected2 ← on_port2 get_connected;
  if connected1 && connected2 then setTimeout (deliver_to_port2 message)
  else mret tt.

Definition port2_postMessage (message : T) : JS PortPair unit :=
  on_port2 (postMessage message);;
  connected1 ← on_port1 get_connected;
  connected2 ← on_port2 get_connected;
  if connected1 && connected2 then setTimeout (deliver_to_port1 message)
  else mret tt.

(** [connect] on a port of the pair: the method of the class, where
    [this.postMessage] is the override. *)
Definition port1_connect : JS PortPair unit :=
  isConnected ← on_port1 (gets _connected);
  if (isConnected : bool) then mret tt
  else
    on_port1 (modify (set_connected true));;
    on_port1 (dispatchEvent connected (createEvent connected));;
    queuedMessages ← on_port1 (gets messageQueue);
    on_port1 (modify (set_messageQueue []));;
    for_of queuedMessages port1_postMessage.

Definition port2_connect : JS PortPair unit :=
  isConnected ← on_port2 (gets _connected);
  if (isConnected : bool) then mret tt
  else
    on_port2 (modify (set_connected true));;
    on_port2 (dispatchEvent connected (createEvent connected));;
    queuedMessages ← on_port2 (gets messageQueue);
    on_port2 (modify (set_messageQueue []));;
    for_of queuedMessages port2_postMessage.

(** The body of an armed callback: [try { peer.receiveMessage(message) }
    catch (error) {}]. *)
Definition run_timer (t : Timer) : JS PortPair unit :=
  match t with
  | deliver_to_port2 msg =>
      try_catch (on_port2 (receiveMessage msg)) (λ _, mret tt)
  | deliver_to_port1 msg =>
      try_catch (on_port1 (receiveMessage msg)) (λ _, mret tt)
  end.

(** The event loop runs the oldest armed timer. *)
Definition run_next_timer : JS PortPair unit :=
  armed ← gets timers;
  match armed with
  | [] => mret tt
  | t :: rest => modify (set_timers rest);; run_timer t
  end.

End createMockPortPair.

Arguments PortPair : clear implicits.
Arguments Timer : clear implicits.

End Port.

(** ** ClientEventSource *)

Module Client.

Section ClientEventSource.
Context {Payload Meta State : Type}.

#[local] Abbreviation Event := (BaseEvent Payload Meta).
#[local] Abbreviation Engine := (EventSource Payload Meta State).

Record ClientEventSource := {
  base : Engine;
  (** [Map<string, E>], in insertion order *)
  pending : list (string * Event);
  (** the port's side: every [postMessage], oldest first *)
  sent : list (EventMessage Event);
  (** the armed [retry] closures, oldest first, each with the event it
      closes over *)
  retries : list Event;
}.

Definition set_base (v : Engine) (c : ClientEventSource) : ClientEventSource :=
  {| base := v; pending := pending c; sent := sent c; retries := retries c |}.
Definition set_pending (v : list (string * Event)) (c : ClientEventSource)
    : ClientEventSource :=
  {| base := base c; pending := v; sent := sent c; retries := retries c |}.
Definition set_sent (v : list (EventMessage Event)) (c : ClientEventSource)
    : ClientEventSource :=
  {| base := base c; pending := pending c; sent := v; retries := retries c |}.
Definition set_retries (v : list Event) (c : ClientEventSource)
    : ClientEventSource :=
  {| base := base c; pending := pending c; sent := sent c; retries := v |}.

Definition PROPOSED_EVENT_RETRY_TIMEOUT : Z := 5000.

(** A method inherited from [EventSource] runs on the [base] part. *)
Definition super {A} (m : JS Engine A) : JS ClientEventSource A :=
  λ c, let '(r, e) := m (base c) in (r, set_base e c).

(** [constructor(initialState, applyEvent, port)]; the two listeners it
    registers on the port are [onMessage] and [onConnected] below. *)
Definition new_ClientEventSource (initial : State)
    (apply : State → Event → completion State) : completion ClientEventSource :=
  match new_EventSource initial apply None with
  | Throw x => Throw x
  | Normal e => Normal {| base := e; pending := []; sent := []; retries := [] |}
  end.

Definition sendToHost (event : Event) : JS ClientEventSource unit :=
  modify (λ c, set_sent (sent c ++ [msg_event event]) c).

Definition requestEventHistory (sinceTimestamp : Z) : JS ClientEventSource unit :=
  modify (λ c, set_sent (sent c ++ [msg_requestHistory sinceTimestamp]) c).

(** [setTimeout(retry, PROPOSED_EVENT_RETRY_TIMEOUT)]: every timer has the
    same delay, so the timers fire in the order they were armed. *)
Definition setTimeout (proposedEvent : Event) : JS ClientEventSource unit :=
  modify (λ c, set_retries (retries c ++ [proposedEvent]) c).

(** The closure [retry] of [propose]. *)
Definition retry (proposedEvent : Event) : JS ClientEventSource unit :=
  has ← gets (λ c, bool_decide (id proposedEvent ∈ map fst (pending c)));
  (if (has : bool) then sendToHost proposedEvent else mret tt);;
  setTimeout proposedEvent.

(** [propose(eventData)]: the spread keeps every field of [eventData] but
    [id] and [timestamp]; [generated] is the value of [generateEventId()]
    and [now] that of [Date.now()]. *)
Definition propose (eventData : Event) (generated : string) (now : Z)
    : JS ClientEventSource unit :=
  let proposedEvent :=
    {| id := generated; timestamp := now; source := source eventData;
       context := context eventData; payload := payload eventData |} in
  modify (λ c, set_pending (map_set (id proposedEvent) proposedEvent (pending c)) c);;
  super (dispatchEvent proposedEvent);;
  sendToHost proposedEvent;;
  setTimeout proposedEvent.

Definition receiveFromHost (event : Event) : JS ClientEventSource unit :=
  modify (λ c, set_pending (filter (λ kv, kv.1 ≠ id event) (pending c)) c);;
  super (dispatchEvent event).

Definition rejectPendingEvent (eventId : string) : JS ClientEventSource unit :=
  found ← gets (λ c, list_find (λ kv : string * Event, kv.1 = eventId) (pending c));
  match found with
  | None => mret tt
  | Some (_, (_, rejectedEvent)) =>
      modify (λ c, set_pending (filter (λ kv, kv.1 ≠ eventId) (pending c)) c);;
      super (removeEvent rejectedEvent)
  end.

(** The ['message'] listener of the constructor. *)
Definition onMessage (data : EventMessage Event) : JS ClientEventSource unit :=
  match data with
  | msg_event event => receiveFromHost event
  | msg_rejection eventId => rejectPendingEvent eventId
  | msg_eventHistory evs => super (insertEvents evs)
  | _ => mret tt
  end.

(** The ['connected'] listener of the constructor;
    [this.events[this.events.length - 1]?.timestamp || 0]. *)
Definition onConnected : JS ClientEventSource unit :=
  values ← gets (λ c, map snd (pending c));
  for_of values sendToHost;;
  evs ← gets (λ c, events (base c));
  let latestTimestamp :=
    match last evs with
    | Some newest => if (timestamp newest =? 0)%Z then 0%Z else timestamp newest
    | None => 0%Z
    end in
  requestEventHistory latestTimestamp.

(** The event loop runs the oldest armed timer. *)
Definition run_next_timer : JS ClientEventSource unit :=
  armed ← gets retries;
  match armed with
  | [] => mret tt
  | proposedEvent :: rest => modify (set_retries rest);; retry proposedEvent
  end.

End ClientEventSource.

Arguments ClientEventSource : clear implicits.

End Client.

(** * Specification vocabulary *)

Section EngineSpec.
Context {Payload Meta State : Type}.

#[local] Abbreviation Event := (BaseEvent Payload Meta).
#[local] Abbreviation Engine := (EventSource Payload Meta State).

Implicit Types (e : Engine) (ev : Event) (evs : list Event) (st : State).

(** [reduce f st evs] folds the reducer over [evs] from [st], as the loop
    of [replay] does: it stops at the first event on which the reducer
    throws, with the state reached so far. *)
Fixpoint reduce (f : State → Event → completion State) st evs
    : completion unit * State :=
  match evs with
  | [] => (Normal tt, st)
  | ev :: rest =>
      match f st ev with
      | Normal st' => reduce f st' rest
      | Throw x => (Throw x, st)
      end
  end.

(** What one pass of [notify] writes: a call per subscriber, in order,
    and a console entry per callback that threw. *)
Definition notify_calls (subs : list (Subscriber State)) st : list (nat * State) :=
  map (λ s, (sub_ref s, st)) subs.

Definition notify_errors (subs : list (Subscriber State)) st : list ConsoleEntry :=
  omap (λ s, match callback s st with
             | Throw x => Some (console_error x)
             | Normal _ => None
             end) subs.

Definition notified_with (subs : list (Subscriber State)) e : Engine :=
  set_console (console e ++ notify_errors subs (state e))
    (set_delivered (delivered e ++ notify_calls subs (state e)) e).

Definition notified e : Engine := notified_with (subscribers e) e.

(** The value of [getLatestSnapshot()]. *)
Definition latestSnapshot e : Snapshot State :=
  match last (snapshots e) with
  | None => {| snap_state := initialState e; eventIndex := 0;
               snap_ref := next_ref e |}
  | Some s => s
  end.

(** What the [while] loop over the newest snapshots leaves: snapshots are
    popped from the end as long as the last one lies beyond [index]. *)
Fixpoint drop_newer (index : nat) (snaps : list (Snapshot State))
    : list (Snapshot State) :=
  match snaps with
  | [] => []
  | s :: rest =>
      match drop_newer index rest with
      | [] => if bool_decide (index < eventIndex s) then [] else [s]
      | kept => s :: kept
      end
  end.

(** The engine after [createSnapshot]. *)
Definition snapshot_taken e : Engine :=
  set_snapshots
    (snapshots e ++ [{| snap_state := state e; eventIndex := length (events e);
                        snap_ref := next_ref e |}])
    (set_next_ref (S (next_ref e)) e).

(** The auto-snapshot test at the end of [dispatch]. *)
Definition auto_snapshot e : Engine :=
  if (snapshotInterval e <=? Z.of_nat (length (events e))
                              - Z.of_nat (eventIndex (latestSnapshot e)))%Z
  then snapshot_taken e else e.

(** The snapshot [removeEvent] and [insertEvents] rewind to, and the
    engine rewound to it with the detached tail of the log rewritten by
    [tail], before the replay. *)
Definition rewind_point (index : nat) e : Snapshot State :=
  latestSnapshot (set_snapshots (drop_newer index (snapshots e)) e).

Definition rewound (index : nat) (tail : list Event → list Event) e : Engine :=
  let e1 := set_snapshots (drop_newer index (snapshots e)) e in
  let snapshot := latestSnapshot e1 in
  set_events (take (eventIndex snapshot) (events e)
                ++ tail (drop (eventIndex snapshot) (events e)))
    (set_state (snap_state snapshot) e1).

(** The insertion anchor of [insertEvents]. *)
Definition insert_index (first : Event) (log : list Event) : nat :=
  match list_find (λ x, (timestamp first < timestamp x)%Z) log with
  | None => length log
  | Some (postEventIndex, _) => postEventIndex
  end.

(** The multiples of [s] among [1..n], in ascending order. *)
Definition multiples (s : Z) (n : nat) : list nat :=
  filter (λ k, (Z.of_nat k `mod` s = 0)%Z) (seq 1 n).

(** I1: the log is strictly sorted by timestamp, then by id, and no id
    occurs twice. *)
Definition event_lt (a b : Event) : Prop :=
  (timestamp a < timestamp b)%Z
  ∨ (timestamp a = timestamp b ∧ String.compare (id a) (id b) = Lt).

Definition log_ordered (log : list Event) : Prop :=
  StronglySorted event_lt log ∧ NoDup (map id log).

(** I2: the state is the fold of the reducer over the log. *)
Definition state_is_replay e : Prop :=
  reduce (applyEvent e) (initialState e) (events e) = (Normal tt, state e).

(** I3: a snapshot holds the fold over the prefix of the log it covers. *)
Definition snapshot_sound e (s : Snapshot State) : Prop :=
  eventIndex s ≤ length (events e)
  ∧ reduce (applyEvent e) (initialState e) (take (eventIndex s) (events e))
    = (Normal tt, snap_state s).

Record engine_ok e : Prop := {
  ok_state : state_is_replay e;
  ok_snapshots : Forall (snapshot_sound e) (snapshots e);
  ok_ascending :
    StronglySorted (λ a b, eventIndex a ≤ eventIndex b) (snapshots e);
}.

(** The operations of the engine, as a caller sequences them. *)
Inductive Op :=
| op_dispatch (event : Event)
| op_replay (evs : list Event)
| op_insertEvents (evs : list Event)
| op_removeEvent (event : Event)
| op_createSnapshot
| op_disposeSnapshot (r : nat)
| op_rebaseline (st : State)
| op_subscribe (cb : State → completion unit)
| op_unsubscribe (r : nat).

Definition perform (o : Op) : JS Engine unit :=
  match o with
  | op_dispatch event => dispatch event
  | op_replay evs => replay evs
  | op_insertEvents evs => insertEvents evs
  | op_removeEvent event => removeEvent event
  | op_createSnapshot => createSnapshot;; mret tt
  | op_disposeSnapshot r => disposeSnapshot r
  | op_rebaseline st => rebaseline st
  | op_subscribe cb => subscribe cb;; mret tt
  | op_unsubscribe r => unsubscribe r
  end.

Definition is_replay (o : Op) : bool :=
  match o with op_replay _ => true | _ => false end.

(** "After every operation among [allowed] returns, [getState] is the fold
    of the reducer over the log": on every engine reached from a fresh
    one by operations that returned. *)
Definition state_is_replay_after (allowed : Op → bool) : Prop :=
  ∀ initial apply interval e0 ops e,
    new_EventSource initial apply interval = Normal e0 →
    Forall (λ o, allowed o = true) ops →
    for_of ops perform e0 = (Normal tt, e) →
    ∃ st, getState e = (Normal st, e)
          ∧ reduce (applyEvent e) (initialState e) (events e) = (Normal tt, st).

(** "A method that fails leaves the engine as it was." *)
Definition atomic_failure (m : JS Engine unit) : Prop :=
  ∀ e x e', m e = (Throw x, e') →
    events e' = events e ∧ state e' = state e ∧ snapshots e' = snapshots e.

End EngineSpec.

Section HostSpec.
Context {Payload Meta State : Type}.

#[local] Abbreviation Event := (BaseEvent Payload Meta).

(** The reply to [requestHistory], in the words of the spec: the log
    events later than [since], each with its payload filtered for the
    client, those filtered to [null] left out. *)
Definition history_entry (filterForClient : Payload → string → option Payload)
    (clientId : string) (since : Z) (e : Event) : option Event :=
  if decide (since < timestamp e)%Z
  then match filterForClient (payload e) clientId with
       | Some filtered =>
           Some {| id := id e; timestamp := timestamp e; source := source e;
                   context := context e; payload := filtered |}
       | None => None
       end
  else None.

Definition history_since (filterForClient : Payload → string → option Payload)
    (clientId : string) (since : Z) (log : list Event) : list Event :=
  omap (history_entry filterForClient clientId since) log.

(** The operations of the host, as its embedder and its ports sequence
    them ([replay], inherited and public, is left out). *)
Inductive HostOp :=
| hop_dispatch (pl : Payload) (generated : string) (now : Z)
| hop_addClient (clientId : string) (p : nat)
| hop_removeClient (clientId : string)
| hop_message (p : nat) (data : EventMessage Event) (now : Z)
| hop_drop
| hop_subscribe (cb : State → completion unit).

Definition host_perform (truthy : Payload → bool) (o : HostOp)
    : JS (HostEventSource Payload Meta State) unit :=
  match o with
  | hop_dispatch pl generated now => host_dispatch truthy pl generated now
  | hop_addClient clientId p => addClient clientId p
  | hop_removeClient clientId => removeClient clientId
  | hop_message p data now => port_message p data now
  | hop_drop => host_drop
  | hop_subscribe cb => super (subscribe cb);; mret tt
  end.

(** "[drop()] removes exactly the newest event." *)
Definition drop_removes_newest (h : HostEventSource Payload Meta State) : Prop :=
  ∀ h', events (base h) ≠ [] →
    host_drop h = (Normal tt, h') →
    events (base h') = removelast (events (base h)).

End HostSpec.

(** * Fixtures: the counter of the test-suite *)

Module Counter.

Inductive Action :=
| ADD (value : Z)
| SUBTRACT (value : Z)
| MULTIPLY (value : Z)
| RESET (newValue : Z).

Definition Event := BaseEvent Action unit.
Definition Engine := EventSource Action unit Z.
Definition Host := HostEventSource Action unit Z.

(** [TestEventSource.applyEvent] on the [count] of the state. *)
Definition applyEvent_test (count : Z) (event : Event) : completion Z :=
  match payload event with
  | ADD v => Normal (count + v)%Z
  | SUBTRACT v => Normal (count - v)%Z
  | MULTIPLY v => Normal (count * v)%Z
  | RESET v => Normal v
  end.

(** [FaultyEventSource.faultyApplyEvent] *)
Definition faultyApplyEvent (count : Z) (event : Event) : completion Z :=
  match payload event with
  | SUBTRACT _ => Throw (Error "Faulty apply event")
  | _ => applyEvent_test count event
  end.

(** [createEvent(type, payload, timestamp, id)] *)
Definition createEvent (a : Action) (t : Z) (i : string) : Event :=
  {| id := i; timestamp := t; source := {| clientId := "test-client" |};
     context := None; payload := a |}.

(** Objects are truthy. *)
Definition truthy (a : Action) : bool := true.

Definition accept_all (proposed : Event) (clientId : string) : bool := true.
Definition no_filter (a : Action) (clientId : string) : option Action := Some a.

(** A fresh engine with the reducer [apply]. *)
Definition fresh (apply : Z → Event → completion Z) (interval : Z) : Engine :=
  {| snapshotInterval := interval; initialState := 0%Z; applyEvent := apply;
     events := []; subscribers := []; state := 0%Z; snapshots := [];
     next_ref := 0; delivered := []; console := [] |}.

(** The object a method leaves behind. *)
Definition exec {S A} (m : JS S A) (s : S) : S := (m s).2.

Definition fresh_host : Host :=
  {| base := fresh applyEvent_test 100; clients := []; pastEventIds := ∅;
     validate := accept_all; filterForClient := no_filter;
     port_listeners := []; posted := [] |}.

(** Two clients on the ports 7 and 8. *)
Definition host_c1 : Host := exec (addClient "c1" 7) fresh_host.
Definition host_c1_c2 : Host := exec (addClient "c2" 8) host_c1.

(** The proposal [{value: 5}] with id ["x"], sent twice by client c1 (the
    second time as a retry), received at the host times 1000 and 2000. *)
Definition proposal_x : Event :=
  {| id := "x"; timestamp := 900; source := {| clientId := "c1" |};
     context := None; payload := ADD 5 |}.
Definition host_x : Host :=
  exec (receiveFromClient proposal_x "c1" 1000) host_c1_c2.
Definition host_xx : Host :=
  exec (receiveFromClient proposal_x "c1" 2000) host_x.

(** A host event after the proposal. *)
Definition host_xy : Host :=
  exec (host_dispatch truthy (ADD 2) "y" 3000) host_x.

(** Events that tie on the timestamp: ["a"] sorts before ["b"]. *)
Definition tie_a : Event := createEvent (ADD 10) 5 "a".
Definition tie_b : Event := createEvent (MULTIPLY 2) 5 "b".

(** [n] events [ADD 1] with timestamps [1..n] and the ids ["b"], ["bb"],
    ... *)
Fixpoint bs (n : nat) : string :=
  match n with 0 => "" | S n' => "b" +:+ bs n' end.
Definition ticks (n : nat) : list Event :=
  map (λ k, createEvent (ADD 1) (Z.of_nat k) (bs k)) (seq 1 n).

(** A listener that throws, and one that returns. *)
Definition bad_listener (count : Z) : completion unit :=
  Throw (Error "Subscriber error").
Definition good_listener (count : Z) : completion unit := Normal tt.

Definition sub_event : Event := createEvent (SUBTRACT 1) 2 "s".
Definition add_event : Event := createEvent (ADD 1) 1 "a".

End Counter.

(** * Vocabulary of the further properties *)

Section EngineSpecMore.
Context {Payload Meta State : Type}.

#[local] Abbreviation Engine := (EventSource Payload Meta State).

(** Objects have their own identity: the references of the subscribers
    and of the snapshots are distinct, and the counter is ahead of them. *)
Definition refs_ok (e : Engine) : Prop :=
  Forall (λ s, sub_ref s < next_ref e) (subscribers e)
  ∧ NoDup (map sub_ref (subscribers e))
  ∧ Forall (λ s, snap_ref s < next_ref e) (snapshots e)
  ∧ NoDup (map snap_ref (snapshots e)).

(** The comparator of [insertEvents] with any comparison of ids in the
    place of [localeCompare]. *)
Definition compareEventsBy (compareIds : string → string → Z)
    (a b : BaseEvent Payload Meta) : Z :=
  if decide (timestamp a ≠ timestamp b)
  then (timestamp a - timestamp b)%Z
  else compareIds (id a) (id b).

End EngineSpecMore.

Section HostSpecMore.
Context {Payload Meta State : Type}.

#[local] Abbreviation Event := (BaseEvent Payload Meta).

(** What [broadcast] posts: one [event] message per registered client, in
    the order of the registry, for the clients whose filtered payload is
    neither [null] nor falsy; the message carries the filtered payload. *)
Definition broadcast_messages (truthy : Payload → bool)
    (filterForClient : Payload → string → option Payload)
    (event : Event) (clients : list (string * Client))
    : list (nat * EventMessage Event) :=
  omap (λ entry : string * Client,
          match filterForClient (payload event) entry.1 with
          | Some filtered =>
              if truthy filtered
              then Some (port entry.2,
                         msg_event {| id := id event;
                                      timestamp := timestamp event;
                                      source := source event;
                                      context := context event;
                                      payload := filtered |})
              else None
          | None => None
          end) clients.

(** The reply to a refused proposal: a [rejection] on the port the registry
    holds for the client, nothing when the client is not registered. *)
Definition rejection_messages (clients : list (string * Client))
    (clientId eventId : string) : list (nat * EventMessage Event) :=
  match list_find (λ c : string * Client, c.1 = clientId) clients with
  | Some (_, (_, client)) => [(port client, msg_rejection eventId)]
  | None => []
  end.

(** The abort controllers of the live listeners are older than the
    counter. *)
Definition listeners_ok (h : HostEventSource Payload Meta State) : Prop :=
  Forall (λ l, listener_ref l < next_ref (base h)) (port_listeners h).

(** The ids the host generated for its own events, in a sequence of
    operations. *)
Definition generated_ids (ops : list (@HostOp Payload Meta State))
    : list string :=
  omap (λ o, match o with
             | hop_dispatch _ generated _ => Some generated
             | _ => None
             end) ops.

(** What an operation of the host leaves alone unless it is about it: the
    hooks given to the constructor; the reference counter never goes
    back. *)
Definition host_frame (h h' : HostEventSource Payload Meta State) : Prop :=
  validate h' = validate h
  ∧ filterForClient h' = filterForClient h
  ∧ next_ref (base h) ≤ next_ref (base h').

(** What a message from a port leaves alone besides: the registry, the
    listeners and the past-id set. *)
Definition message_frame (h h' : HostEventSource Payload Meta State) : Prop :=
  host_frame h h'
  ∧ clients h' = clients h
  ∧ port_listeners h' = port_listeners h
  ∧ pastEventIds h' = pastEventIds h.

(** The ports passed to [addClient] in a sequence of operations. *)
Definition added_ports (ops : list (@HostOp Payload Meta State)) : list nat :=
  omap (λ o, match o with
             | hop_addClient _ p => Some p
             | _ => None
             end) ops.

(** The listener [addClient] attaches for an entry of the registry. *)
Definition listener_of (entry : string * Client) : PortListener :=
  {| listener_ref := dispose entry.2; listener_port := port entry.2;
     listener_clientId := entry.1 |}.

(** The registry and the listeners agree: the listener of every entry is
    attached, the abort controllers are distinct and older than the
    counter. *)
Definition registry_ok (h : HostEventSource Payload Meta State) : Prop :=
  listeners_ok h
  ∧ NoDup (map listener_ref (port_listeners h))
  ∧ Forall (λ entry, listener_of entry ∈ port_listeners h) (clients h).

(** The replies to a [requestHistory] that arrives on the port [p]: one
    [eventHistory] per listener attached to the port, in the order of
    attachment, each filtered for the client id of its registration. *)
Definition history_replies (h : HostEventSource Payload Meta State)
    (p : nat) (since : Z) : list (nat * EventMessage Event) :=
  map (λ l, (p, msg_eventHistory
                  (history_since (filterForClient h) (listener_clientId l)
                     since (events (base h)))))
    (filter (λ l, listener_port l = p) (port_listeners h)).

(** "A [requestHistory] from a registered client is answered with one
    [eventHistory] on its port." *)
Definition replies_once (truthy : Payload → bool) : Prop :=
  ∀ (initial : State) apply validate filterForClient
    (h0 h : HostEventSource Payload Meta State) ops entry since now,
    new_HostEventSource initial apply validate filterForClient = Normal h0 →
    for_of ops (host_perform truthy) h0 = (Normal tt, h) →
    entry ∈ clients h →
    ∃ reply,
      posted (port_message (port entry.2) (msg_requestHistory since) now h).2
      = posted h ++ [(port entry.2, msg_eventHistory reply)].

End HostSpecMore.

Module PortSpec.
Import Port.

Section PortSpec.
Context {T Any : Type}.

#[local] Abbreviation MockPort := (MockReconnectingPort T Any).

(** The set of listeners of a type, empty when the map has no entry. *)
Definition listeners_of (p : MockPort) (type : EventType)
    : list (Listener T Any) :=
  default [] (listeners p type).

(** What [dispatchEvent] adds to the world for a set of listeners: each is
    called with the event, in the order of the set, and each exception is
    reported on the console. *)
Definition calls_of (set : list (Listener T Any)) (event : PortEvent T Any)
    : list (nat * PortEvent T Any) :=
  map (λ l, (fn_ref l, event)) set.

Definition errors_of (type : EventType) (set : list (Listener T Any))
    (event : PortEvent T Any) : list PortConsole :=
  omap (λ l, match fn_body l event with
             | Throw error => Some (listener_error type error)
             | Normal _ => None
             end) set.

(** The operations of a port, as a test sequences them. *)
Inductive PortOp :=
| pop_postMessage (message : T)
| pop_addEventListener (type : EventType) (listener : Listener T Any)
    (signal : option nat)
| pop_removeEventListener (type : EventType) (listener : Listener T Any)
| pop_abort (signal : nat)
| pop_receiveMessage (data : T)
| pop_receiveMessageError (error : Any)
| pop_connect
| pop_disconnect
| pop_clearQueue.

Definition port_perform (o : PortOp) : JS MockPort unit :=
  match o with
  | pop_postMessage msg => postMessage msg
  | pop_addEventListener type listener signal =>
      addEventListener type listener signal
  | pop_removeEventListener type listener => removeEventListener type listener
  | pop_abort signal => abort signal
  | pop_receiveMessage data => receiveMessage data
  | pop_receiveMessageError error => receiveMessageError error
  | pop_connect => connect
  | pop_disconnect => disconnect
  | pop_clearQueue => clearQueue
  end.

(** A connected port holds no queued message, and no set of listeners
    holds a function twice. *)
Definition port_ok (p : MockPort) : Prop :=
  (_connected p = true → messageQueue p = [])
  ∧ ∀ type, NoDup (map fn_ref (listeners_of p type)).

(** What registering and removing listeners leave alone. *)
Definition listener_frame (p p' : MockPort) : Prop :=
  _connected p' = _connected p ∧ messageQueue p' = messageQueue p
  ∧ aborted p' = aborted p ∧ heard p' = heard p
  ∧ port_console p' = port_console p.

End PortSpec.
End PortSpec.

Module ClientSpec.
Import Client.

Section ClientSpec.
Context {Payload Meta State : Type}.

#[local] Abbreviation Event := (BaseEvent Payload Meta).
#[local] Abbreviation ClientSource := (ClientEventSource Payload Meta State).

(** The event [propose] builds from its argument. *)
Definition proposed_event (eventData : Event) (generated : string) (now : Z)
    : Event :=
  {| id := generated; timestamp := now; source := source eventData;
     context := context eventData; payload := payload eventData |}.

(** The operations of the client: a proposal of its embedder, a message
    or a reconnection of its port, the firing of the oldest timer. *)
Inductive ClientOp :=
| cop_propose (eventData : Event) (generated : string) (now : Z)
| cop_message (data : EventMessage Event)
| cop_connected
| cop_timer.

Definition client_perform (o : ClientOp) : JS ClientSource unit :=
  match o with
  | cop_propose eventData generated now => propose eventData generated now
  | cop_message data => onMessage data
  | cop_connected => onConnected
  | cop_timer => run_next_timer
  end.

(** Every pending event is filed under its id and is in the log. *)
Definition pending_ok (c : ClientSource) : Prop :=
  Forall (λ kv : string * Event, kv.1 = id kv.2 ∧ kv.2 ∈ events (base c))
    (pending c).

End ClientSpec.
End ClientSpec.

(** A counter that refuses to go below zero, and a host over it. *)
Module Ledger.

Definition strictApplyEvent (count : Z) (event : Counter.Event) : completion Z :=
  match payload event with
  | Counter.SUBTRACT v =>
      if (count - v <? 0)%Z then Throw (Error "Insufficient count")
      else Normal (count - v)%Z
  | _ => Counter.applyEvent_test count event
  end.

Definition strict_host : Counter.Host :=
  {| base := Counter.fresh strictApplyEvent 100; clients := [];
     pastEventIds := ∅; validate := Counter.accept_all;
     filterForClient := Counter.no_filter; port_listeners := []; posted := [] |}.

(** Client c1 proposes [ADD 5] under the id ["x"], the host subtracts 3
    under ["y"], and the retry of ["x"] is accepted: the log holds ["x"],
    ["y"], ["x"] and the count is 7. *)
Definition host_xyx : Counter.Host :=
  Counter.exec
    (for_of [hop_addClient "c1" 7;
             hop_message 7 (msg_event Counter.proposal_x) 1000;
             hop_dispatch (Counter.SUBTRACT 3) "y" 1500;
             hop_message 7 (msg_event Counter.proposal_x) 2000]
       (host_perform Counter.truthy)) strict_host.

(** [drop()] on it (which throws), and then a host event ["z"]. *)
Definition host_dropped : Counter.Host := Counter.exec host_drop host_xyx.
Definition host_yz : Counter.Host :=
  Counter.exec (host_dispatch Counter.truthy (Counter.ADD 1) "z" 3000)
    host_dropped.

(** The port 7 passed to [addClient] twice for the client c1. *)
Definition host_c1_twice : Counter.Host :=
  Counter.exec (addClient "c1" 7) Counter.host_c1.

End Ledger.

(** Fixtures of the scenarios of the mock port and of the client: ports
    that carry numbers, and a client over the counter of the tests. *)
Module Scenario.
Import Port PortSpec Client ClientSpec.

Definition quiet : Listener nat unit :=
  {| fn_ref := 1; fn_body := λ _, Normal tt |}.
Definition faulty : Listener nat unit :=
  {| fn_ref := 2; fn_body := λ _, Throw (Error "Listener error") |}.

(** A connected port with the listeners [faulty] and [quiet] on
    ['message'] and [quiet] on ['connected'] and ['disconnected']. *)
Definition port_ops : list (@PortOp nat unit) :=
  [pop_addEventListener message faulty None;
   pop_addEventListener message quiet (Some 5);
   pop_addEventListener connected quiet None;
   pop_addEventListener disconnected quiet None].
Definition listening_port : MockReconnectingPort nat unit :=
  Counter.exec (for_of port_ops port_perform) (new_MockReconnectingPort None).

(** The same port after [disconnect]. *)
Definition offline_port : MockReconnectingPort nat unit :=
  Counter.exec disconnect listening_port.

(** A pair whose second port listens. *)
Definition listening_pair : PortPair nat unit :=
  {| port1 := new_MockReconnectingPort None; port2 := listening_port;
     timers := [] |}.

(** The pair after port 1 has gone offline and queued two messages. *)
Definition queued_pair : PortPair nat unit :=
  Counter.exec (on_port1 (disconnect;; postMessage 7;; postMessage 8))
    listening_pair.

Definition fresh_client : ClientEventSource Counter.Action unit Z :=
  {| Client.base := Counter.fresh Counter.applyEvent_test 100;
     pending := []; sent := []; retries := [] |}.

Definition client_ops : list (@ClientOp Counter.Action unit) :=
  [cop_propose Counter.add_event "p1" 10;
   cop_message (msg_eventHistory [Counter.tie_a]);
   cop_connected; cop_timer].

(** A client with one pending proposal, one event of the host's history,
    and a retry that has fired once. *)
Definition busy_client : ClientEventSource Counter.Action unit Z :=
  Counter.exec (for_of client_ops client_perform) fresh_client.

End Scenario.

(** * Properties of the engine *)

Ltac js_unfold :=
  unfold mbind, mret, js_bind, js_ret, gets, modify, call, try_catch in *.

Section EngineFacts.
Context {Payload Meta State : Type}.

#[local] Abbreviation Event := (BaseEvent Payload Meta).
#[local] Abbreviation Engine := (EventSource Payload Meta State).

Implicit Types (e : Engine) (ev : Event) (evs : list Event) (st : State).

Lemma reduce_app f st evs1 evs2 :
  reduce f st (evs1 ++ evs2) =
  match reduce f st evs1 with
  | (Normal _, st') => reduce f st' evs2
  | (Throw x, st') => (Throw x, st')
  end.
Proof.
  revert st. induction evs1 as [|ev evs1 IH]; intros st; simpl; [done|].
  destruct (f st ev); [apply IH | done].
Qed.

Lemma reduce_app_normal f st evs1 evs2 st2 :
  reduce f st (evs1 ++ evs2) = (Normal tt, st2) →
  ∃ st1, reduce f st evs1 = (Normal tt, st1) ∧ reduce f st1 evs2 = (Normal tt, st2).
Proof.
  rewrite reduce_app. destruct (reduce f st evs1) as [[[]|x] st1]; [eauto | done].
Qed.

Lemma for_of_safeCallback subs e :
  for_of subs (λ subscriber, st ← gets state; safeCallback subscriber st) e
  = (Normal tt, notified_with subs e).
Proof.
  revert e. induction subs as [|s subs IH]; intros e.
  - destruct e. unfold notified_with. simpl. by rewrite !app_nil_r.
  - simpl. js_unfold. unfold safeCallback. js_unfold. simpl.
    destruct (callback s (state e)) as [[]|x] eqn:Hcb; rewrite IH;
      unfold notified_with, notify_calls, notify_errors; simpl;
      rewrite Hcb; simpl; rewrite <- !app_assoc; done.
Qed.

Lemma notify_run e : notify e = (Normal tt, notified e).
Proof. unfold notify. js_unfold. apply for_of_safeCallback. Qed.


Lemma replay_run evs e :
  replay evs e =
  match reduce (applyEvent e) (state e) evs with
  | (Normal _, st) => (Normal tt, notified (set_state st e))
  | (Throw x, st) => (Throw x, set_state st e)
  end.
Proof.
  unfold replay. js_unfold.
  revert e. induction evs as [|ev evs IH]; intros e; simpl.
  - rewrite notify_run. by destruct e.
  - js_unfold. destruct (applyEvent e (state e) ev) as [st'|x] eqn:Hap.
    + specialize (IH (set_state st' e)). simpl in IH.
      destruct (for_of evs _ (set_state st' e)) as [[[]|y] e1] eqn:Hfor;
        destruct (reduce (applyEvent e) st' evs) as [[[]|z] st2]; simpl in *;
        try done; by simplify_eq.
    + by destruct e.
Qed.

Lemma getLatestSnapshot_run e :
  getLatestSnapshot e = (Normal (latestSnapshot e), e).
Proof.
  unfold getLatestSnapshot, latestSnapshot. js_unfold.
  by destruct (last (snapshots e)).
Qed.

Lemma drop_newer_snoc index (snaps : list (Snapshot State)) s :
  drop_newer index (snaps ++ [s]) =
  if bool_decide (index < eventIndex s) then drop_newer index snaps
  else snaps ++ [s].
Proof.
  induction snaps as [|a snaps IH]; simpl; [done|].
  rewrite IH. case_bool_decide; [done|].
  by destruct snaps.
Qed.

Lemma set_snapshots_same e : set_snapshots (snapshots e) e = e.
Proof. by destruct e. Qed.

Lemma drop_loop_run fuel index e :
  length (snapshots e) ≤ fuel →
  drop_loop fuel index e
  = (Normal tt, set_snapshots (drop_newer index (snapshots e)) e).
Proof.
  revert e. induction fuel as [|fuel IH]; intros e Hfuel.
  - destruct (snapshots e) as [|s snaps] eqn:Hs; [|simpl in Hfuel; lia].
    cbn [drop_loop]. js_unfold. rewrite getLatestSnapshot_run.
    unfold latestSnapshot. rewrite Hs. simpl.
    by rewrite <- Hs, set_snapshots_same.
  - cbn [drop_loop]. js_unfold. rewrite getLatestSnapshot_run.
    unfold latestSnapshot.
    destruct (snapshots e) as [|s snaps _] eqn:Hs using rev_ind.
    + simpl. by rewrite <- Hs, set_snapshots_same.
    + rewrite last_snoc, drop_newer_snoc.
      rewrite length_app in Hfuel; simpl in Hfuel.
      case_bool_decide; [|by rewrite <- Hs, set_snapshots_same].
      unfold dropLatestSnapshot. simpl.
      rewrite IH; simpl; rewrite Hs, removelast_last; [done | lia].
Qed.

Lemma dropSnapshotsAfterEventIndex_run index e :
  dropSnapshotsAfterEventIndex index e
  = (Normal tt, set_snapshots (drop_newer index (snapshots e)) e).
Proof.
  unfold dropSnapshotsAfterEventIndex. js_unfold. by apply drop_loop_run.
Qed.

Lemma createSnapshot_run e :
  createSnapshot e = (Normal (next_ref e), snapshot_taken e).
Proof. done. Qed.

Lemma dispatch_run ev e :
  dispatch ev e =
  match applyEvent e (state e) ev with
  | Normal st =>
      (Normal tt,
       auto_snapshot (notified (set_state st (set_events (events e ++ [ev]) e))))
  | Throw x => (Throw x, set_events (events e ++ [ev]) e)
  end.
Proof.
  unfold dispatch. js_unfold. simpl.
  destruct (applyEvent e (state e) ev) as [st|x]; [|done].
  rewrite notify_run, getLatestSnapshot_run. unfold auto_snapshot.
  simpl. by case_match.
Qed.

Lemma removeEvent_run ev e :
  removeEvent ev e =
  match list_find (λ x, id x = id ev) (events e) with
  | None => (Normal tt, e)
  | Some (index, _) =>
      let keep := filter (λ x, id x ≠ id ev) in
      replay (keep (drop (eventIndex (rewind_point index e)) (events e)))
        (rewound index keep e)
  end.
Proof.
  unfold removeEvent. js_unfold. simpl.
  destruct (list_find _ (events e)) as [[index x]|]; [|done].
  rewrite drop_loop_run by done. rewrite getLatestSnapshot_run. done.
Qed.

Lemma insertEvents_run first rest e :
  insertEvents (first :: rest) e =
  let index := insert_index first (events e) in
  let merge := λ existing, mergeSorted existing (first :: rest) compareEvents in
  replay (merge (drop (eventIndex (rewind_point index e)) (events e)))
    (rewound index merge e).
Proof.
  unfold insertEvents. js_unfold.
  rewrite dropSnapshotsAfterEventIndex_run.
  unfold rollbackToSnapshotSilent. js_unfold.
  rewrite getLatestSnapshot_run. done.
Qed.

Lemma rebaseline_run st e :
  rebaseline st e =
  (Normal tt,
   notified (set_state st (set_snapshots [] (set_events [] (set_initialState st e))))).
Proof. unfold rebaseline. js_unfold. by rewrite notify_run. Qed.


(** ** The invariants I2 and I3 *)

Lemma engine_ok_ext e e' :
  applyEvent e' = applyEvent e → initialState e' = initialState e →
  events e' = events e → state e' = state e → snapshots e' = snapshots e →
  engine_ok e → engine_ok e'.
Proof.
  intros Ha Hi He Hs Hn [H2 H3 H4].
  split; unfold state_is_replay, snapshot_sound in *;
    rewrite ?Ha, ?Hi, ?He, ?Hs, ?Hn; done.
Qed.

Lemma engine_ok_notified e : engine_ok e → engine_ok (notified e).
Proof. by apply engine_ok_ext. Qed.

Lemma engine_ok_fresh initial apply interval e0 :
  new_EventSource initial apply interval = Normal e0 → engine_ok e0.
Proof.
  unfold new_EventSource. case_match; [done|]. intros [= <-].
  split; unfold state_is_replay; simpl; [done | constructor | constructor].
Qed.

Lemma engine_ok_snapshot_taken e : engine_ok e → engine_ok (snapshot_taken e).
Proof.
  intros [H2 H3 H4]. split; unfold state_is_replay, snapshot_sound in *; simpl.
  - done.
  - apply Forall_app. split; [done|]. constructor; [|constructor]. simpl.
    split; [done|]. by rewrite take_ge.
  - apply StronglySorted_app. split_and!; [|done|repeat constructor].
    intros a b Ha ->%list_elem_of_singleton. simpl.
    by eapply Forall_forall in H3 as [? _].
Qed.

Lemma engine_ok_dispatched ev e e' :
  engine_ok e → dispatch ev e = (Normal tt, e') → engine_ok e'.
Proof.
  intros [H2 H3 H4]. rewrite dispatch_run.
  destruct (applyEvent e (state e) ev) as [st|x] eqn:Hap; [|done].
  intros [= <-]. unfold auto_snapshot.
  assert (engine_ok (notified (set_state st (set_events (events e ++ [ev]) e)))).
  { apply engine_ok_notified.
    split; unfold state_is_replay, snapshot_sound in *; simpl.
    - rewrite reduce_app, H2. simpl. by rewrite Hap.
    - eapply Forall_impl; [done|]. intros s [Hle Hs].
      rewrite length_app, take_app_le by done. split; [lia | done].
    - done. }
  case_match; [by apply engine_ok_snapshot_taken | done].
Qed.

Lemma drop_newer_prefix index (snaps : list (Snapshot State)) :
  ∃ dropped, snaps = drop_newer index snaps ++ dropped.
Proof.
  induction snaps as [|s snaps [dropped IH]]; [by exists []|]. simpl.
  destruct (drop_newer index snaps) as [|k kept] eqn:Hk.
  - case_bool_decide; [by exists (s :: snaps) | by exists snaps].
  - exists dropped. simpl. by f_equal.
Qed.

(** The snapshot the engine rewinds to is sound, and it is the latest of
    those kept. *)
Lemma rewind_point_sound index e :
  engine_ok e → snapshot_sound e (rewind_point index e).
Proof.
  intros [H2 H3 H4]. unfold rewind_point, latestSnapshot. simpl.
  destruct (drop_newer_prefix index (snapshots e)) as [dropped Hd].
  destruct (last (drop_newer index (snapshots e))) as [s|] eqn:Hl.
  - apply last_Some_elem_of in Hl.
    eapply Forall_forall in H3; [done|]. rewrite Hd. set_solver.
  - split; simpl; [lia | done].
Qed.

Lemma rewind_point_latest index e s :
  engine_ok e → s ∈ drop_newer index (snapshots e) →
  eventIndex s ≤ eventIndex (rewind_point index e).
Proof.
  intros [H2 H3 H4] Hs. unfold rewind_point, latestSnapshot. simpl.
  destruct (drop_newer_prefix index (snapshots e)) as [dropped Hd].
  rewrite Hd in H4. apply StronglySorted_app_1_l in H4.
  destruct (last (drop_newer index (snapshots e))) as [l|] eqn:Hl.
  - apply last_Some in Hl as [kept Hl]. rewrite Hl in Hs, H4.
    apply elem_of_app in Hs as [Hk | Hk].
    + apply StronglySorted_app in H4 as (H12 & _ & _). apply H12; set_solver.
    + apply list_elem_of_singleton in Hk as ->. done.
  - apply last_None in Hl. rewrite Hl in Hs. set_solver.
Qed.

Lemma engine_ok_rewound index tail e st :
  engine_ok e →
  reduce (applyEvent e) (snap_state (rewind_point index e))
    (tail (drop (eventIndex (rewind_point index e)) (events e)))
  = (Normal tt, st) →
  engine_ok (set_state st (rewound index tail e)).
Proof.
  intros Hok Hred.
  pose proof (rewind_point_sound index e Hok) as [Hle Hpt].
  pose proof (rewind_point_latest index e) as Hlatest.
  destruct Hok as [H2 H3 H4].
  destruct (drop_newer_prefix index (snapshots e)) as [dropped Hd].
  split; unfold state_is_replay, snapshot_sound in *; simpl.
  - fold (rewind_point index e). by rewrite reduce_app, Hpt.
  - fold (rewind_point index e). apply Forall_forall. intros s Hs.
    assert (eventIndex s ≤ eventIndex (rewind_point index e)) as Hsk
      by (by apply Hlatest).
    assert (snapshot_sound e s) as [Hsle Hsred].
    { eapply Forall_forall in H3; [done|]. rewrite Hd. set_solver. }
    rewrite length_app, length_take, take_app_le, take_take
      by (rewrite length_take; lia).
    split; [lia|]. by rewrite Nat.min_l.
  - rewrite Hd in H4. by apply StronglySorted_app_1_l in H4.
Qed.

Lemma engine_ok_rewound_replay index tail e e' :
  engine_ok e →
  replay (tail (drop (eventIndex (rewind_point index e)) (events e)))
    (rewound index tail e) = (Normal tt, e') →
  engine_ok e'.
Proof.
  intros Hok. rewrite replay_run.
  destruct (reduce _ _ _) as [[[]|x] st] eqn:Hred; [|done].
  intros [= <-]. apply engine_ok_notified.
  by apply (engine_ok_rewound index tail e st) in Hok.
Qed.

Lemma engine_ok_removed ev e e' :
  engine_ok e → removeEvent ev e = (Normal tt, e') → engine_ok e'.
Proof.
  intros Hok. rewrite removeEvent_run.
  destruct (list_find _ (events e)) as [[index x]|]; [|by intros [= <-]].
  by apply engine_ok_rewound_replay.
Qed.

Lemma engine_ok_inserted evs e e' :
  engine_ok e → insertEvents evs e = (Normal tt, e') → engine_ok e'.
Proof.
  intros Hok. destruct evs as [|first rest]; [by intros [= <-]|].
  rewrite insertEvents_run. by apply engine_ok_rewound_replay.
Qed.

Lemma engine_ok_rebaselined st e e' :
  rebaseline st e = (Normal tt, e') → engine_ok e'.
Proof.
  rewrite rebaseline_run. intros [= <-]. apply engine_ok_notified.
  split; unfold state_is_replay; simpl; [done | constructor | constructor].
Qed.

Lemma remove_first_split {A} (is_x : A → bool) (a : list A) :
  remove_first is_x a = a
  ∨ ∃ a1 x a2, a = a1 ++ x :: a2 ∧ remove_first is_x a = a1 ++ a2.
Proof.
  induction a as [|y a IH]; simpl; [by left|].
  destruct (is_x y); [right; by exists [], y, a|].
  destruct IH as [-> | (a1 & x & a2 & -> & ->)]; [by left|].
  right. by exists (y :: a1), x, a2.
Qed.

Lemma engine_ok_disposed r e e' :
  engine_ok e → disposeSnapshot r e = (Normal tt, e') → engine_ok e'.
Proof.
  intros [H2 H3 H4] [= <-].
  split; unfold state_is_replay, snapshot_sound in *; simpl; [done|..];
    destruct (remove_first_split (λ s, bool_decide (snap_ref s = r)) (snapshots e))
      as [-> | (a1 & x & a2 & Ha & ->)]; try done; rewrite Ha in *.
  - apply Forall_app in H3 as [? [_ ?]%Forall_cons]. by apply Forall_app.
  - apply StronglySorted_app in H4 as (H12 & ? & [_ ?]%StronglySorted_cons).
    apply StronglySorted_app. split_and!; [|done..].
    intros; apply H12; set_solver.
Qed.

Lemma engine_ok_subscribed cb e r e' :
  engine_ok e → subscribe cb e = (Normal r, e') → engine_ok e'.
Proof.
  intros Hok. unfold subscribe, safeCallback. js_unfold. simpl.
  destruct (cb (state e)); intros [= <- <-]; revert Hok; by apply engine_ok_ext.
Qed.

(** Every operation but [replay] keeps the invariants. *)
Lemma engine_ok_perform o e e' :
  is_replay o = false →
  engine_ok e → perform o e = (Normal tt, e') → engine_ok e'.
Proof.
  destruct o; simpl; intros Hnr Hok; try done.
  - by apply engine_ok_dispatched.
  - by apply engine_ok_inserted.
  - by apply engine_ok_removed.
  - intros [= <-]. by apply engine_ok_snapshot_taken.
  - by apply engine_ok_disposed.
  - by apply engine_ok_rebaselined.
  - js_unfold. destruct (subscribe cb e) as [[r|x] e1] eqn:Hs; [|done].
    intros [= <-]. by eapply engine_ok_subscribed.
  - intros [= <-]. revert Hok. by apply engine_ok_ext.
Qed.

Lemma engine_ok_run ops e e' :
  Forall (λ o, is_replay o = false) ops →
  engine_ok e → for_of ops perform e = (Normal tt, e') → engine_ok e'.
Proof.
  intros Hops. revert e. induction Hops as [|o ops Ho _ IH]; intros e Hok.
  - by intros [= <-].
  - simpl. js_unfold. destruct (perform o e) as [[[]|x] e1] eqn:Hp; [|done].
    apply IH. by eapply engine_ok_perform.
Qed.


Lemma rewound_applyEvent index tail e :
  applyEvent (rewound index tail e) = applyEvent e.
Proof. done. Qed.

Lemma rewound_state index tail e :
  state (rewound index tail e) = snap_state (rewind_point index e).
Proof. done. Qed.

(** ** Reducer exceptions *)

(** C1, as amended.  When the reducer throws, the exception reaches the
    caller of [dispatch], [replay], [insertEvents] or [removeEvent] and no
    subscriber is notified, but the engine is not put back: [dispatch]
    leaves the event appended to the log (state and snapshots as before);
    [replay] leaves the state folded over the events before the failing
    one (log and snapshots as before); [insertEvents] and [removeEvent]
    leave the snapshots beyond the anchor dropped, the log rewritten and
    the state folded from the rewind snapshot over the events before the
    failing one. *)
Theorem reducer_exception_propagates e x :
  (∀ ev, applyEvent e (state e) ev = Throw x →
     ∃ e', dispatch ev e = (Throw x, e')
           ∧ events e' = events e ++ [ev] ∧ state e' = state e
           ∧ snapshots e' = snapshots e ∧ delivered e' = delivered e)
  ∧ (∀ evs st, reduce (applyEvent e) (state e) evs = (Throw x, st) →
       ∃ e', replay evs e = (Throw x, e')
             ∧ events e' = events e ∧ state e' = st
             ∧ snapshots e' = snapshots e ∧ delivered e' = delivered e)
  ∧ (∀ first rest st,
       let index := insert_index first (events e) in
       let k := eventIndex (rewind_point index e) in
       let merged := mergeSorted (drop k (events e)) (first :: rest) compareEvents in
       reduce (applyEvent e) (snap_state (rewind_point index e)) merged
       = (Throw x, st) →
       ∃ e', insertEvents (first :: rest) e = (Throw x, e')
             ∧ events e' = take k (events e) ++ merged ∧ state e' = st
             ∧ snapshots e' = drop_newer index (snapshots e)
             ∧ delivered e' = delivered e)
  ∧ (∀ ev index found st,
       let k := eventIndex (rewind_point index e) in
       let kept := filter (λ y : Event, id y ≠ id ev) (drop k (events e)) in
       list_find (λ y : Event, id y = id ev) (events e) = Some (index, found) →
       reduce (applyEvent e) (snap_state (rewind_point index e)) kept
       = (Throw x, st) →
       ∃ e', removeEvent ev e = (Throw x, e')
             ∧ events e' = take k (events e) ++ kept ∧ state e' = st
             ∧ snapshots e' = drop_newer index (snapshots e)
             ∧ delivered e' = delivered e).
Proof.
  split_and!.
  - intros ev Hap. eexists. by rewrite dispatch_run, Hap.
  - intros evs st Hred. eexists. by rewrite replay_run, Hred.
  - intros first rest st index k merged Hred. subst merged k index.
    eexists. rewrite insertEvents_run. cbv zeta.
    by rewrite replay_run, rewound_applyEvent, rewound_state, Hred.
  - intros ev index found st k kept Hfind Hred. subst kept k.
    eexists. rewrite removeEvent_run, Hfind. cbv zeta.
    by rewrite replay_run, rewound_applyEvent, rewound_state, Hred.
Qed.

(** ** State as the replay of the log *)

(** C3, as amended: on an engine built by the constructor, after a
    sequence of operations other than [replay] ([dispatch], [insertEvents],
    [removeEvent], [createSnapshot] and its disposer, [rebaseline],
    [subscribe], [unsubscribe]) every one of which returned, [getState] is
    the fold of the reducer over the log from the initial state. *)
Theorem state_is_replay_after_operations
    (initial : State) apply interval e0 (ops : list Op) e :
  new_EventSource initial apply interval = Normal e0 →
  Forall (λ o, negb (is_replay o) = true) ops →
  for_of ops perform e0 = (Normal tt, e) →
  ∃ st, getState e = (Normal st, e)
        ∧ reduce (applyEvent e) (initialState e) (events e) = (Normal tt, st).
Proof.
  intros Hnew Hops Hrun. exists (state e). split; [done|].
  apply (engine_ok_run ops e0 e).
  - eapply Forall_impl; [done|]. by intros o ?%negb_true_iff.
  - by eapply engine_ok_fresh.
  - done.
Qed.

(** ** Listener isolation *)

(** C9: when a subscribed listener throws during a notification pass,
    the pass still calls every subscriber, in order, with the same state;
    [notify], and the [dispatch] it is part of, return normally; the error
    is written to [console.error]. *)
Theorem listener_isolation e (s : Subscriber State) x :
  s ∈ subscribers e →
  (callback s (state e) = Throw x →
     ∃ e', notify e = (Normal tt, e')
           ∧ delivered e' = delivered e ++ map (λ s', (sub_ref s', state e)) (subscribers e)
           ∧ console_error x ∈ console e'
           ∧ events e' = events e ∧ state e' = state e)
  ∧ (∀ ev st, applyEvent e (state e) ev = Normal st →
       callback s st = Throw x →
       ∃ e', dispatch ev e = (Normal tt, e')
             ∧ delivered e' = delivered e ++ map (λ s', (sub_ref s', st)) (subscribers e)
             ∧ console_error x ∈ console e'
             ∧ events e' = events e ++ [ev] ∧ state e' = st).
Proof.
  intros Hs.
  assert (∀ st, callback s st = Throw x →
                console_error x ∈ notify_errors (subscribers e) st) as Herr.
  { intros st Hcb. unfold notify_errors. apply list_elem_of_omap.
    exists s. by rewrite Hcb. }
  split.
  - intros Hcb. exists (notified e). rewrite notify_run.
    split_and!; try done. simpl. apply elem_of_app. right. by apply Herr.
  - intros ev st Hap Hcb. eexists. rewrite dispatch_run, Hap.
    split; [done|]. unfold auto_snapshot. case_match; simpl;
      (split_and!; try done; apply elem_of_app; right; by apply Herr).
Qed.


(** ** The auto-snapshot policy *)

Lemma for_of_app {S A} (xs ys : list A) (body : A → JS S unit) (s : S) :
  for_of (xs ++ ys) body s =
  match for_of xs body s with
  | (Normal _, s') => for_of ys body s'
  | (Throw x, s') => (Throw x, s')
  end.
Proof.
  revert s. induction xs as [|a xs IH]; intros s; simpl; [done|].
  js_unfold. destruct (body a s) as [[[]|x] s']; [apply IH | done].
Qed.

Lemma succ_mod (m s : Z) :
  (0 ≤ m)%Z → (0 < s)%Z →
  ((m + 1) `mod` s = if decide (m `mod` s = s - 1) then 0 else m `mod` s + 1)%Z.
Proof.
  intros Hm Hs. pose proof (Z.mod_pos_bound m s Hs) as Hr.
  pose proof (Z.div_mod m s ltac:(lia)) as Hq.
  case_decide as Hc; symmetry.
  - apply (Z.mod_unique _ _ (m `div` s + 1)); lia.
  - apply (Z.mod_unique _ _ (m `div` s)); lia.
Qed.

Lemma multiples_S s n :
  multiples s (S n) =
  multiples s n ++ (if decide (Z.of_nat (S n) `mod` s = 0)%Z then [S n] else []).
Proof.
  unfold multiples. by rewrite seq_S, filter_app.
Qed.

(** The engine after a run of tail dispatches from a fresh engine. *)
Lemma dispatch_only_run (initial : State) apply interval e0 evs e :
  new_EventSource initial apply interval = Normal e0 →
  for_of evs dispatch e0 = (Normal tt, e) →
  let s := default 100%Z interval in
  let n := Z.of_nat (length evs) in
  (0 < s)%Z ∧ snapshotInterval e = s ∧ applyEvent e = apply
  ∧ initialState e = initial ∧ events e = evs
  ∧ Z.of_nat (eventIndex (latestSnapshot e)) = (n - n `mod` s)%Z
  ∧ map eventIndex (snapshots e) = multiples s (length evs).
Proof.
  intros Hnew. revert e.
  assert (0 < default 100 interval)%Z as Hpos.
  { unfold new_EventSource in Hnew. case_match; [done | lia]. }
  induction evs as [|ev evs IH] using rev_ind; intros e Hrun s n.
  - injection Hrun as <-. unfold new_EventSource in Hnew.
    case_match; [done|]. injection Hnew as <-.
    by split_and!.
  - rewrite for_of_app in Hrun.
    destruct (for_of evs dispatch e0) as [[[]|x] e1] eqn:Hrun1; [|done].
    destruct (IH e1 eq_refl) as (_ & Hint & Hap & Hini & Hevs & Hlatest & Hsnaps).
    simpl in Hrun. js_unfold. rewrite dispatch_run in Hrun.
    destruct (applyEvent e1 (state e1) ev) as [st|x]; [|done].
    injection Hrun as <-.
    subst n. rewrite length_app, Nat.add_1_r. rewrite Nat2Z.inj_succ.
    set (m := Z.of_nat (length evs)) in *. fold s in Hint, Hlatest, Hsnaps.
    pose proof (Z.mod_pos_bound m s Hpos) as Hr.
    pose proof (succ_mod m s ltac:(lia) Hpos) as Hsucc.
    rewrite multiples_S, Nat2Z.inj_succ. fold m.
    unfold auto_snapshot. simpl.
    change (latestSnapshot (notified _)) with (latestSnapshot e1).
    rewrite Hint, Hlatest, Hevs, length_app, Nat.add_1_r, Nat2Z.inj_succ.
    fold m. unfold Z.succ in *.
    destruct (Z.leb_spec s (m + 1 - (m - m `mod` s))) as [Hle | Hgt].
    + rewrite decide_True in Hsucc by lia.
      rewrite decide_True by lia. simpl.
      unfold latestSnapshot. simpl. rewrite last_snoc. simpl.
      rewrite length_app, Nat.add_1_r, map_app, Hsnaps. simpl.
      split_and!; try done. lia.
    + rewrite decide_False in Hsucc by lia.
      rewrite decide_False by lia. simpl.
      change (latestSnapshot (notified _)) with (latestSnapshot e1).
      rewrite app_nil_r. split_and!; try done. lia.
Qed.


Lemma engine_ok_dispatches evs e e' :
  engine_ok e → for_of evs dispatch e = (Normal tt, e') → engine_ok e'.
Proof.
  revert e. induction evs as [|ev evs IH]; intros e Hok; simpl.
  - by intros [= <-].
  - js_unfold. destruct (dispatch ev e) as [[[]|x] e1] eqn:Hd; [|done].
    apply IH. by eapply engine_ok_dispatched.
Qed.

(** C7: on a fresh engine with snapshot interval [s] that has only seen
    tail dispatches, a dispatch creates a snapshot exactly when the log
    length minus the newest snapshot's [eventIndex] reaches [s] (it never
    exceeds [s]), and the snapshot records the state and the log length of
    that moment.  So snapshots sit at the multiples of [s], each holding
    the replay of the events it covers; with the default interval, the
    100th dispatch leaves one snapshot, of [eventIndex] 100, holding the
    replay of the 100 events. *)
Theorem auto_snapshot_policy (initial : State) apply interval e0 evs ev e e' :
  new_EventSource initial apply interval = Normal e0 →
  for_of evs dispatch e0 = (Normal tt, e) →
  dispatch ev e = (Normal tt, e') →
  let s := default 100%Z interval in
  let gap := (Z.of_nat (length (events e'))
              - Z.of_nat (eventIndex (latestSnapshot e)))%Z in
  (gap ≤ s)%Z
  ∧ (if decide (gap = s)
     then ∃ r, snapshots e' =
               snapshots e ++ [{| snap_state := state e';
                                  eventIndex := length (events e');
                                  snap_ref := r |}]
     else snapshots e' = snapshots e)
  ∧ events e' = evs ++ [ev]
  ∧ reduce apply initial (evs ++ [ev]) = (Normal tt, state e')
  ∧ map eventIndex (snapshots e') = multiples s (length (evs ++ [ev]))
  ∧ Forall (λ x, reduce apply initial (take (eventIndex x) (evs ++ [ev]))
                 = (Normal tt, snap_state x)) (snapshots e')
  ∧ (interval = None → length (evs ++ [ev]) = 100 →
     ∃ x, snapshots e' = [x] ∧ eventIndex x = 100
          ∧ reduce apply initial (evs ++ [ev]) = (Normal tt, snap_state x)).
Proof.
  intros Hnew Hrun Hd s gap.
  destruct (dispatch_only_run initial apply interval e0 evs e Hnew Hrun)
    as (Hpos & Hint & Hap & Hini & Hevs & Hlatest & Hsnaps).
  assert (for_of (evs ++ [ev]) dispatch e0 = (Normal tt, e')) as Hrun'.
  { rewrite for_of_app, Hrun. simpl. js_unfold. by rewrite Hd. }
  destruct (dispatch_only_run initial apply interval e0 _ e' Hnew Hrun')
    as (_ & Hint' & Hap' & Hini' & Hevs' & Hlatest' & Hsnaps').
  assert (engine_ok e') as [H2 H3 _].
  { eapply engine_ok_dispatches; [by eapply engine_ok_fresh | done]. }
  unfold state_is_replay in H2. rewrite Hap', Hini', Hevs' in H2.
  assert (Forall (λ x, reduce apply initial (take (eventIndex x) (evs ++ [ev]))
                       = (Normal tt, snap_state x)) (snapshots e')) as Hsound.
  { eapply Forall_impl; [done|]. intros x [_ Hx].
    by rewrite Hap', Hini', Hevs' in Hx. }
  fold s in Hpos, Hint, Hlatest, Hsnaps, Hsnaps'.
  assert (gap = 1 + Z.of_nat (length evs) `mod` s)%Z as Hgap.
  { subst gap. rewrite Hlatest, Hevs', length_app, Nat2Z.inj_add. simpl. lia. }
  pose proof (Z.mod_pos_bound (Z.of_nat (length evs)) s Hpos) as Hr.
  split_and!; try done.
  - lia.
  - assert (gap = Z.of_nat (length (events e ++ [ev]))
                  - Z.of_nat (eventIndex (latestSnapshot e)))%Z as Hg.
    { subst gap. by rewrite Hevs', Hevs. }
    clearbody gap. clear Hsound Hsnaps' H2 H3 Hrun' Hlatest' Hevs'.
    rewrite dispatch_run in Hd.
    destruct (applyEvent e (state e) ev) as [st|x]; [|done].
    injection Hd as <-. unfold auto_snapshot. simpl.
    change (latestSnapshot (notified _)) with (latestSnapshot e).
    rewrite Hint, <- Hg.
    destruct (Z.leb_spec s gap); [rewrite decide_True by lia
                                 |rewrite decide_False by lia]; [|done].
    by eexists.
  - intros -> Hlen. rewrite Hlen in Hsnaps'.
    change (multiples s 100) with [100] in Hsnaps'.
    destruct (snapshots e') as [|x [|??]]; try done.
    injection Hsnaps' as Hx. exists x. split_and!; [done..|].
    apply Forall_inv in Hsound. by rewrite Hx, <- Hlen, take_ge in Hsound.
Qed.


(** ** Removing the newest event *)

Lemma drop_newer_last index (snaps : list (Snapshot State)) s :
  last (drop_newer index snaps) = Some s → eventIndex s ≤ index.
Proof.
  induction snaps as [|a snaps IH] using rev_ind; [done|].
  rewrite drop_newer_snoc. case_bool_decide; [done|].
  rewrite last_snoc. intros [= <-]. lia.
Qed.

Lemma rewind_point_bound index e : eventIndex (rewind_point index e) ≤ index.
Proof.
  unfold rewind_point, latestSnapshot. simpl.
  destruct (last (drop_newer index (snapshots e))) as [s|] eqn:Hl; simpl; [|lia].
  by eapply drop_newer_last.
Qed.

Lemma filter_all {A} (P : A → Prop) `{!∀ x, Decision (P x)} (l : list A) :
  Forall P l → filter P l = l.
Proof.
  induction 1 as [|x l Hx _ IH]; [done|]. by rewrite filter_cons_True, IH.
Qed.

Lemma removeEvent_newest rest ev e :
  engine_ok e → events e = rest ++ [ev] → id ev ∉ map id rest →
  ∃ st, reduce (applyEvent e) (initialState e) rest = (Normal tt, st)
        ∧ removeEvent ev e
          = (Normal tt, notified (set_state st (rewound (length rest)
                                   (filter (λ y : Event, id y ≠ id ev)) e)))
        ∧ events (rewound (length rest) (filter (λ y : Event, id y ≠ id ev)) e)
          = rest.
Proof.
  intros Hok Hev Hfresh.
  pose proof (rewind_point_bound (length rest) e) as Hk.
  pose proof (rewind_point_sound (length rest) e Hok) as [_ Hpt].
  destruct Hok as [H2 _ _]. unfold state_is_replay in H2.
  rewrite Hev in H2, Hpt.
  apply reduce_app_normal in H2 as (st & Hrest & _).
  assert (Forall (λ y : Event, id y ≠ id ev) rest) as Hne.
  { apply Forall_forall. intros y Hy Heq. apply Hfresh. rewrite <- Heq.
    apply list_elem_of_fmap. by exists y. }
  assert (list_find (λ y : Event, id y = id ev) (events e)
          = Some (length rest, ev)) as Hfind.
  { rewrite Hev, list_find_app_r.
    - simpl. by rewrite decide_True.
    - apply list_find_None. eapply Forall_impl; [done|]. naive_solver. }
  set (k := eventIndex (rewind_point (length rest) e)) in *.
  assert (filter (λ y : Event, id y ≠ id ev) (drop k (events e)) = drop k rest)
    as Hkeep.
  { rewrite Hev, drop_app_le, filter_app by done.
    rewrite filter_all by by apply Forall_drop.
    rewrite filter_cons_False by naive_solver. by rewrite app_nil_r. }
  rewrite take_app_le in Hpt by done.
  rewrite <- (take_drop k rest), reduce_app, Hpt in Hrest.
  exists st. split_and!.
  - by rewrite <- (take_drop k rest), reduce_app, Hpt.
  - rewrite removeEvent_run, Hfind. cbv zeta. fold k.
    by rewrite replay_run, rewound_applyEvent, rewound_state, Hkeep, Hrest.
  - unfold rewound. simpl. fold (rewind_point (length rest) e). fold k.
    rewrite Hkeep. rewrite Hev, take_app_le by done. apply take_drop.
Qed.

End EngineFacts.

(** ** Ordering of the log *)

Section Ordering.
Context {Payload Meta State : Type}.

#[local] Abbreviation Event := (BaseEvent Payload Meta).
#[local] Abbreviation Engine := (EventSource Payload Meta State).

Implicit Types (e : Engine) (a b c : Event) (l r : list Event).

Lemma mergeSorted_nil_l {T} (r : list T) (cmp : T → T → Z) :
  mergeSorted [] r cmp = r.
Proof. by destruct r. Qed.

Lemma mergeSorted_nil_r {T} (l : list T) (cmp : T → T → Z) :
  mergeSorted l [] cmp = l.
Proof. by destruct l. Qed.

Lemma mergeSorted_cons {T} (x : T) (l : list T) (y : T) (r : list T)
    (cmp : T → T → Z) :
  mergeSorted (x :: l) (y :: r) cmp =
  if (cmp x y <=? 0)%Z then x :: mergeSorted l (y :: r) cmp
  else y :: mergeSorted (x :: l) r cmp.
Proof. done. Qed.

(** [mergeSorted] keeps every element of both inputs, whatever the
    comparator. *)
Lemma mergeSorted_perm {T} (l r : list T) (cmp : T → T → Z) :
  mergeSorted l r cmp ≡ₚ l ++ r.
Proof.
  revert r. induction l as [|x l IHl]; intros r.
  - by rewrite mergeSorted_nil_l.
  - induction r as [|y r IHr].
    + by rewrite mergeSorted_nil_r, app_nil_r.
    + rewrite mergeSorted_cons. case_match.
      * by rewrite IHl.
      * rewrite IHr. by rewrite (Permutation_middle (x :: l) r y).
Qed.

Lemma string_lt_trans (s1 s2 s3 : string) :
  String.compare s1 s2 = Lt → String.compare s2 s3 = Lt →
  String.compare s1 s3 = Lt.
Proof.
  intros H12 H23. apply OrderedTypeEx.String_as_OT.cmp_lt.
  eapply OrderedTypeEx.String_as_OT.lt_trans;
    by apply OrderedTypeEx.String_as_OT.cmp_lt.
Qed.

#[local] Instance event_lt_trans : Transitive (@event_lt Payload Meta).
Proof.
  intros a b c [Hab | [Hab Sab]] [Hbc | [Hbc Sbc]]; unfold event_lt.
  - left. lia.
  - left. lia.
  - left. lia.
  - right. split; [lia|]. by eapply string_lt_trans.
Qed.

(** The comparator of [insertEvents] against the order of I1. *)
Lemma compareEvents_le a b :
  (compareEvents a b ≤ 0)%Z →
  event_lt a b ∨ (timestamp a = timestamp b ∧ id a = id b).
Proof.
  unfold compareEvents, localeCompare, event_lt. case_decide as Hts.
  - intros. left. left. lia.
  - destruct (String.compare (id a) (id b)) eqn:Hc; intros Hle.
    + right. split; [done|]. by apply String.compare_eq_iff.
    + left. by right.
    + lia.
Qed.

Lemma compareEvents_gt a b : (0 < compareEvents a b)%Z → event_lt b a.
Proof.
  unfold compareEvents, localeCompare, event_lt. case_decide as Hts.
  - intros. left. lia.
  - rewrite (String.compare_antisym (id b) (id a)).
    destruct (String.compare (id a) (id b)); simpl; intros; try lia.
    by right.
Qed.

(** Merging two logs that are strictly sorted and share no id gives a
    strictly sorted log. *)
Lemma mergeSorted_sorted l r :
  StronglySorted event_lt l → StronglySorted event_lt r →
  (∀ a b, a ∈ l → b ∈ r → id a ≠ id b) →
  StronglySorted event_lt (mergeSorted l r compareEvents).
Proof.
  revert r. induction l as [|x l IHl]; intros r Hl Hr Hids.
  - by rewrite mergeSorted_nil_l.
  - induction r as [|y r IHr].
    + by rewrite mergeSorted_nil_r.
    + rewrite mergeSorted_cons.
      apply StronglySorted_cons in Hl as Hl'. destruct Hl' as [Hxl Hl'].
      apply StronglySorted_cons in Hr as Hr'. destruct Hr' as [Hyr Hr'].
      destruct (Z.leb_spec (compareEvents x y) 0) as [Hle | Hgt].
      * assert (event_lt x y) as Hxy.
        { destruct (compareEvents_le x y Hle) as [? | [_ Heq]]; [done|].
          exfalso. eapply (Hids x y); [left | left | done]. }
        apply StronglySorted_cons. split.
        -- rewrite mergeSorted_perm. apply Forall_app. split; [done|].
           constructor; [done|]. eapply Forall_impl; [done|].
           intros. by etrans.
        -- apply IHl; [done..|].
           intros a' b' Ha' Hb'. apply Hids; [by right | done].
      * apply compareEvents_gt in Hgt.
        apply StronglySorted_cons. split.
        -- rewrite mergeSorted_perm. apply Forall_app. split; [|done].
           constructor; [done|]. eapply Forall_impl; [done|].
           intros. by etrans.
        -- apply IHr; [done|].
           intros a' b' Ha' Hb'. apply Hids; [done | by right].
Qed.

(** [insertEvents] keeps I1 when the batch is sorted, its ids are new, and
    every event that stays below the rewind point sorts before the first
    event of the batch.  The last condition is what the anchor, computed
    from timestamps alone, does not ensure: a snapshot may cover an event
    that ties with the first new event on the timestamp and has a larger
    id. *)
Lemma insertEvents_keeps_order first rest e res e' :
  log_ordered (events e) → log_ordered (first :: rest) →
  (∀ a b, a ∈ events e → b ∈ first :: rest → id a ≠ id b) →
  Forall (λ y, event_lt y first)
    (take (eventIndex (rewind_point (insert_index first (events e)) e))
       (events e)) →
  insertEvents (first :: rest) e = (res, e') →
  log_ordered (events e').
Proof.
  intros [Hlog Hlogids] [Hnew Hnewids] Hfresh Hbelow.
  rewrite insertEvents_run. cbv zeta. rewrite replay_run.
  set (k := eventIndex (rewind_point (insert_index first (events e)) e)) in *.
  set (merged := mergeSorted (drop k (events e)) (first :: rest) compareEvents).
  assert (events e' = take k (events e) ++ merged → log_ordered (events e'))
    as Hgoal.
  { intros ->. rewrite <- (take_drop k (events e)) in Hlog.
    apply StronglySorted_app in Hlog as (Hcross & Htake & Hdrop).
    split.
    - apply StronglySorted_app. split_and!; [|done|].
      + intros a b Ha. unfold merged. rewrite mergeSorted_perm.
        intros [Hb | Hb]%elem_of_app; [by apply Hcross|].
        assert (event_lt a first) as Haf by by eapply Forall_forall in Hbelow.
        apply elem_of_cons in Hb as [-> | Hb]; [done|].
        etrans; [done|]. apply StronglySorted_cons in Hnew as [Hfirst _].
        by eapply Forall_forall in Hfirst.
      + apply mergeSorted_sorted; [done..|].
        intros a b Ha Hb. apply Hfresh; [|done].
        rewrite <- (take_drop k (events e)). apply elem_of_app. by right.
    - unfold merged. rewrite fmap_app, mergeSorted_perm, fmap_app, app_assoc.
      rewrite <- fmap_app, take_drop. apply NoDup_app. split_and!; [done| |done].
      intros i Hi Hi'. apply list_elem_of_fmap in Hi as (a & -> & Ha).
      apply list_elem_of_fmap in Hi' as (b & Hab & Hb). by eapply Hfresh. }
  destruct (reduce _ _ _) as [[[]|x] st]; intros [= <- <-]; by apply Hgoal.
Qed.

(** With no snapshot the rewind point is the start of the log and the
    condition is empty. *)
Lemma insertEvents_keeps_order_no_snapshot first rest e res e' :
  snapshots e = [] →
  log_ordered (events e) → log_ordered (first :: rest) →
  (∀ a b, a ∈ events e → b ∈ first :: rest → id a ≠ id b) →
  insertEvents (first :: rest) e = (res, e') →
  log_ordered (events e').
Proof.
  intros Hnone Hlog Hnew Hfresh. apply insertEvents_keeps_order; try done.
  unfold rewind_point, latestSnapshot. simpl. rewrite Hnone. simpl.
  constructor.
Qed.

End Ordering.

(** * Properties of the host *)

Section HostFacts.
Context {Payload Meta State : Type}.

#[local] Abbreviation Event := (BaseEvent Payload Meta).
#[local] Abbreviation Host := (HostEventSource Payload Meta State).

Implicit Types (h : Host) (ev : Event).

(** The pipeline [filter].[map].[filter] of the [requestHistory] handler
    computes the reply the spec describes. *)
Lemma history_pipeline (f : Payload → string → option Payload)
    clientId since (log : list Event) :
  omap (λ e : option Event, e)
    (map (λ e : Event,
            match f (payload e) clientId with
            | Some filtered =>
                Some {| id := id e; timestamp := timestamp e;
                        source := source e; context := context e;
                        payload := filtered |}
            | None => None
            end)
       (filter (λ e : Event, (since < timestamp e)%Z) log))
  = history_since f clientId since log.
Proof.
  unfold history_since, history_entry.
  induction log as [|ev log IH]; [done|].
  rewrite filter_cons. csimpl. case_decide; csimpl; [|done].
  rewrite IH. by destruct (f (payload ev) clientId).
Qed.

Lemma onMessage_requestHistory clientId p since now h :
  onMessage clientId p (msg_requestHistory since) now h
  = (Normal tt,
     set_posted
       (posted h ++
          [(p, msg_eventHistory
                 (history_since (filterForClient h) clientId since
                    (events (base h))))]) h).
Proof.
  unfold onMessage, postMessage. js_unfold. by rewrite history_pipeline.
Qed.

(** The reply lists log events in log order, with only the payload
    changed. *)
Lemma history_since_sublist (f : Payload → string → option Payload)
    clientId since (log : list Event) :
  let envelope := λ e : Event, (id e, timestamp e, source e, context e) in
  map envelope (history_since f clientId since log) `sublist_of` map envelope log.
Proof.
  intros envelope. unfold history_since, history_entry.
  induction log as [|ev log IH]; [done|]. csimpl.
  case_decide; [destruct (f (payload ev) clientId)|]; csimpl;
    by constructor.
Qed.

Lemma elem_of_history_since (f : Payload → string → option Payload)
    clientId since (log : list Event) (sent : Event) :
  sent ∈ history_since f clientId since log ↔
  ∃ ev filtered,
    ev ∈ log ∧ (since < timestamp ev)%Z
    ∧ f (payload ev) clientId = Some filtered
    ∧ sent = {| id := id ev; timestamp := timestamp ev; source := source ev;
                context := context ev; payload := filtered |}.
Proof.
  unfold history_since, history_entry. rewrite list_elem_of_omap. split.
  - intros (ev & Hev & Hsent). exists ev. case_decide; [|done].
    destruct (f (payload ev) clientId) as [filtered|]; [|done].
    exists filtered. by injection Hsent as <-.
  - intros (ev & filtered & Hev & Hts & Hf & ->). exists ev.
    split; [done|]. by rewrite decide_True, Hf.
Qed.

(** [addClient] on a port that has no listener yet leaves exactly one
    listener on it, for that client. *)
Lemma addClient_registers clientId p h :
  filter (λ l, listener_port l = p) (port_listeners h) = [] →
  ∃ h1 r, addClient clientId p h = (Normal tt, h1)
          ∧ filter (λ l, listener_port l = p) (port_listeners h1)
            = [{| listener_ref := r; listener_port := p;
                  listener_clientId := clientId |}]
          ∧ events (base h1) = events (base h)
          ∧ filterForClient h1 = filterForClient h.
Proof.
  intros Hnone. eexists _, _. unfold addClient, super. js_unfold. simpl.
  split; [done|]. simpl.
  rewrite filter_app, Hnone, filter_cons_True by done. done.
Qed.

(** An accepted proposal is stamped and dispatched; nothing else happens:
    the past-id set and the ports are left as they were. *)
Lemma receiveFromClient_accepted proposed clientId now h st :
  id proposed ∉ pastEventIds h →
  validate h proposed clientId = true →
  let authoritative :=
    {| id := id proposed; timestamp := now;
       source := {| clientId := clientId |};
       context := context proposed; payload := payload proposed |} in
  applyEvent (base h) (state (base h)) authoritative = Normal st →
  ∃ e', receiveFromClient proposed clientId now h = (Normal tt, set_base e' h)
        ∧ events e' = events (base h) ++ [authoritative]
        ∧ state e' = st.
Proof.
  intros Hid Hval authoritative Hap.
  unfold receiveFromClient, validateClientEvent, super, dispatchEvent.
  js_unfold. rewrite bool_decide_eq_false_2 by done. rewrite Hval. simpl.
  fold authoritative. rewrite dispatch_run, Hap.
  eexists. split; [done|]. unfold auto_snapshot. by case_match.
Qed.

(** ** The engine of the host *)

Lemma super_ok {A} (m : JS (EventSource Payload Meta State) A) h (a : A) h' :
  (∀ e e', engine_ok e → m e = (Normal a, e') → engine_ok e') →
  engine_ok (base h) → super m h = (Normal a, h') → engine_ok (base h').
Proof.
  intros Hm Hok. unfold super.
  destruct (m (base h)) as [c e'] eqn:Hrun. intros [= -> <-]. simpl. eauto.
Qed.

Lemma broadcast_base truthy ev h res h' :
  broadcast truthy ev h = (res, h') → base h' = base h.
Proof.
  unfold broadcast. js_unfold.
  generalize (clients h) as entries. intros entries. revert h.
  induction entries as [|[c client] entries IH]; intros h; simpl.
  - by intros [= _ <-].
  - js_unfold. unfold postMessage. js_unfold.
    destruct (filterForClient h (payload ev) c) as [filtered|];
      [destruct (truthy filtered)|]; intros Hrun; by apply IH in Hrun.
Qed.

Lemma receiveFromClient_ok proposed clientId now h h' :
  engine_ok (base h) →
  receiveFromClient proposed clientId now h = (Normal tt, h') →
  engine_ok (base h').
Proof.
  intros Hok.
  unfold receiveFromClient, validateClientEvent, sendRejectionToClient, warn,
    postMessage, super, dispatchEvent.
  js_unfold. case_bool_decide; simpl.
  - destruct (list_find _ (clients h)) as [[? [? client]]|];
      intros [= <-]; revert Hok; by apply engine_ok_ext.
  - destruct (validate h proposed clientId); simpl.
    + destruct (dispatch _ (base h)) as [[[]|x] e'] eqn:Hd; [|done].
      intros [= <-]. simpl. by eapply engine_ok_dispatched.
    + destruct (list_find _ (clients h)) as [[? [? client]]|];
        intros [= <-]; revert Hok; by apply engine_ok_ext.
Qed.

Lemma onMessage_ok clientId p data now h h' :
  engine_ok (base h) → onMessage clientId p data now h = (Normal tt, h') →
  engine_ok (base h').
Proof.
  intros Hok. destruct data.
  - by apply receiveFromClient_ok.
  - by intros [= <-].
  - rewrite onMessage_requestHistory. by intros [= <-].
  - by intros [= <-].
Qed.

(** Every operation of the host keeps I2 and I3 on its engine. *)
Lemma engine_ok_host_perform truthy o h h' :
  engine_ok (base h) → host_perform truthy o h = (Normal tt, h') →
  engine_ok (base h').
Proof.
  intros Hok. destruct o; simpl.
  - unfold host_dispatch, super, dispatchEvent. js_unfold. simpl.
    destruct (dispatch _ (base h)) as [[[]|x] e'] eqn:Hd; [|done].
    intros Hb. apply broadcast_base in Hb as ->. simpl.
    by eapply engine_ok_dispatched.
  - unfold addClient, super. js_unfold. simpl. intros [= <-]. simpl.
    revert Hok. by apply engine_ok_ext.
  - unfold removeClient. js_unfold.
    destruct (list_find _ (clients h)) as [[? [? client]]|]; by intros [= <-].
  - unfold port_message. js_unfold.
    generalize (filter (λ l, listener_port l = p) (port_listeners h)).
    intros ls. revert h Hok. induction ls as [|l ls IH]; intros h Hok; simpl.
    + by intros [= <-].
    + js_unfold.
      destruct (onMessage _ p data now h) as [[[]|x] h1] eqn:Hm; [|done].
      apply IH. by eapply onMessage_ok.
  - unfold host_drop. js_unfold. destruct (last _) as [ev|]; [|by intros [= <-]].
    apply super_ok; [|done]. intros e e'. apply engine_ok_removed.
  - js_unfold. destruct (super (subscribe cb) h) as [[r|x] h1] eqn:Hs; [|done].
    intros [= <-]. revert Hs. apply super_ok; [|done].
    intros e e'. apply engine_ok_subscribed.
Qed.

Lemma engine_ok_host_run truthy initial apply validate filter h0 ops h :
  new_HostEventSource initial apply validate filter = Normal h0 →
  for_of ops (host_perform truthy) h0 = (Normal tt, h) →
  engine_ok (base h).
Proof.
  intros Hnew.
  assert (engine_ok (base h0)) as Hok.
  { unfold new_HostEventSource in Hnew.
    destruct (new_EventSource initial apply None) as [e0|x] eqn:He; [|done].
    injection Hnew as <-. by eapply engine_ok_fresh. }
  clear Hnew. revert h0 Hok.
  induction ops as [|o ops IH]; intros h0 Hok; simpl.
  - by intros [= <-].
  - js_unfold.
    destruct (host_perform truthy o h0) as [[[]|x] h1] eqn:Hp; [|done].
    apply IH. by eapply engine_ok_host_perform.
Qed.

(** C10, as amended: on a host reached from a fresh one by operations
    ([dispatch], [addClient], [removeClient], messages from the ports,
    [drop], [subscribe]) every one of which returned, a message counting as
    returned when the listeners of the host did, when the log is not empty
    and no other event in it carries the id of the newest event, [drop()]
    removes exactly the newest event, rebuilds the state as the replay of
    the events that remain and notifies once; the past-id set is not
    touched.  On an empty log [drop()] changes nothing and notifies
    nobody. *)
Theorem host_drop_newest truthy initial apply validate filter h0 ops h :
  new_HostEventSource initial apply validate filter = Normal h0 →
  for_of ops (host_perform truthy) h0 = (Normal tt, h) →
  (events (base h) = [] → host_drop h = (Normal tt, h))
  ∧ (∀ rest ev, events (base h) = rest ++ [ev] → id ev ∉ map id rest →
       ∃ h', host_drop h = (Normal tt, h')
             ∧ events (base h') = rest
             ∧ reduce (applyEvent (base h)) (initialState (base h)) rest
               = (Normal tt, state (base h'))
             ∧ pastEventIds h' = pastEventIds h
             ∧ delivered (base h')
               = delivered (base h)
                 ++ map (λ s, (sub_ref s, state (base h'))) (subscribers (base h))).
Proof.
  intros Hnew Hrun.
  pose proof (engine_ok_host_run _ _ _ _ _ _ _ _ Hnew Hrun) as Hok. split.
  - intros Hnil. unfold host_drop. js_unfold. by rewrite Hnil.
  - intros rest ev Hev Hfresh.
    destruct (removeEvent_newest rest ev (base h) Hok Hev Hfresh)
      as (st & Hrest & Hrm & Hlog).
    eexists. unfold host_drop, super. js_unfold.
    rewrite Hev, last_snoc, Hrm. split; [done|]. simpl.
    by split_and!.
Qed.

End HostFacts.

(** * Scenarios on the counter *)

Import Counter.

(** C1, as the spec states it, fails: when [faultyApplyEvent] throws on a
    [SUBTRACT] event, [dispatch] has already appended the event to the log. *)
Lemma dispatch_failure_not_atomic :
  ¬ atomic_failure (dispatch sub_event : JS Counter.Engine unit).
Proof.
  intros Hatomic.
  destruct (Hatomic (fresh faultyApplyEvent 100)
              (Error "Faulty apply event")
              (set_events [sub_event] (fresh faultyApplyEvent 100)) eq_refl)
    as (Hlog & _). done.
Qed.

Lemma reducer_exception_propagates_witness :
  let e := fresh faultyApplyEvent 100 in
  let e1 := exec (dispatch sub_event) (exec (dispatch add_event) e) in
  let x := Error "Faulty apply event" in
  (∃ e', dispatch sub_event e = (Throw x, e')
         ∧ events e' = [sub_event] ∧ state e' = 0%Z
         ∧ snapshots e' = [] ∧ delivered e' = [])
  ∧ (∃ e', replay [add_event; sub_event; add_event] e = (Throw x, e')
           ∧ events e' = [] ∧ state e' = 1%Z
           ∧ snapshots e' = [] ∧ delivered e' = [])
  ∧ (∃ e', insertEvents [sub_event] e = (Throw x, e')
           ∧ events e' = [sub_event] ∧ state e' = 0%Z
           ∧ snapshots e' = [] ∧ delivered e' = [])
  ∧ (∃ e', removeEvent add_event e1 = (Throw x, e')
           ∧ events e' = [sub_event] ∧ state e' = 0%Z
           ∧ snapshots e' = [] ∧ delivered e' = []).
Proof.
  intros e e1 x.
  destruct (reducer_exception_propagates e x) as (Hd & Hr & Hi & _).
  destruct (reducer_exception_propagates e1 x) as (_ & _ & _ & Hrm).
  split_and!.
  - apply (Hd sub_event). reflexivity.
  - apply (Hr [add_event; sub_event; add_event] 1%Z). reflexivity.
  - apply (Hi sub_event [] 0%Z). reflexivity.
  - apply (Hrm add_event 0 add_event 0%Z); reflexivity.
Defined.

(** C3, as the spec states it, fails in two ways.  [replay] folds the
    events into the state and leaves the log alone.  And an operation that
    returns does not repair what an earlier one that threw has left: with
    [faultyApplyEvent], the failed [dispatch] of a [SUBTRACT] event leaves
    the event in the log; the [dispatch] of an [ADD] event then returns,
    [getState] is 1, and the fold over the log throws. *)
Lemma state_is_replay_fails :
  let e0 := fresh faultyApplyEvent 100 in
  let e1 := exec (dispatch sub_event) e0 in
  let e2 := exec (dispatch add_event) e1 in
  ¬ @state_is_replay_after Action unit Z (λ _, true)
  ∧ new_EventSource 0%Z faultyApplyEvent None = Normal e0
  ∧ dispatch sub_event e0 = (Throw (Error "Faulty apply event"), e1)
  ∧ dispatch add_event e1 = (Normal tt, e2)
  ∧ getState e2 = (Normal 1%Z, e2)
  ∧ events e2 = [sub_event; add_event]
  ∧ reduce (applyEvent e2) (initialState e2) (events e2)
    = (Throw (Error "Faulty apply event"), 0%Z).
Proof.
  intros e0 e1 e2. split; [|by split_and!; vm_compute].
  intros Hclaim.
  destruct (Hclaim 0%Z applyEvent_test None (fresh applyEvent_test 100)
              [op_replay [add_event]]
              (exec (replay [add_event]) (fresh applyEvent_test 100))
              eq_refl ltac:(by repeat constructor) eq_refl)
    as (st & [= <-] & Hred).
  done.
Qed.

Lemma state_is_replay_after_operations_witness :
  let e := exec (for_of [op_dispatch tie_b; op_createSnapshot;
                         op_insertEvents [tie_a]; op_removeEvent tie_b;
                         op_subscribe good_listener; op_dispatch sub_event]
                   perform) (fresh applyEvent_test 100) in
  ∃ st, getState e = (Normal st, e)
        ∧ reduce (applyEvent e) (initialState e) (events e) = (Normal tt, st).
Proof.
  intros e.
  apply (state_is_replay_after_operations 0%Z applyEvent_test None
           (fresh applyEvent_test 100)
           [op_dispatch tie_b; op_createSnapshot; op_insertEvents [tie_a];
            op_removeEvent tie_b; op_subscribe good_listener;
            op_dispatch sub_event]).
  - reflexivity.
  - repeat constructor.
  - vm_compute. reflexivity.
Defined.

(** C2 fails on the code.  The log holds ["b"] at timestamp 5 and a snapshot
    covers it; [insertEvents] receives ["a"] at the same timestamp.  The
    anchor looks at timestamps only, so the snapshot is kept, the tail that
    is merged with the batch is empty, and ["a"] lands behind ["b"]. *)
Theorem insertEvents_tie_under_snapshot :
  let e0 := fresh applyEvent_test 100 in
  let e1 := exec (dispatch tie_b) e0 in
  let e2 := exec createSnapshot e1 in
  let e3 := exec (insertEvents [tie_a]) e2 in
  new_EventSource 0%Z applyEvent_test None = Normal e0
  ∧ dispatch tie_b e0 = (Normal tt, e1)
  ∧ createSnapshot e1 = (Normal 0, e2)
  ∧ insertEvents [tie_a] e2 = (Normal tt, e3)
  ∧ log_ordered (events e2) ∧ log_ordered [tie_a]
  ∧ (id tie_a ∉ map id (events e2))
  ∧ map (λ s, (snap_state s, eventIndex s)) (snapshots e3) = [(0%Z, 1)]
  ∧ events e3 = [tie_b; tie_a]
  ∧ ¬ log_ordered (events e3).
Proof.
  intros e0 e1 e2 e3. split_and!; try reflexivity.
  - split; [repeat constructor | apply NoDup_singleton].
  - split; [repeat constructor | apply NoDup_singleton].
  - change (map id (events e2)) with ["b"].
    apply not_elem_of_cons. split; [done | apply not_elem_of_nil].
  - change (events e3) with [tie_b; tie_a]. intros [Hsorted _].
    apply StronglySorted_cons in Hsorted as [Hlt _].
    apply Forall_inv in Hlt as [Hlt | [_ Hlt]]; [vm_compute in Hlt|]; done.
Qed.

(** The same with the auto-snapshot of an engine of interval 1 in place of
    the explicit [createSnapshot]. *)
Example insertEvents_tie_under_auto_snapshot :
  let e1 := exec (dispatch tie_b) (fresh applyEvent_test 1) in
  map eventIndex (snapshots e1) = [1]
  ∧ events (exec (insertEvents [tie_a]) e1) = [tie_b; tie_a].
Proof. split; reflexivity. Qed.

(** C6 fails on the code, by the defect of C2.  With [pre = [b]] (multiply
    by 2) and [add = [a]] (add 10) tied on the timestamp, [merge(pre, add)]
    is [[a; b]] and dispatching it gives 20; dispatching [pre] into an engine
    of interval 1 and inserting [add] leaves the log [[b; a]] and the state
    10. *)
Theorem insertion_equivalence_fails :
  let e0 := fresh applyEvent_test 1 in
  let pre := [tie_b] in
  let add := [tie_a] in
  let direct := exec (for_of (mergeSorted pre add compareEvents) dispatch) e0 in
  let inserted := exec (insertEvents add) (exec (for_of pre dispatch) e0) in
  new_EventSource 0%Z applyEvent_test (Some 1%Z) = Normal e0
  ∧ log_ordered pre ∧ log_ordered add
  ∧ mergeSorted pre add compareEvents = [tie_a; tie_b]
  ∧ log_ordered (mergeSorted pre add compareEvents)
  ∧ for_of (mergeSorted pre add compareEvents) dispatch e0 = (Normal tt, direct)
  ∧ for_of pre dispatch e0 = (Normal tt, exec (for_of pre dispatch) e0)
  ∧ insertEvents add (exec (for_of pre dispatch) e0) = (Normal tt, inserted)
  ∧ events direct = [tie_a; tie_b] ∧ getState direct = (Normal 20%Z, direct)
  ∧ events inserted = [tie_b; tie_a] ∧ getState inserted = (Normal 10%Z, inserted).
Proof.
  intros e0 pre add direct inserted.
  split_and!; try (vm_compute; reflexivity).
  - split; [repeat constructor | apply NoDup_singleton].
  - split; [repeat constructor | apply NoDup_singleton].
  - change (mergeSorted pre add compareEvents) with [tie_a; tie_b].
    split.
    + apply StronglySorted_cons. split; [|repeat constructor].
      apply Forall_cons. split; [|constructor]. right. split; reflexivity.
    + change (map id [tie_a; tie_b]) with ["a"; "b"].
      apply NoDup_cons. split; [|apply NoDup_singleton].
      apply not_elem_of_cons. split; [done | apply not_elem_of_nil].
Qed.

(** The same on an engine with the default interval: after 100 dispatches
    the auto-snapshot covers the whole log, and an insertion that ties with
    the 100th event on the timestamp is appended behind it. *)
Example insertion_equivalence_fails_default :
  let e0 := fresh applyEvent_test 100 in
  let pre := ticks 99 ++ [createEvent (MULTIPLY 2) 100 (bs 100)] in
  let add := [createEvent (ADD 10) 100 "a"] in
  state (exec (for_of (mergeSorted pre add compareEvents) dispatch) e0) = 218%Z
  ∧ state (exec (insertEvents add) (exec (for_of pre dispatch) e0)) = 208%Z.
Proof. split; by vm_compute. Qed.

(** C7 at the scenario of the spec: 100 dispatches of [ADD 1] into an engine
    with the default interval. *)
Lemma auto_snapshot_policy_witness :
  let e0 := fresh applyEvent_test 100 in
  let e := exec (for_of (ticks 99) dispatch) e0 in
  let ev := createEvent (ADD 1) 100 (bs 100) in
  let e' := exec (dispatch ev) e in
  ∃ x, snapshots e' = [x] ∧ eventIndex x = 100
       ∧ reduce applyEvent_test 0%Z (ticks 99 ++ [ev]) = (Normal tt, snap_state x).
Proof.
  intros e0 e ev e'.
  assert (new_EventSource 0%Z applyEvent_test None = Normal e0) as Hnew
    by reflexivity.
  assert (for_of (ticks 99) dispatch e0 = (Normal tt, e)) as Hrun
    by (vm_compute; reflexivity).
  assert (dispatch ev e = (Normal tt, e')) as Hd by (vm_compute; reflexivity).
  destruct (auto_snapshot_policy 0%Z applyEvent_test None e0 (ticks 99) ev e e'
              Hnew Hrun Hd) as (_ & _ & _ & _ & _ & _ & Hhundred).
  apply Hhundred; reflexivity.
Defined.

(** C4 fails on the code.  [receiveFromClient] dispatches an accepted
    proposal without adding its id to [pastEventIds] (the host's own
    [dispatch] does add it), so the retry of the proposal is accepted again
    and the log holds the id twice. *)
Theorem accepted_proposal_not_remembered :
  new_HostEventSource 0%Z applyEvent_test accept_all no_filter = Normal fresh_host
  ∧ receiveFromClient proposal_x "c1" 1000 host_c1_c2 = (Normal tt, host_x)
  ∧ events (base host_x)
    = [{| id := "x"; timestamp := 1000; source := {| clientId := "c1" |};
          context := None; payload := ADD 5 |}]
  ∧ (id proposal_x ∉ pastEventIds host_x)
  ∧ receiveFromClient proposal_x "c1" 2000 host_x = (Normal tt, host_xx)
  ∧ map id (events (base host_xx)) = ["x"; "x"]
  ∧ posted host_xx = []
  ∧ ("y" ∈ pastEventIds host_xy).
Proof.
  split_and!; try reflexivity.
  change (pastEventIds host_x) with (∅ : gset string).
  apply not_elem_of_empty.
Qed.

(** C5 fails on the code.  [receiveFromClient] stamps the accepted proposal
    and appends it to the log, but never calls [broadcast]: no client is
    sent the event, though [filterForClient] returns it for both.  The
    host's own [dispatch] does broadcast. *)
Theorem accepted_proposal_not_broadcast :
  new_HostEventSource 0%Z applyEvent_test accept_all no_filter = Normal fresh_host
  ∧ map (λ c, (c.1, port c.2)) (clients host_c1_c2) = [("c1", 7); ("c2", 8)]
  ∧ filterForClient host_c1_c2 (payload proposal_x) "c1" = Some (ADD 5)
  ∧ filterForClient host_c1_c2 (payload proposal_x) "c2" = Some (ADD 5)
  ∧ receiveFromClient proposal_x "c1" 1000 host_c1_c2 = (Normal tt, host_x)
  ∧ events (base host_x)
    = [{| id := "x"; timestamp := 1000; source := {| clientId := "c1" |};
          context := None; payload := ADD 5 |}]
  ∧ posted host_x = []
  ∧ map fst (posted host_xy) = [7; 8].
Proof. split_and!; reflexivity. Qed.

(** C9 on an engine with a throwing and a returning listener. *)
Lemma listener_isolation_witness :
  let e := exec (subscribe good_listener)
             (exec (subscribe bad_listener) (fresh applyEvent_test 100)) in
  let x := Error "Subscriber error" in
  (∃ e', notify e = (Normal tt, e')
         ∧ delivered e' = delivered e ++ [(0, 0%Z); (1, 0%Z)]
         ∧ console_error x ∈ console e'
         ∧ events e' = events e ∧ state e' = state e)
  ∧ (∃ e', dispatch add_event e = (Normal tt, e')
           ∧ delivered e' = delivered e ++ [(0, 1%Z); (1, 1%Z)]
           ∧ console_error x ∈ console e'
           ∧ events e' = events e ++ [add_event] ∧ state e' = 1%Z).
Proof.
  intros e x.
  destruct (listener_isolation e {| sub_ref := 0; callback := bad_listener |} x)
    as [Hnotify Hdispatch].
  - left.
  - split.
    + apply Hnotify. reflexivity.
    + apply (Hdispatch add_event 1%Z); reflexivity.
Defined.

(** C10, as the claim states it, fails in two ways.  After the retry of C4
    was accepted the log holds ["x"] twice, and [drop()] removes both.  And
    a [drop()] that threw leaves a host on which the next [drop()] fails
    although the ids are distinct: over the counter that refuses to go
    below zero, with the log ["x"] (add 5), ["y"] (subtract 3), ["x"], the
    first [drop()] removes both ["x"] and throws in the replay of ["y"]; a
    host event ["z"] is then dispatched and returns; [drop()] now removes
    ["z"], throws in the replay again, notifies nobody, and the state is
    not the replay of what remains. *)
Lemma drop_not_exactly_newest :
  (for_of [hop_addClient "c1" 7; hop_addClient "c2" 8;
           hop_message 7 (msg_event proposal_x) 1000;
           hop_message 7 (msg_event proposal_x) 2000]
     (host_perform truthy) fresh_host = (Normal tt, host_xx)
   ∧ map id (events (base host_xx)) = ["x"; "x"]
   ∧ events (base (exec host_drop host_xx)) = []
   ∧ ¬ drop_removes_newest host_xx)
  ∧ (new_HostEventSource 0%Z Ledger.strictApplyEvent accept_all no_filter
     = Normal Ledger.strict_host
     ∧ for_of [hop_addClient "c1" 7;
               hop_message 7 (msg_event proposal_x) 1000;
               hop_dispatch (SUBTRACT 3) "y" 1500;
               hop_message 7 (msg_event proposal_x) 2000]
         (host_perform truthy) Ledger.strict_host
       = (Normal tt, Ledger.host_xyx)
     ∧ map id (events (base Ledger.host_xyx)) = ["x"; "y"; "x"]
     ∧ host_drop Ledger.host_xyx
       = (Throw (Error "Insufficient count"), Ledger.host_dropped)
     ∧ host_dispatch truthy (ADD 1) "z" 3000 Ledger.host_dropped
       = (Normal tt, Ledger.host_yz)
     ∧ map id (events (base Ledger.host_yz)) = ["y"; "z"]
     ∧ (host_drop Ledger.host_yz).1 = Throw (Error "Insufficient count")
     ∧ map id (events (base (exec host_drop Ledger.host_yz))) = ["y"]
     ∧ state (base (exec host_drop Ledger.host_yz)) = 0%Z
     ∧ delivered (base (exec host_drop Ledger.host_yz))
       = delivered (base Ledger.host_yz)
     ∧ reduce (applyEvent (base Ledger.host_yz))
         (initialState (base Ledger.host_yz))
         (events (base (exec host_drop Ledger.host_yz)))
       = (Throw (Error "Insufficient count"), 0%Z)).
Proof.
  split.
  - split_and!; try (vm_compute; reflexivity).
    intros Hclaim.
    assert (host_drop host_xx = (Normal tt, exec host_drop host_xx)) as Hrun
      by (vm_compute; reflexivity).
    apply Hclaim in Hrun; [|by vm_compute].
    vm_compute in Hrun. done.
  - split_and!; vm_compute; reflexivity.
Qed.

Lemma host_drop_newest_witness :
  host_drop host_c1_c2 = (Normal tt, host_c1_c2)
  ∧ ∃ h', host_drop host_xy = (Normal tt, h')
          ∧ events (base h') = events (base host_x)
          ∧ reduce (applyEvent (base host_xy)) (initialState (base host_xy))
              (events (base host_x)) = (Normal tt, state (base h'))
          ∧ pastEventIds h' = pastEventIds host_xy
          ∧ delivered (base h')
            = delivered (base host_xy)
              ++ map (λ s, (sub_ref s, state (base h'))) (subscribers (base host_xy)).
Proof.
  assert (new_HostEventSource 0%Z applyEvent_test accept_all no_filter
          = Normal fresh_host) as Hnew by reflexivity.
  split.
  - apply (host_drop_newest truthy 0%Z applyEvent_test accept_all no_filter
             fresh_host [hop_addClient "c1" 7; hop_addClient "c2" 8]
             host_c1_c2 Hnew).
    + vm_compute. reflexivity.
    + reflexivity.
  - destruct (host_drop_newest truthy 0%Z applyEvent_test accept_all no_filter
                fresh_host
                [hop_addClient "c1" 7; hop_addClient "c2" 8;
                 hop_message 7 (msg_event proposal_x) 1000;
                 hop_dispatch (ADD 2) "y" 3000]
                host_xy Hnew) as [_ Hdrop].
    + vm_compute. reflexivity.
    + apply (Hdrop (events (base host_x))
               {| id := "y"; timestamp := 3000; source := {| clientId := "host" |};
                  context := None; payload := ADD 2 |}).
      * reflexivity.
      * change (map id (events (base host_x))) with ["x"].
        apply not_elem_of_cons. split; [done | apply not_elem_of_nil].
Defined.

(** * Further properties of the code *)

(** ** mergeSorted *)

(** X1: Under a comparator that is total and transitive, merging two sorted
    arrays gives a sorted array. *)
Theorem mergeSorted_sorted_by {T} (cmp : T → T → Z) (l r : list T) :
  (∀ a b, (0 < cmp a b)%Z → (cmp b a ≤ 0)%Z) →
  (∀ a b c, (cmp a b ≤ 0)%Z → (cmp b c ≤ 0)%Z → (cmp a c ≤ 0)%Z) →
  StronglySorted (λ a b, (cmp a b ≤ 0)%Z) l →
  StronglySorted (λ a b, (cmp a b ≤ 0)%Z) r →
  StronglySorted (λ a b, (cmp a b ≤ 0)%Z) (mergeSorted l r cmp).
Proof.
  intros Htotal Htrans. revert r.
  induction l as [|x l IHl]; intros r Hl Hr.
  - by rewrite mergeSorted_nil_l.
  - induction r as [|y r IHr].
    + by rewrite mergeSorted_nil_r.
    + rewrite mergeSorted_cons.
      apply StronglySorted_cons in Hl as Hl'. destruct Hl' as [Hxl Hl'].
      apply StronglySorted_cons in Hr as Hr'. destruct Hr' as [Hyr Hr'].
      destruct (Z.leb_spec (cmp x y) 0) as [Hle | Hgt].
      * apply StronglySorted_cons. split; [|by apply IHl].
        rewrite mergeSorted_perm. apply Forall_app. split; [done|].
        constructor; [done|]. eapply Forall_impl; [done|]. simpl. eauto.
      * apply Htotal in Hgt.
        apply StronglySorted_cons. split; [|by apply IHr].
        rewrite mergeSorted_perm. apply Forall_app. split; [|done].
        constructor; [done|]. eapply Forall_impl; [done|]. simpl. eauto.
Qed.

Lemma mergeSorted_sorted_by_witness :
  StronglySorted (λ a b, (a - b ≤ 0)%Z)
    (mergeSorted [1; 3; 5]%Z [2; 3; 4; 7]%Z Z.sub).
Proof.
  apply (mergeSorted_sorted_by Z.sub [1; 3; 5]%Z [2; 3; 4; 7]%Z).
  - intros a b. lia.
  - intros a b c. lia.
  - repeat (apply StronglySorted_cons; split;
      [repeat (apply Forall_cons; split; [lia|]); constructor|]).
    constructor.
  - repeat (apply StronglySorted_cons; split;
      [repeat (apply Forall_cons; split; [lia|]); constructor|]).
    constructor.
Defined.

(** X2: Whatever the comparator, [mergeSorted] returns every element of both
    inputs, each as often as it occurs, and keeps the order inside each
    input: both are subsequences of the result.  Where the comparator never
    puts a right element first, the result is the left array followed by
    the right one (on a tie, the left element goes first). *)
Theorem mergeSorted_stable {T} (cmp : T → T → Z) (l r : list T) :
  mergeSorted l r cmp ≡ₚ l ++ r
  ∧ length (mergeSorted l r cmp) = length l + length r
  ∧ l `sublist_of` mergeSorted l r cmp
  ∧ r `sublist_of` mergeSorted l r cmp
  ∧ ((∀ a b, a ∈ l → b ∈ r → (cmp a b ≤ 0)%Z) → mergeSorted l r cmp = l ++ r).
Proof.
  split; [apply mergeSorted_perm|].
  split; [by rewrite mergeSorted_perm, length_app|].
  split_and!.
  - revert r. induction l as [|x l IHl]; intros r; [apply sublist_nil_l|].
    induction r as [|y r IHr]; [by rewrite mergeSorted_nil_r|].
    rewrite mergeSorted_cons. case_match.
    + by apply sublist_skip.
    + by apply sublist_cons.
  - revert r. induction l as [|x l IHl]; intros r;
      [by rewrite mergeSorted_nil_l|].
    induction r as [|y r IHr]; [apply sublist_nil_l|].
    rewrite mergeSorted_cons. case_match.
    + by apply sublist_cons.
    + by apply sublist_skip.
  - revert r. induction l as [|x l IHl]; intros r Hle;
      [by rewrite mergeSorted_nil_l|].
    destruct r as [|y r]; [by rewrite mergeSorted_nil_r, app_nil_r|].
    rewrite mergeSorted_cons.
    destruct (Z.leb_spec (cmp x y) 0) as [_ | Hgt].
    + simpl. f_equal. apply IHl. intros a b Ha Hb. apply Hle; [by right | done].
    + specialize (Hle x y ltac:(left) ltac:(left)). lia.
Qed.

Lemma mergeSorted_stable_witness :
  mergeSorted [(1, "l1"); (1, "l2")]%Z [(1, "r1"); (2, "r2")]%Z
    (λ a b, a.1 - b.1)%Z
  = [(1, "l1"); (1, "l2"); (1, "r1"); (2, "r2")]%Z.
Proof.
  apply (mergeSorted_stable (λ a b : Z * string, a.1 - b.1)%Z
           [(1, "l1"); (1, "l2")]%Z [(1, "r1"); (2, "r2")]%Z).
  intros a b Ha Hb.
  repeat (apply elem_of_cons in Ha as [-> | Ha]);
    [| |by apply elem_of_nil in Ha];
    repeat (apply elem_of_cons in Hb as [-> | Hb]);
    try (by apply elem_of_nil in Hb); simpl; lia.
Defined.

(** ** The engine *)

Section EngineMore.
Context {Payload Meta State : Type}.

#[local] Abbreviation Event := (BaseEvent Payload Meta).
#[local] Abbreviation Engine := (EventSource Payload Meta State).

Implicit Types (e : Engine) (ev : Event) (evs : list Event) (st : State).

Lemma notified_events e : events (notified e) = events e.
Proof. done. Qed.

(** The log that [replay] leaves is the log it found, whether the reducer
    throws or not. *)
Lemma replay_events evs e : events (replay evs e).2 = events e.
Proof.
  rewrite replay_run. by destruct (reduce _ _ _) as [[[]|x] st].
Qed.

Lemma replay_snapshots evs e : snapshots (replay evs e).2 = snapshots e.
Proof.
  rewrite replay_run. by destruct (reduce _ _ _) as [[[]|x] st].
Qed.

Lemma removeEvent_removes_id_log ev e :
  events (removeEvent ev e).2 = filter (λ y : Event, id y ≠ id ev) (events e).
Proof.
  { rewrite removeEvent_run.
    destruct (list_find _ (events e)) as [[index x]|] eqn:Hfind.
    - cbv zeta. rewrite replay_events. unfold rewound. simpl.
      fold (rewind_point index e).
      pose proof (rewind_point_bound index e) as Hk.
      set (k := eventIndex (rewind_point index e)) in *.
      apply list_find_Some in Hfind as (_ & _ & Hbefore).
      assert (Forall (λ y : Event, id y ≠ id ev) (take k (events e))) as Htake.
      { apply Forall_lookup_2. intros j y [Hy Hj]%lookup_take_Some.
        apply (Hbefore j y Hy). lia. }
      rewrite <- (take_drop k (events e)) at 3.
      by rewrite filter_app, (filter_all _ _ Htake).
    - simpl. symmetry. apply filter_all.
      apply list_find_None in Hfind. done. }
Qed.

(** X3: [removeEvent] removes every event that carries the id and keeps the
    others in their order, also when the replay that follows throws; the id
    is gone from the log afterwards.  For an id that is not in the log it
    changes nothing and notifies nobody. *)
Theorem removeEvent_removes_id ev e :
  events (removeEvent ev e).2 = filter (λ y : Event, id y ≠ id ev) (events e)
  ∧ (id ev ∉ map id (events (removeEvent ev e).2))
  ∧ (id ev ∉ map id (events e) → removeEvent ev e = (Normal tt, e)).
Proof.
  pose proof (removeEvent_removes_id_log ev e) as Hlog.
  split_and!; [done| |].
  - rewrite Hlog. intros (y & Hid & Hy)%list_elem_of_fmap.
    apply list_elem_of_filter in Hy as [Hne _]. by apply Hne.
  - intros Hnot. rewrite removeEvent_run.
    destruct (list_find _ (events e)) as [[index x]|] eqn:Hfind; [|done].
    apply list_find_Some in Hfind as (Hx & Hid & _). exfalso. apply Hnot.
    rewrite <- Hid. apply list_elem_of_fmap. exists x. split; [done|].
    by eapply list_elem_of_lookup_2.
Qed.

(** X4: After every operation other than [replay], every snapshot holds
    the replay of the prefix of the log it covers, lies inside the log, and
    the snapshots are in ascending order of [eventIndex]. *)
Theorem snapshots_sound_after_operations
    (initial : State) apply interval e0 (ops : list Op) e :
  new_EventSource initial apply interval = Normal e0 →
  Forall (λ o, negb (is_replay o) = true) ops →
  for_of ops perform e0 = (Normal tt, e) →
  Forall (λ s, eventIndex s ≤ length (events e)
               ∧ reduce (applyEvent e) (initialState e)
                   (take (eventIndex s) (events e)) = (Normal tt, snap_state s))
    (snapshots e)
  ∧ StronglySorted (λ a b, eventIndex a ≤ eventIndex b) (snapshots e).
Proof.
  intros Hnew Hops Hrun.
  assert (engine_ok e) as [_ H3 H4]; [|done].
  apply (engine_ok_run ops e0 e); [|by eapply engine_ok_fresh|done].
  eapply Forall_impl; [done|]. by intros o ?%negb_true_iff.
Qed.

(** X5: [insertEvents] loses no event and invents none: the log afterwards is
    a rearrangement of the old log and the batch, also when the replay
    throws.  It only ever drops snapshots from the end.  An empty batch
    changes nothing; a batch that is integrated notifies each subscriber
    once, with the final state. *)
Theorem insertEvents_keeps_events evs e :
  events (insertEvents evs e).2 ≡ₚ events e ++ evs
  ∧ (∃ dropped, snapshots e = snapshots (insertEvents evs e).2 ++ dropped)
  ∧ (evs = [] → insertEvents evs e = (Normal tt, e))
  ∧ (evs ≠ [] → (insertEvents evs e).1 = Normal tt →
     delivered (insertEvents evs e).2
     = delivered e
       ++ map (λ s, (sub_ref s, state (insertEvents evs e).2)) (subscribers e)).
Proof.
  destruct evs as [|first rest].
  - split_and!; try done.
    + simpl. by rewrite app_nil_r.
    + exists []. simpl. by rewrite app_nil_r.
  - rewrite insertEvents_run. cbv zeta. split_and!.
    + rewrite replay_events. unfold rewound. simpl.
      rewrite mergeSorted_perm, app_assoc. by rewrite take_drop.
    + rewrite replay_snapshots. unfold rewound. simpl.
      apply drop_newer_prefix.
    + done.
    + intros _. rewrite replay_run.
      by destruct (reduce _ _ _) as [[[]|x] st].
Qed.


Lemma dispatch_events ev e : events (dispatch ev e).2 = events e ++ [ev].
Proof.
  rewrite dispatch_run. destruct (applyEvent e (state e) ev); [|done].
  unfold auto_snapshot. by case_match.
Qed.

Lemma Forall_sublist {A} (P : A → Prop) (l1 l2 : list A) :
  l1 `sublist_of` l2 → Forall P l2 → Forall P l1.
Proof.
  intros Hsub Hall. apply Forall_forall. intros x Hx.
  eapply Forall_forall in Hall; [done|]. by eapply elem_of_sublist.
Qed.

Lemma StronglySorted_sublist {A} (R : relation A) (l1 l2 : list A) :
  l1 `sublist_of` l2 → StronglySorted R l2 → StronglySorted R l1.
Proof.
  induction 1 as [|x l1 l2 Hsub IH|x l1 l2 Hsub IH]; [done|..].
  - intros [Hx Hl2]%StronglySorted_cons. apply StronglySorted_cons.
    split; [by eapply Forall_sublist | by apply IH].
  - intros [_ Hl2]%StronglySorted_cons. by apply IH.
Qed.

Lemma log_ordered_sublist (l1 l2 : list Event) :
  l1 `sublist_of` l2 → log_ordered l2 → log_ordered l1.
Proof.
  intros Hsub [Hsorted Hids]. split.
  - by eapply StronglySorted_sublist.
  - apply (sublist_NoDup (map id l1) (map id l2)); [done|].
    by apply (fmap_sublist id).
Qed.

(** X6: I1 is kept by a tail dispatch (the event sorts behind the whole log and
    its id is new) and by [removeEvent], also when the reducer throws. *)
Theorem dispatch_removeEvent_keep_order ev e :
  log_ordered (events e) →
  (Forall (λ y, event_lt y ev) (events e) → id ev ∉ map id (events e) →
   log_ordered (events (dispatch ev e).2))
  ∧ log_ordered (events (removeEvent ev e).2).
Proof.
  intros Hlog. split.
  - intros Htail Hfresh. rewrite dispatch_events. destruct Hlog as [Hsorted Hids].
    split.
    + apply StronglySorted_app. split_and!; [|done|repeat constructor].
      intros a b Ha ->%list_elem_of_singleton.
      by eapply Forall_forall in Htail.
    + rewrite fmap_app. apply NoDup_app. split_and!; [done| |apply NoDup_singleton].
      intros i Hi ->%list_elem_of_singleton. done.
  - rewrite removeEvent_removes_id_log.
    eapply log_ordered_sublist; [apply sublist_filter | done].
Qed.

(** The insertion anchor leaves every event that sorts after the first new
    event behind it. *)
Lemma before_insert_index first (log : list Event) j y :
  log !! j = Some y → j < insert_index first log →
  (timestamp y ≤ timestamp first)%Z.
Proof.
  unfold insert_index. intros Hy Hj.
  destruct (list_find _ log) as [[i x]|] eqn:Hfind.
  - apply list_find_Some in Hfind as (_ & _ & Hbefore).
    specialize (Hbefore j y Hy Hj). lia.
  - apply list_find_None in Hfind.
    eapply Forall_lookup_1 in Hfind; [|done]. simpl in Hfind. lia.
Qed.

Lemma mergeSorted_agree {T} (cmp cmp' : T → T → Z) (l r : list T) :
  (∀ a b, a ∈ l → b ∈ r → cmp a b = cmp' a b) →
  mergeSorted l r cmp = mergeSorted l r cmp'.
Proof.
  revert r. induction l as [|x l IHl]; intros r Hagree;
    [by rewrite !mergeSorted_nil_l|].
  induction r as [|y r IHr]; [by rewrite !mergeSorted_nil_r|].
  rewrite !mergeSorted_cons. rewrite <- (Hagree x y) by by left.
  case_match.
  - f_equal. apply IHl. intros a b Ha Hb. apply Hagree; [by right | done].
  - f_equal. apply IHr. intros a b Ha Hb. apply Hagree; [done | by right].
Qed.

(** X7: [insertEvents] keeps I1 when the batch is sorted, its ids are new,
    and no event of the log has the timestamp of an event of the batch.
    The comparison of ids is then never consulted: the log that is left is
    the one the merge gives with any comparison of ids in the place of
    [localeCompare]. *)
Theorem insertEvents_sorted_log first rest e :
  log_ordered (events e) → log_ordered (first :: rest) →
  (∀ a b, a ∈ events e → b ∈ first :: rest →
          id a ≠ id b ∧ timestamp a ≠ timestamp b) →
  log_ordered (events (insertEvents (first :: rest) e).2)
  ∧ ∀ compareIds,
      events (insertEvents (first :: rest) e).2
      = take (eventIndex (rewind_point (insert_index first (events e)) e))
          (events e)
        ++ mergeSorted
             (drop (eventIndex (rewind_point (insert_index first (events e)) e))
                (events e))
             (first :: rest) (compareEventsBy compareIds).
Proof.
  intros Hlog Hnew Hapart. split.
  - destruct (insertEvents (first :: rest) e) as [res e'] eqn:Hrun. simpl.
    eapply insertEvents_keeps_order; try done.
    + intros a b Ha Hb. by apply Hapart.
    + pose proof (rewind_point_bound (insert_index first (events e)) e) as Hk.
      apply Forall_lookup_2. intros j y [Hy Hj]%lookup_take_Some.
      pose proof (before_insert_index first (events e) j y Hy ltac:(lia))
        as Hts.
      destruct (Hapart y first) as [_ Hne];
        [by eapply list_elem_of_lookup_2 | by left |].
      left. lia.
  - intros compareIds. rewrite insertEvents_run. cbv zeta.
    rewrite replay_events.
    set (k := eventIndex (rewind_point (insert_index first (events e)) e)).
    change (events (rewound (insert_index first (events e))
                      (λ existing,
                         mergeSorted existing (first :: rest) compareEvents) e))
      with (take k (events e)
              ++ mergeSorted (drop k (events e)) (first :: rest) compareEvents).
    f_equal. apply mergeSorted_agree. intros a b Ha Hb.
    destruct (Hapart a b) as [_ Hne]; [|done|].
    { apply list_elem_of_lookup in Ha as [j Hj].
      rewrite lookup_drop in Hj. by eapply list_elem_of_lookup_2. }
    unfold compareEvents, compareEventsBy. by rewrite !decide_True.
Qed.

Lemma drop_newer_filter index (snaps : list (Snapshot State)) :
  StronglySorted (λ a b, eventIndex a ≤ eventIndex b) snaps →
  drop_newer index snaps = filter (λ s, eventIndex s ≤ index) snaps.
Proof.
  induction snaps as [|s snaps IH] using rev_ind; [done|].
  intros (Hcross & Hsnaps & _)%StronglySorted_app.
  rewrite drop_newer_snoc, filter_app, filter_cons, filter_nil.
  case_bool_decide as Hlt.
  - rewrite decide_False by lia. rewrite app_nil_r. by apply IH.
  - rewrite decide_True by lia. f_equal. symmetry. apply filter_all.
    apply Forall_forall. intros a Ha.
    specialize (Hcross a s Ha ltac:(left)). simpl in Hcross. lia.
Qed.

(** X8: The loop of [dropSnapshotsAfterEventIndex] ends, and on snapshots in
    ascending order it drops exactly those whose [eventIndex] exceeds the
    index. *)
Theorem dropSnapshotsAfterEventIndex_filter index e :
  StronglySorted (λ a b, eventIndex a ≤ eventIndex b) (snapshots e) →
  dropSnapshotsAfterEventIndex index e
  = (Normal tt,
     set_snapshots (filter (λ s, eventIndex s ≤ index) (snapshots e)) e).
Proof.
  intros Hasc. rewrite dropSnapshotsAfterEventIndex_run.
  by rewrite drop_newer_filter.
Qed.

Lemma auto_snapshot_frame e :
  events (auto_snapshot e) = events e ∧ state (auto_snapshot e) = state e
  ∧ applyEvent (auto_snapshot e) = applyEvent e
  ∧ initialState (auto_snapshot e) = initialState e
  ∧ subscribers (auto_snapshot e) = subscribers e
  ∧ delivered (auto_snapshot e) = delivered e.
Proof. unfold auto_snapshot. by case_match. Qed.

Lemma dispatch_all_run evs e st :
  reduce (applyEvent e) (state e) evs = (Normal tt, st) →
  ∃ e1, for_of evs dispatch e = (Normal tt, e1)
        ∧ events e1 = events e ++ evs ∧ state e1 = st.
Proof.
  revert e. induction evs as [|ev evs IH]; intros e; simpl.
  - intros [= <-]. exists e. by rewrite app_nil_r.
  - destruct (applyEvent e (state e) ev) as [st'|x] eqn:Hap; [|done].
    intros Hred. js_unfold. rewrite dispatch_run, Hap.
    set (e' := auto_snapshot _).
    destruct (auto_snapshot_frame
                (notified (set_state st' (set_events (events e ++ [ev]) e))))
      as (Hev & Hst & Happ & _).
    fold e' in Hev, Hst, Happ. simpl in Hev, Hst, Happ.
    destruct (IH e') as (e1 & Hrun & Hlog & Hstate).
    { by rewrite Happ, Hst. }
    exists e1. rewrite Hrun, Hlog, Hev, <- app_assoc. done.
Qed.

(** X9: When the reducer accepts a sequence of events, dispatching them one
    by one into a fresh engine returns, leaves them as the log, and reaches
    the state that [replay] of the sequence reaches; [replay] leaves the log
    empty. *)
Theorem dispatch_all_is_replay (initial : State) apply interval e0 evs st :
  new_EventSource initial apply interval = Normal e0 →
  reduce apply initial evs = (Normal tt, st) →
  ∃ e1 e2, for_of evs dispatch e0 = (Normal tt, e1)
           ∧ replay evs e0 = (Normal tt, e2)
           ∧ events e1 = evs ∧ getState e1 = (Normal st, e1)
           ∧ events e2 = [] ∧ getState e2 = (Normal st, e2).
Proof.
  intros Hnew Hred. unfold new_EventSource in Hnew.
  case_match; [done|]. injection Hnew as <-.
  set (e0 := {| snapshotInterval := default 100%Z interval;
                initialState := initial; applyEvent := apply; events := [];
                subscribers := []; state := initial; snapshots := [];
                next_ref := 0; delivered := []; console := [] |}).
  destruct (dispatch_all_run evs e0 st Hred) as (e1 & Hrun & Hlog & Hst).
  eexists e1, _. rewrite Hrun, replay_run. simpl. rewrite Hred.
  split_and!; try done. unfold getState, gets. by rewrite Hst.
Qed.

(** X10: [rebaseline] returns, empties the log and the snapshots, makes the
    given state the initial and the current one, and calls every subscriber
    once with it.  It re-establishes I2 and I3 whatever the engine was, and
    a second [rebaseline] to the same state changes none of these. *)
Theorem rebaseline_resets st e :
  ∃ e', rebaseline st e = (Normal tt, e')
        ∧ events e' = [] ∧ snapshots e' = []
        ∧ state e' = st ∧ initialState e' = st
        ∧ delivered e' = delivered e ++ map (λ s, (sub_ref s, st)) (subscribers e)
        ∧ engine_ok e'
        ∧ ∃ e'', rebaseline st e' = (Normal tt, e'')
                 ∧ events e'' = events e' ∧ snapshots e'' = snapshots e'
                 ∧ state e'' = state e' ∧ initialState e'' = initialState e'.
Proof.
  eexists. rewrite rebaseline_run. split; [done|].
  split_and!; try done.
  - by eapply engine_ok_rebaselined, rebaseline_run.
  - eexists. rewrite rebaseline_run. done.
Qed.


(** ** Identities of subscribers and snapshots *)

Lemma refs_ok_weaken e e' :
  subscribers e' `sublist_of` subscribers e →
  snapshots e' `sublist_of` snapshots e →
  next_ref e ≤ next_ref e' →
  refs_ok e → refs_ok e'.
Proof.
  intros Hsubs Hsnaps Hnext (Hs & Hsd & Hn & Hnd). split_and!.
  - eapply Forall_sublist; [done|]. eapply Forall_impl; [done|]. simpl. lia.
  - apply (sublist_NoDup _ (map sub_ref (subscribers e))); [done|].
    by apply (fmap_sublist sub_ref).
  - eapply Forall_sublist; [done|]. eapply Forall_impl; [done|]. simpl. lia.
  - apply (sublist_NoDup _ (map snap_ref (snapshots e))); [done|].
    by apply (fmap_sublist snap_ref).
Qed.

Lemma refs_ok_snapshot_taken e : refs_ok e → refs_ok (snapshot_taken e).
Proof.
  intros (Hs & Hsd & Hn & Hnd). split_and!; simpl.
  - eapply Forall_impl; [done|]. simpl. lia.
  - done.
  - apply Forall_app. split; [|by repeat constructor].
    eapply Forall_impl; [done|]. simpl. lia.
  - rewrite fmap_app. apply NoDup_app. split_and!; [done| |apply NoDup_singleton].
    intros r (s & -> & Hin)%list_elem_of_fmap Heq%list_elem_of_singleton.
    eapply Forall_forall in Hn; [|done]. simpl in Hn, Heq. lia.
Qed.

Lemma refs_ok_replayed evs e : refs_ok e → refs_ok (replay evs e).2.
Proof.
  rewrite replay_run.
  destruct (reduce _ _ _) as [[[]|x] st]; by apply refs_ok_weaken.
Qed.

Lemma remove_first_sublist {A} (is_x : A → bool) (a : list A) :
  remove_first is_x a `sublist_of` a.
Proof.
  destruct (remove_first_split is_x a) as [-> | (a1 & x & a2 & -> & ->)];
    [done|].
  apply sublist_app; [done|]. by apply sublist_cons.
Qed.

Lemma drop_newer_sublist index (snaps : list (Snapshot State)) :
  drop_newer index snaps `sublist_of` snaps.
Proof.
  destruct (drop_newer_prefix index snaps) as [dropped Hd].
  rewrite Hd at 2. by apply sublist_inserts_r.
Qed.

Lemma refs_ok_perform o e : refs_ok e → refs_ok (perform o e).2.
Proof.
  intros Hok. destruct o; simpl.
  - rewrite dispatch_run. destruct (applyEvent e (state e) event) as [st|x].
    + unfold auto_snapshot. case_match; simpl.
      * apply refs_ok_snapshot_taken. revert Hok. by apply refs_ok_weaken.
      * revert Hok. by apply refs_ok_weaken.
    + revert Hok. by apply refs_ok_weaken.
  - by apply refs_ok_replayed.
  - destruct evs as [|first rest]; [done|]. rewrite insertEvents_run. cbv zeta.
    apply refs_ok_replayed. revert Hok.
    apply refs_ok_weaken; simpl; [done | apply drop_newer_sublist | done].
  - rewrite removeEvent_run.
    destruct (list_find _ (events e)) as [[index x]|]; [|done]. cbv zeta.
    apply refs_ok_replayed. revert Hok.
    apply refs_ok_weaken; simpl; [done | apply drop_newer_sublist | done].
  - by apply refs_ok_snapshot_taken.
  - revert Hok. apply refs_ok_weaken; simpl;
      [done | apply remove_first_sublist | done].
  - rewrite rebaseline_run. revert Hok.
    apply refs_ok_weaken; simpl; [done | apply sublist_nil_l | done].
  - destruct Hok as (Hs & Hsd & Hn & Hnd).
    unfold subscribe, safeCallback. js_unfold. simpl.
    destruct (cb (state e)); simpl; (split_and!; simpl;
      [ apply Forall_app; split; [|by repeat constructor];
        eapply Forall_impl; [done|]; simpl; lia
      | rewrite fmap_app; apply NoDup_app;
        split_and!; [done| |apply NoDup_singleton];
        intros r (s & -> & Hin)%list_elem_of_fmap Heq%list_elem_of_singleton;
        eapply Forall_forall in Hs; [|done]; simpl in Hs, Heq; lia
      | eapply Forall_impl; [done|]; simpl; lia
      | done ]).
  - revert Hok. apply refs_ok_weaken; simpl;
      [apply remove_first_sublist | done | done].
Qed.

Lemma refs_ok_run (initial : State) apply interval e0 (ops : list Op) res e :
  new_EventSource initial apply interval = Normal e0 →
  for_of ops perform e0 = (res, e) → refs_ok e.
Proof.
  intros Hnew.
  assert (refs_ok e0) as Hok.
  { unfold new_EventSource in Hnew. case_match; [done|]. injection Hnew as <-.
    by split_and!; simpl; constructor. }
  clear Hnew. revert e0 Hok. induction ops as [|o ops IH]; intros e0 Hok; simpl.
  - by intros [= _ <-].
  - js_unfold. pose proof (refs_ok_perform o e0 Hok) as Hok'.
    destruct (perform o e0) as [[[]|x] e1]; simpl in Hok'.
    + by apply IH.
    + by intros [= _ <-].
Qed.

Lemma remove_first_fresh {A} (is_x : A → bool) (a : list A) :
  Forall (λ y, is_x y = false) a → remove_first is_x a = a.
Proof.
  induction 1 as [|y a Hy _ IH]; simpl; [done|]. by rewrite Hy, IH.
Qed.

Lemma remove_first_snoc {A} (is_x : A → bool) (a : list A) (x : A) :
  Forall (λ y, is_x y = false) a → is_x x = true →
  remove_first is_x (a ++ [x]) = a.
Proof.
  induction 1 as [|y a Hy _ IH]; simpl; intros Hx; [by rewrite Hx|].
  by rewrite Hy, IH.
Qed.

(** X11: On an engine reached by any operations,
    [subscribe] returns (also when the callback throws), has called the
    callback exactly once, with the current state, and has appended it to
    the subscribers, leaving log and state alone.  The unsubscribe closure
    it returns removes exactly that subscriber, and calling it again
    changes nothing. *)
Theorem unsubscribe_undoes_subscribe
    (initial : State) apply interval e0 (ops : list Op) e cb :
  new_EventSource initial apply interval = Normal e0 →
  for_of ops perform e0 = (Normal tt, e) →
  ∃ r e1, subscribe cb e = (Normal r, e1)
          ∧ delivered e1 = delivered e ++ [(r, state e)]
          ∧ subscribers e1 = subscribers e ++ [{| sub_ref := r; callback := cb |}]
          ∧ events e1 = events e ∧ state e1 = state e
          ∧ subscribers (unsubscribe r e1).2 = subscribers e
          ∧ unsubscribe r (unsubscribe r e1).2 = (Normal tt, (unsubscribe r e1).2).
Proof.
  intros Hnew Hrun.
  destruct (refs_ok_run _ _ _ _ _ _ _ Hnew Hrun) as (Hs & _).
  assert (Forall (λ s : Subscriber State,
                    bool_decide (sub_ref s = next_ref e) = false) (subscribers e))
    as Hfresh.
  { eapply Forall_impl; [done|]. simpl. intros s Hlt.
    apply bool_decide_eq_false. lia. }
  pose (e1 := (subscribe cb e).2).
  assert (subscribe cb e = (Normal (next_ref e), e1)
          ∧ delivered e1 = delivered e ++ [(next_ref e, state e)]
          ∧ subscribers e1
            = subscribers e ++ [{| sub_ref := next_ref e; callback := cb |}]
          ∧ events e1 = events e ∧ state e1 = state e) as (Hsub & Hd & Hs1 & Hev & Hst).
  { subst e1. unfold subscribe, safeCallback. js_unfold. simpl.
    by destruct (cb (state e)). }
  exists (next_ref e), e1. split_and!; try done.
  - unfold unsubscribe, modify. simpl.
    by rewrite Hs1, remove_first_snoc by (done || by apply bool_decide_eq_true).
  - unfold unsubscribe, modify. simpl.
    rewrite Hs1, remove_first_snoc by (done || by apply bool_decide_eq_true).
    by rewrite remove_first_fresh.
Qed.

(** X12: On an engine reached by any operations, [createSnapshot] appends the
    snapshot [(state, log length)] and leaves log and state alone; the
    disposer it returns removes exactly that snapshot, and calling it again
    changes nothing. *)
Theorem dispose_undoes_createSnapshot
    (initial : State) apply interval e0 (ops : list Op) e :
  new_EventSource initial apply interval = Normal e0 →
  for_of ops perform e0 = (Normal tt, e) →
  ∃ r e1, createSnapshot e = (Normal r, e1)
          ∧ snapshots e1
            = snapshots e ++ [{| snap_state := state e;
                                 eventIndex := length (events e);
                                 snap_ref := r |}]
          ∧ events e1 = events e ∧ state e1 = state e
          ∧ delivered e1 = delivered e
          ∧ snapshots (disposeSnapshot r e1).2 = snapshots e
          ∧ disposeSnapshot r (disposeSnapshot r e1).2
            = (Normal tt, (disposeSnapshot r e1).2).
Proof.
  intros Hnew Hrun.
  destruct (refs_ok_run _ _ _ _ _ _ _ Hnew Hrun) as (_ & _ & Hn & _).
  assert (Forall (λ s : Snapshot State,
                    bool_decide (snap_ref s = next_ref e) = false) (snapshots e))
    as Hfresh.
  { eapply Forall_impl; [done|]. simpl. intros s Hlt.
    apply bool_decide_eq_false. lia. }
  exists (next_ref e), (snapshot_taken e). rewrite createSnapshot_run.
  split_and!; try done.
  - unfold disposeSnapshot, modify, snapshot_taken. simpl.
    by rewrite remove_first_snoc by (done || by apply bool_decide_eq_true).
  - unfold disposeSnapshot, modify, snapshot_taken. simpl.
    rewrite remove_first_snoc by (done || by apply bool_decide_eq_true).
    by rewrite remove_first_fresh.
Qed.

(** No operation changes the reducer or takes the reference counter back;
    only [rebaseline] changes the initial state. *)
Lemma replay_frame evs e :
  applyEvent (replay evs e).2 = applyEvent e
  ∧ initialState (replay evs e).2 = initialState e
  ∧ next_ref (replay evs e).2 = next_ref e.
Proof. rewrite replay_run. by destruct (reduce _ _ _) as [[[]|x] st]. Qed.

Lemma perform_frame o e :
  applyEvent (perform o e).2 = applyEvent e
  ∧ next_ref e ≤ next_ref (perform o e).2
  ∧ (initialState (perform o e).2 = initialState e
     ∨ ∃ st, o = op_rebaseline st).
Proof.
  destruct o; simpl.
  - rewrite dispatch_run. destruct (applyEvent e (state e) event) as [st|x];
      [|by split_and!; [..|left]].
    unfold auto_snapshot. case_match; simpl; split_and!; auto.
  - destruct (replay_frame evs e) as (-> & -> & ->). auto.
  - destruct evs as [|first rest]; [by split_and!; [..|left]|].
    rewrite insertEvents_run. cbv zeta.
    destruct (replay_frame
                (mergeSorted
                   (drop (eventIndex (rewind_point (insert_index first (events e)) e))
                      (events e)) (first :: rest) compareEvents)
                (rewound (insert_index first (events e))
                   (λ existing, mergeSorted existing (first :: rest) compareEvents)
                   e)) as (-> & -> & ->).
    simpl. auto.
  - rewrite removeEvent_run.
    destruct (list_find _ (events e)) as [[index x]|];
      [|by split_and!; [..|left]].
    cbv zeta.
    destruct (replay_frame
                (filter (λ y : Event, id y ≠ id event)
                   (drop (eventIndex (rewind_point index e)) (events e)))
                (rewound index (filter (λ y : Event, id y ≠ id event)) e))
      as (-> & -> & ->).
    simpl. auto.
  - split_and!; auto.
  - split_and!; auto.
  - rewrite rebaseline_run. simpl. split_and!; eauto.
  - unfold subscribe, safeCallback. js_unfold. simpl.
    destruct (cb (state e)); simpl; split_and!; auto.
  - split_and!; auto.
Qed.

(** X13: Removal after insertion: a batch inserted into a fresh engine becomes
    the log as it is given; removing one of its events afterwards leaves
    the batch without the events of that id, and the state is the fold of
    the reducer over what is left. *)
Theorem removeEvent_after_insertEvents
    (initial : State) apply interval e0 evs ev e1 e2 :
  new_EventSource initial apply interval = Normal e0 →
  insertEvents evs e0 = (Normal tt, e1) →
  removeEvent ev e1 = (Normal tt, e2) →
  events e1 = evs
  ∧ events e2 = filter (λ y : Event, id y ≠ id ev) evs
  ∧ reduce apply initial (filter (λ y : Event, id y ≠ id ev) evs)
    = (Normal tt, state e2).
Proof.
  intros Hnew Hins Hrem.
  pose proof (engine_ok_fresh _ _ _ _ Hnew) as Hok0.
  pose proof (engine_ok_inserted _ _ _ Hok0 Hins) as Hok1.
  pose proof (engine_ok_removed _ _ _ Hok1 Hrem) as Hok2.
  assert (events e0 = [] ∧ applyEvent e0 = apply ∧ initialState e0 = initial)
    as (Hev0 & Hap0 & Hin0).
  { unfold new_EventSource in Hnew. case_match; [done|]. by injection Hnew as <-. }
  assert (events e1 = evs) as Hev1.
  { destruct evs as [|first rest].
    - injection Hins as <-. done.
    - pose proof (replay_events
                    (mergeSorted
                       (drop (eventIndex
                                (rewind_point (insert_index first (events e0)) e0))
                          (events e0)) (first :: rest) compareEvents)
                    (rewound (insert_index first (events e0))
                       (λ existing,
                          mergeSorted existing (first :: rest) compareEvents)
                       e0)) as Hlog.
      rewrite insertEvents_run in Hins. cbv zeta in Hins. rewrite Hins in Hlog.
      simpl in Hlog. rewrite Hlog. unfold rewound. simpl.
      rewrite Hev0. rewrite take_nil, drop_nil.
      by rewrite mergeSorted_nil_l. }
  assert (events e2 = filter (λ y : Event, id y ≠ id ev) evs) as Hev2.
  { pose proof (removeEvent_removes_id_log ev e1) as Hlog.
    by rewrite Hrem, Hev1 in Hlog. }
  split_and!; [done..|].
  destruct (perform_frame (op_insertEvents evs) e0) as (Ha1 & _ & [Hi1|[? ?]]);
    [|done].
  destruct (perform_frame (op_removeEvent ev) e1) as (Ha2 & _ & [Hi2|[? ?]]);
    [|done].
  simpl in Ha1, Hi1, Ha2, Hi2. rewrite Hins in Ha1, Hi1. rewrite Hrem in Ha2, Hi2.
  simpl in Ha1, Hi1, Ha2, Hi2.
  pose proof (ok_state _ Hok2) as Hst. unfold state_is_replay in Hst.
  by rewrite Ha2, Ha1, Hap0, Hi2, Hi1, Hin0, Hev2 in Hst.
Qed.

Lemma insertEvents_perm evs e :
  events (insertEvents evs e).2 ≡ₚ events e ++ evs.
Proof.
  destruct evs as [|first rest]; [simpl; by rewrite app_nil_r|].
  rewrite insertEvents_run. cbv zeta. rewrite replay_events.
  unfold rewound. simpl. rewrite mergeSorted_perm, app_assoc.
  by rewrite take_drop.
Qed.

End EngineMore.

(** ** The host *)

Section HostMore.
Context {Payload Meta State : Type}.
Variable truthy : Payload → bool.

#[local] Abbreviation Event := (BaseEvent Payload Meta).
#[local] Abbreviation Host := (HostEventSource Payload Meta State).

Implicit Types (h : Host) (ev : Event).

Lemma broadcast_run ev h :
  broadcast truthy ev h
  = (Normal tt,
     set_posted
       (posted h ++ broadcast_messages truthy (filterForClient h) ev (clients h))
       h).
Proof.
  unfold broadcast, broadcast_messages. js_unfold.
  generalize (clients h). intros entries. revert h.
  induction entries as [|[c client] entries IH]; intros h.
  - destruct h. simpl. by rewrite app_nil_r.
  - cbn [for_of]. js_unfold. unfold postMessage, modify. csimpl.
    destruct (filterForClient h (payload ev) c) as [filtered|];
      [destruct (truthy filtered)|]; rewrite IH; simpl;
      rewrite <- ?app_assoc; done.
Qed.

Lemma super_run {A} (m : JS (EventSource Payload Meta State) A) h :
  super m h = ((m (base h)).1, set_base (m (base h)).2 h).
Proof. unfold super. by destruct (m (base h)). Qed.

Lemma receiveFromClient_run proposed clientId now h :
  receiveFromClient proposed clientId now h
  = if bool_decide (id proposed ∈ pastEventIds h)
       || negb (validate h proposed clientId)
    then (Normal tt,
          set_posted
            (posted h ++ rejection_messages (clients h) clientId (id proposed))
            (set_base
               (set_console
                  (console (base h) ++ [console_warn clientId (id proposed)])
                  (base h)) h))
    else super (dispatch {| id := id proposed; timestamp := now;
                            source := {| clientId := clientId |};
                            context := context proposed;
                            payload := payload proposed |}) h.
Proof.
  unfold receiveFromClient, validateClientEvent, sendRejectionToClient, warn,
    postMessage, rejection_messages, dispatchEvent.
  js_unfold. rewrite !super_run. simpl.
  case_bool_decide; simpl.
  - destruct (list_find _ (clients h)) as [[? [? client]]|]; simpl;
      rewrite ?app_nil_r; by destruct h.
  - destruct (validate h proposed clientId); simpl.
    + by rewrite super_run.
    + destruct (list_find _ (clients h)) as [[? [? client]]|]; simpl;
        rewrite ?app_nil_r; by destruct h.
Qed.

Lemma host_dispatch_run pl generated now h :
  host_dispatch truthy pl generated now h
  = let event := {| id := generated; timestamp := now;
                    source := {| clientId := "host" |};
                    context := None; payload := pl |} in
    let h1 := set_base (dispatch event (base h)).2
                (set_pastEventIds (pastEventIds h ∪ {[generated]}) h) in
    match (dispatch event (base h)).1 with
    | Normal _ =>
        (Normal tt,
         set_posted
           (posted h ++ broadcast_messages truthy (filterForClient h) event
                          (clients h)) h1)
    | Throw x => (Throw x, h1)
    end.
Proof.
  unfold host_dispatch, dispatchEvent. js_unfold. rewrite super_run. simpl.
  destruct (dispatch _ (base h)) as [[[]|x] e']; simpl; [|done].
  by rewrite broadcast_run.
Qed.

(** X14: A proposal is refused when its id is in the past-id set or the
    validation hook returns false.  The host then warns on the console and
    posts one [rejection] with the id, on the port the registry holds for
    the proposing client, and nothing when the client is not registered;
    the log, the state, the snapshots and the past-id set stay as they are
    and no subscriber is called. *)
Theorem receiveFromClient_rejected proposed clientId now h :
  id proposed ∈ pastEventIds h ∨ validate h proposed clientId = false →
  ∃ h', receiveFromClient proposed clientId now h = (Normal tt, h')
        ∧ events (base h') = events (base h)
        ∧ state (base h') = state (base h)
        ∧ snapshots (base h') = snapshots (base h)
        ∧ delivered (base h') = delivered (base h)
        ∧ pastEventIds h' = pastEventIds h
        ∧ clients h' = clients h
        ∧ console (base h')
          = console (base h) ++ [console_warn clientId (id proposed)]
        ∧ posted h'
          = posted h ++ rejection_messages (clients h) clientId (id proposed).
Proof.
  intros Hbad. rewrite receiveFromClient_run.
  assert (bool_decide (id proposed ∈ pastEventIds h)
          || negb (validate h proposed clientId) = true) as ->.
  { destruct Hbad as [Hin | ->]; [|apply orb_true_r].
    by rewrite bool_decide_eq_true_2. }
  eexists. split; [done|]. simpl. by split_and!.
Qed.

(** X15: The host's own [dispatch] adds the generated id to the past-id set
    before anything else, so also when the reducer throws, and never
    touches the registry.  When the reducer accepts the event, [dispatch]
    returns, the event (source ["host"], no context) is appended to the
    log, the state is the reducer's result, and one [event] message goes to
    each registered client whose filtered payload is neither [null] nor
    falsy, in the order of the registry, carrying the filtered payload.
    When the reducer throws, the exception reaches the caller and nothing
    is posted. *)
Theorem host_dispatch_broadcasts pl generated now h :
  pastEventIds (host_dispatch truthy pl generated now h).2
  = pastEventIds h ∪ {[generated]}
  ∧ clients (host_dispatch truthy pl generated now h).2 = clients h
  ∧ match applyEvent (base h) (state (base h))
            {| id := generated; timestamp := now;
               source := {| clientId := "host" |};
               context := None; payload := pl |} with
    | Normal st =>
        (host_dispatch truthy pl generated now h).1 = Normal tt
        ∧ events (base (host_dispatch truthy pl generated now h).2)
          = events (base h)
            ++ [{| id := generated; timestamp := now;
                   source := {| clientId := "host" |};
                   context := None; payload := pl |}]
        ∧ state (base (host_dispatch truthy pl generated now h).2) = st
        ∧ posted (host_dispatch truthy pl generated now h).2
          = posted h
            ++ broadcast_messages truthy (filterForClient h)
                 {| id := generated; timestamp := now;
                    source := {| clientId := "host" |};
                    context := None; payload := pl |} (clients h)
    | Throw x =>
        (host_dispatch truthy pl generated now h).1 = Throw x
        ∧ posted (host_dispatch truthy pl generated now h).2 = posted h
    end.
Proof.
  rewrite host_dispatch_run. cbv zeta.
  set (event := {| id := generated; timestamp := now;
                   source := {| clientId := "host" |};
                   context := None; payload := pl |}).
  pose proof (dispatch_events event (base h)) as Hlog.
  rewrite dispatch_run in *.
  destruct (applyEvent (base h) (state (base h)) event) as [st|x]; simpl.
  - split_and!; try done.
    unfold auto_snapshot. by case_match.
  - done.
Qed.

Lemma for_of_preserves {S A} (P : S → Prop) (body : A → JS S unit)
    (xs : list A) (s : S) :
  (∀ a s', P s' → P (body a s').2) → P s → P (for_of xs body s).2.
Proof.
  intros Hbody. revert s. induction xs as [|a xs IH]; intros s Hs; [done|].
  cbn [for_of]. js_unfold. specialize (Hbody a s Hs).
  destruct (body a s) as [[[]|x] s1]; simpl in *; [by apply IH | done].
Qed.

Lemma host_frame_refl h : host_frame h h.
Proof. by split_and!. Qed.

Lemma host_frame_trans h1 h2 h3 :
  host_frame h1 h2 → host_frame h2 h3 → host_frame h1 h3.
Proof.
  intros (Hv1 & Hf1 & Hn1) (Hv2 & Hf2 & Hn2).
  split_and!; [congruence | congruence | lia].
Qed.

Lemma message_frame_trans h1 h2 h3 :
  message_frame h1 h2 → message_frame h2 h3 → message_frame h1 h3.
Proof.
  intros (Hf1 & Hc1 & Hl1 & Hp1) (Hf2 & Hc2 & Hl2 & Hp2).
  split_and!; [by eapply host_frame_trans | congruence..].
Qed.

Lemma super_perform_frame o h :
  message_frame h (set_base (perform o (base h)).2 h).
Proof.
  destruct (perform_frame o (base h)) as (_ & Hnext & _).
  by split_and!.
Qed.

Lemma onMessage_frame clientId p data now h :
  message_frame h (onMessage clientId p data now h).2.
Proof.
  destruct data as [event| |since|].
  - cbn [onMessage]. rewrite receiveFromClient_run. case_match.
    + by split_and!.
    + rewrite super_run. simpl.
      apply (super_perform_frame
               (op_dispatch {| id := id event; timestamp := now;
                               source := {| clientId := clientId |};
                               context := context event;
                               payload := payload event |})).
  - by split_and!.
  - rewrite onMessage_requestHistory. by split_and!.
  - by split_and!.
Qed.

Lemma port_message_frame p data now h :
  message_frame h (port_message p data now h).2.
Proof.
  unfold port_message. js_unfold.
  apply (for_of_preserves (message_frame h)).
  - intros l h' Hh'. eapply message_frame_trans; [done|].
    apply onMessage_frame.
  - by split_and!.
Qed.

Lemma host_drop_frame h : message_frame h (host_drop h).2.
Proof.
  unfold host_drop. js_unfold.
  destruct (last (events (base h))) as [ev|]; [|by split_and!].
  rewrite super_run. apply (super_perform_frame (op_removeEvent ev)).
Qed.

Lemma removeClient_run clientId h :
  removeClient clientId h
  = (Normal tt,
     match list_find (λ c : string * Client, c.1 = clientId) (clients h) with
     | Some (_, (_, client)) =>
         set_clients (filter (λ c : string * Client, c.1 ≠ clientId) (clients h))
           (set_port_listeners
              (filter (λ l, listener_ref l ≠ dispose client) (port_listeners h))
              h)
     | None => h
     end).
Proof.
  unfold removeClient. js_unfold.
  by destruct (list_find _ (clients h)) as [[? [? client]]|].
Qed.

Lemma addClient_run clientId p h :
  addClient clientId p h
  = (Normal tt,
     set_clients
       (map_set clientId {| port := p; dispose := next_ref (base h) |} (clients h))
       (set_port_listeners
          (port_listeners h
             ++ [{| listener_ref := next_ref (base h); listener_port := p;
                    listener_clientId := clientId |}])
          (set_base (set_next_ref (S (next_ref (base h))) (base h)) h))).
Proof. unfold addClient, super, new_ref. js_unfold. done. Qed.

(** Every operation of the host, whatever its outcome, keeps the hooks and
    the references in order, and adds to the past-id set the id of a host
    dispatch and nothing else. *)
Lemma host_perform_frame o h :
  host_frame h (host_perform truthy o h).2
  ∧ pastEventIds (host_perform truthy o h).2
    = pastEventIds h ∪ list_to_set (generated_ids [o])
  ∧ (listeners_ok h → listeners_ok (host_perform truthy o h).2).
Proof.
  assert (∀ h', message_frame h h' →
            host_frame h h'
            ∧ pastEventIds h' = pastEventIds h ∪ (∅ : gset string)
            ∧ (listeners_ok h → listeners_ok h')) as Hmsg.
  { intros h' ((Hv & Hf & Hn) & Hc & Hl & Hp).
    split; [by split_and!|]. split.
    - rewrite Hp. by rewrite (right_id_L ∅ (∪)).
    - unfold listeners_ok. rewrite Hl. intros Hok.
      eapply Forall_impl; [done|]. simpl. lia. }
  destruct o as [pl generated now|clientId p|clientId|p data now| |cb];
    cbn [host_perform].
  - change (list_to_set (generated_ids [hop_dispatch pl generated now]))
      with ({[generated]} ∪ ∅ : gset string).
    rewrite (right_id_L ∅ (∪)).
    rewrite host_dispatch_run. cbv zeta.
    set (event := {| id := generated; timestamp := now;
                     source := {| clientId := "host" |};
                     context := None; payload := pl |}).
    destruct (perform_frame (op_dispatch event) (base h)) as (_ & Hnext & _).
    simpl in Hnext.
    destruct (dispatch event (base h)) as [[[]|x] e']; simpl in *;
      (split; [by split_and!|]; split; [done|]);
      unfold listeners_ok; simpl; intros Hok;
      (eapply Forall_impl; [done|]); simpl; lia.
  - change (list_to_set (generated_ids [hop_addClient clientId p]))
      with (∅ : gset string).
    rewrite addClient_run. simpl. split; [|split].
    + split_and!; simpl; [done | done | lia].
    + by rewrite (right_id_L ∅ (∪)).
    + unfold listeners_ok. simpl. intros Hok. apply Forall_app. split.
      * eapply Forall_impl; [done|]. simpl. lia.
      * constructor; [simpl; lia | constructor].
  - change (list_to_set (generated_ids [hop_removeClient clientId]))
      with (∅ : gset string).
    rewrite removeClient_run. simpl.
    destruct (list_find _ (clients h)) as [[? [? client]]|]; simpl.
    + split; [by split_and!|]. split; [by rewrite (right_id_L ∅ (∪))|].
      unfold listeners_ok. simpl. intros Hok.
      eapply Forall_sublist; [apply sublist_filter | done].
    + split; [by split_and!|]. split; [by rewrite (right_id_L ∅ (∪)) | done].
  - apply Hmsg, port_message_frame.
  - apply Hmsg, host_drop_frame.
  - change (list_to_set (generated_ids [hop_subscribe cb]))
      with (∅ : gset string).
    js_unfold. rewrite super_run.
    destruct (perform_frame (op_subscribe cb) (base h)) as (_ & Hnext & _).
    simpl in Hnext. js_unfold.
    destruct (subscribe cb (base h)) as [[r|x] e']; simpl in *;
      (split; [by split_and!|]; split; [by rewrite (right_id_L ∅ (∪))|]);
      unfold listeners_ok; simpl; intros Hok;
      (eapply Forall_impl; [done|]); simpl; lia.
Qed.

Lemma generated_ids_cons o (ops : list (@HostOp Payload Meta State)) :
  (list_to_set (generated_ids (o :: ops)) : gset string)
  = list_to_set (generated_ids [o]) ∪ list_to_set (generated_ids ops).
Proof.
  unfold generated_ids. destruct o; simpl;
    rewrite ?(right_id_L ∅ (∪)), ?(left_id_L ∅ (∪)); done.
Qed.

Lemma host_run_frame (ops : list (@HostOp Payload Meta State)) h :
  host_frame h (for_of ops (host_perform truthy) h).2
  ∧ pastEventIds h ⊆ pastEventIds (for_of ops (host_perform truthy) h).2
  ∧ pastEventIds (for_of ops (host_perform truthy) h).2
    ⊆ pastEventIds h ∪ list_to_set (generated_ids ops)
  ∧ ((for_of ops (host_perform truthy) h).1 = Normal tt →
     pastEventIds (for_of ops (host_perform truthy) h).2
     = pastEventIds h ∪ list_to_set (generated_ids ops))
  ∧ (listeners_ok h → listeners_ok (for_of ops (host_perform truthy) h).2).
Proof.
  revert h. induction ops as [|o ops IH]; intros h.
  - simpl. split_and!; [apply host_frame_refl | done | | | done].
    + apply union_subseteq_l.
    + intros _. by rewrite (right_id_L ∅ (∪)).
  - rewrite generated_ids_cons. cbn [for_of]. js_unfold.
    destruct (host_perform_frame o h) as (Hf & Hp & Hl).
    destruct (host_perform truthy o h) as [[[]|x] h1]; simpl in *.
    + destruct (IH h1) as (Hf' & Hsub & Hsup & Heq & Hl').
      split_and!.
      * by eapply host_frame_trans.
      * etrans; [|done]. rewrite Hp. apply union_subseteq_l.
      * etrans; [done|]. rewrite Hp. by rewrite (assoc_L (∪)).
      * intros Hn. rewrite (Heq Hn), Hp. by rewrite (assoc_L (∪)).
      * auto.
    + split_and!; [done | | | done | done].
      * rewrite Hp. apply union_subseteq_l.
      * rewrite Hp. rewrite (assoc_L (∪)). apply union_subseteq_l.
Qed.

(** X16: The past-id set never loses an id, and it holds the ids the host
    generated for its own dispatches and no others: no proposal of a
    client, accepted or refused, enters it.  This holds also for a run that
    ends in an exception, up to the operation that threw. *)
Theorem pastEventIds_are_generated_ids
    (ops : list (@HostOp Payload Meta State)) h :
  pastEventIds h ⊆ pastEventIds (for_of ops (host_perform truthy) h).2
  ∧ pastEventIds (for_of ops (host_perform truthy) h).2
    ⊆ pastEventIds h ∪ list_to_set (generated_ids ops)
  ∧ ((for_of ops (host_perform truthy) h).1 = Normal tt →
     pastEventIds (for_of ops (host_perform truthy) h).2
     = pastEventIds h ∪ list_to_set (generated_ids ops)).
Proof. destruct (host_run_frame ops h) as (_ & ? & ? & ? & _). done. Qed.

(** X17: An id the host generated stays reserved: after a host dispatch under
    an id, and whatever operations follow, a proposal with that id is
    refused, whatever the validation hook says: the log and the state stay
    as they are and the rejection goes to the proposer. *)
Theorem host_id_stays_reserved pl now h
    (ops : list (@HostOp Payload Meta State)) proposed clientId now' :
  let h1 := (host_dispatch truthy pl (id proposed) now h).2 in
  let h2 := (for_of ops (host_perform truthy) h1).2 in
  ∃ h3, receiveFromClient proposed clientId now' h2 = (Normal tt, h3)
        ∧ events (base h3) = events (base h2)
        ∧ state (base h3) = state (base h2)
        ∧ pastEventIds h3 = pastEventIds h2
        ∧ posted h3
          = posted h2 ++ rejection_messages (clients h2) clientId (id proposed).
Proof.
  intros h1 h2.
  assert (id proposed ∈ pastEventIds h2) as Hin.
  { destruct (host_run_frame ops h1) as (_ & Hsub & _). apply Hsub.
    destruct (host_perform_frame (hop_dispatch pl (id proposed) now) h)
      as (_ & Hp & _).
    cbn [host_perform] in Hp. fold h1 in Hp. rewrite Hp.
    apply elem_of_union_r. simpl. apply elem_of_union_l.
    by apply elem_of_singleton. }
  rewrite receiveFromClient_run. rewrite bool_decide_eq_true_2 by done.
  eexists. split; [done|]. simpl. by split_and!.
Qed.

Lemma Forall_map_set {V} (P : string * V → Prop) k v (m : list (string * V)) :
  Forall P m → P (k, v) → Forall P (map_set k v m).
Proof.
  intros Hm Hkv. induction Hm as [|[k' v'] m Hx Hm IH]; simpl.
  - by repeat constructor.
  - case_bool_decide; by constructor.
Qed.

Lemma map_set_find {V} (k : string) (v : V) (m : list (string * V)) :
  ∃ i, list_find (λ c : string * V, c.1 = k) (map_set k v m) = Some (i, (k, v)).
Proof.
  induction m as [|[k' v'] m [i IH]]; simpl.
  - exists 0. by rewrite decide_True.
  - case_bool_decide as Hk.
    + exists 0. simpl. by rewrite decide_True.
    + exists (S i). simpl. rewrite decide_False by done. by rewrite IH.
Qed.

Lemma map_set_filter {V} (k : string) (v : V) (m : list (string * V)) :
  filter (λ c : string * V, c.1 ≠ k) (map_set k v m)
  = filter (λ c : string * V, c.1 ≠ k) m.
Proof.
  induction m as [|[k' v'] m IH]; simpl.
  - by rewrite filter_cons_False by (simpl; auto).
  - case_bool_decide as Hk.
    + rewrite !filter_cons_False by (simpl; auto). done.
    + rewrite !filter_cons_True by done. by rewrite IH.
Qed.

Lemma listeners_ok_fresh (initial : State) apply validate filterFn h0 :
  new_HostEventSource initial apply validate filterFn = Normal h0 →
  listeners_ok h0.
Proof.
  unfold new_HostEventSource. case_match; [|done]. intros [= <-]. constructor.
Qed.

(** X18: On a host reached by any operations, [addClient] registers the client
    under its id with the port, and one more listener; [removeClient] then
    takes exactly that listener away again and the id out of the registry,
    and a second [removeClient] changes nothing.  For an id that was not
    registered before, the registry is as it was.  For an id that was, the
    earlier entry is overwritten and then deleted while the listeners are
    as before the [addClient]: the listener of the earlier registration
    stays. *)
Theorem removeClient_undoes_addClient
    (initial : State) apply validate filterFn h0
    (ops : list (@HostOp Payload Meta State)) res h clientId p :
  new_HostEventSource initial apply validate filterFn = Normal h0 →
  for_of ops (host_perform truthy) h0 = (res, h) →
  ∃ h1 h2 i,
    addClient clientId p h = (Normal tt, h1)
    ∧ list_find (λ c : string * Client, c.1 = clientId) (clients h1)
      = Some (i, (clientId, {| port := p; dispose := next_ref (base h) |}))
    ∧ port_listeners h1
      = port_listeners h
        ++ [{| listener_ref := next_ref (base h); listener_port := p;
               listener_clientId := clientId |}]
    ∧ removeClient clientId h1 = (Normal tt, h2)
    ∧ port_listeners h2 = port_listeners h
    ∧ clients h2 = filter (λ c : string * Client, c.1 ≠ clientId) (clients h)
    ∧ (clientId ∉ map fst (clients h) → clients h2 = clients h)
    ∧ removeClient clientId h2 = (Normal tt, h2).
Proof.
  intros Hnew Hrun.
  assert (listeners_ok h) as Hok.
  { destruct (host_run_frame ops h0) as (_ & _ & _ & _ & Hl).
    rewrite Hrun in Hl. apply Hl. by eapply listeners_ok_fresh. }
  destruct (map_set_find clientId {| port := p; dispose := next_ref (base h) |}
              (clients h)) as [i Hfind].
  rewrite addClient_run. eexists _, _, i. split; [done|].
  split; [done|]. split; [done|].
  rewrite removeClient_run. simpl. rewrite Hfind. split; [done|]. simpl.
  assert (∀ m : list (string * Client),
            list_find (λ c : string * Client, c.1 = clientId)
              (filter (λ c : string * Client, c.1 ≠ clientId) m) = None)
    as Hgone.
  { intros m. apply list_find_None. apply Forall_forall.
    by intros c [Hc _]%list_elem_of_filter. }
  split_and!.
  - rewrite filter_app, filter_cons_False by (simpl; auto).
    rewrite filter_nil, app_nil_r. apply filter_all.
    eapply Forall_impl; [apply Hok|]. simpl. lia.
  - apply map_set_filter.
  - intros Hnot. rewrite map_set_filter. apply filter_all.
    apply Forall_forall. intros c Hc Heq. apply Hnot.
    rewrite <- Heq. by apply (list_elem_of_fmap_2 fst).
  - rewrite removeClient_run. simpl. by rewrite Hgone.
Qed.

(** X19: An accepted proposal is stamped by the host: the event that enters the
    log keeps the id, the context and the payload of the proposal, and
    takes the host's clock and the client id of the registration the
    message came through, whatever timestamp and source the proposal
    carried.  The subscribers are called once with the new state; nothing
    is posted to any port and the past-id set is as before. *)
Theorem accepted_proposal_is_stamped proposed clientId now h st :
  id proposed ∉ pastEventIds h →
  validate h proposed clientId = true →
  applyEvent (base h) (state (base h))
    {| id := id proposed; timestamp := now;
       source := {| clientId := clientId |};
       context := context proposed; payload := payload proposed |}
  = Normal st →
  ∃ h', receiveFromClient proposed clientId now h = (Normal tt, h')
        ∧ events (base h')
          = events (base h)
            ++ [{| id := id proposed; timestamp := now;
                   source := {| clientId := clientId |};
                   context := context proposed; payload := payload proposed |}]
        ∧ state (base h') = st
        ∧ delivered (base h')
          = delivered (base h)
            ++ map (λ s, (sub_ref s, st)) (subscribers (base h))
        ∧ posted h' = posted h
        ∧ pastEventIds h' = pastEventIds h
        ∧ clients h' = clients h.
Proof.
  intros Hid Hval Hap. rewrite receiveFromClient_run.
  rewrite bool_decide_eq_false_2 by done. rewrite Hval. simpl.
  rewrite super_run, dispatch_run, Hap. simpl.
  eexists. split; [done|]. simpl.
  unfold auto_snapshot. case_match; simpl; split_and!; try done;
    unfold notified_with; simpl; done.
Qed.

(** ** The reply to a history request *)

Lemma requestHistory_run p since now h :
  port_message p (msg_requestHistory since) now h
  = (Normal tt, set_posted (posted h ++ history_replies h p since) h).
Proof.
  unfold port_message, history_replies. js_unfold.
  generalize (filter (λ l, listener_port l = p) (port_listeners h)).
  intros ls. revert h. induction ls as [|l ls IH]; intros h.
  - simpl. rewrite app_nil_r. by destruct h.
  - cbn [for_of]. js_unfold. rewrite onMessage_requestHistory, IH. simpl.
    by rewrite <- app_assoc.
Qed.

Lemma filter_none {A} (P : A → Prop) `{!∀ x, Decision (P x)} (l : list A) :
  Forall (λ y, ¬ P y) l → filter P l = [].
Proof.
  induction 1 as [|y l Hy _ IH]; [done|]. by rewrite filter_cons_False.
Qed.

Lemma NoDup_fmap_eq {A B} (f : A → B) (l : list A) (x y : A) :
  NoDup (map f l) → x ∈ l → y ∈ l → f x = f y → x = y.
Proof.
  induction l as [|z l IH]; intros Hnd Hx Hy Heq; [by apply elem_of_nil in Hx|].
  apply NoDup_cons in Hnd as [Hz Hnd].
  apply elem_of_cons in Hx as [-> | Hx]; apply elem_of_cons in Hy as [-> | Hy].
  - done.
  - exfalso. apply Hz. rewrite Heq. by apply (list_elem_of_fmap_2 f).
  - exfalso. apply Hz. rewrite <- Heq. by apply (list_elem_of_fmap_2 f).
  - by apply IH.
Qed.

Lemma filter_unique {A B} `{EqDecision B} (f : A → B) (x : A) (l : list A) :
  NoDup (map f l) → x ∈ l → filter (λ y, f y = f x) l = [x].
Proof.
  induction l as [|y l IH]; intros Hnd Hx; [by apply elem_of_nil in Hx|].
  apply NoDup_cons in Hnd as [Hy Hnd].
  apply elem_of_cons in Hx as [<- | Hx].
  - rewrite filter_cons_True by done. f_equal.
    apply filter_none, Forall_forall. intros z Hz Heq. apply Hy.
    rewrite <- Heq. by apply (list_elem_of_fmap_2 f).
  - rewrite filter_cons_False; [by apply IH|].
    intros Heq. apply Hy. rewrite Heq. by apply (list_elem_of_fmap_2 f).
Qed.

Lemma registry_ok_frame h h' :
  clients h' = clients h → port_listeners h' = port_listeners h →
  next_ref (base h) ≤ next_ref (base h') →
  registry_ok h → registry_ok h'.
Proof.
  intros Hc Hl Hn (Hok & Hnd & Hreg). unfold registry_ok, listeners_ok.
  rewrite Hc, Hl. split_and!; [|done..].
  eapply Forall_impl; [apply Hok|]. simpl. lia.
Qed.

Lemma registry_ok_perform o h :
  registry_ok h → registry_ok (host_perform truthy o h).2.
Proof.
  intros Hreg.
  destruct o as [pl generated now|clientId p|clientId|p data now| |cb];
    cbn [host_perform].
  - rewrite host_dispatch_run. cbv zeta.
    set (event := {| id := generated; timestamp := now;
                     source := {| clientId := "host" |};
                     context := None; payload := pl |}).
    destruct (perform_frame (op_dispatch event) (base h)) as (_ & Hnext & _).
    simpl in Hnext.
    destruct (dispatch event (base h)) as [[[]|x] e']; simpl in *;
      revert Hreg; by apply registry_ok_frame.
  - rewrite addClient_run. simpl. destruct Hreg as (Hok & Hnd & Hall).
    split_and!.
    + unfold listeners_ok. simpl. apply Forall_app. split.
      * eapply Forall_impl; [apply Hok|]. simpl. lia.
      * constructor; [simpl; lia | constructor].
    + simpl. rewrite fmap_app. apply NoDup_app. split_and!; [done| |].
      * intros r (l & -> & Hl)%list_elem_of_fmap Heq%list_elem_of_singleton.
        eapply Forall_forall in Hok; [|done]. simpl in Hok, Heq. lia.
      * apply NoDup_singleton.
    + simpl. apply Forall_map_set.
      * eapply Forall_impl; [apply Hall|]. intros entry Hin.
        apply elem_of_app. by left.
      * apply elem_of_app. right. by left.
  - rewrite removeClient_run. simpl.
    destruct (list_find _ (clients h)) as [[i [k client]]|] eqn:Hfind;
      [|done].
    apply list_find_Some in Hfind as (Hi & Hk & _). simpl in Hk. subst k.
    apply list_elem_of_lookup_2 in Hi.
    destruct Hreg as (Hok & Hnd & Hall). split_and!.
    + unfold listeners_ok. simpl.
      eapply Forall_sublist; [apply sublist_filter | done].
    + simpl. apply (sublist_NoDup _ (map listener_ref (port_listeners h)));
        [done|]. apply (fmap_sublist listener_ref), sublist_filter.
    + simpl. rewrite Forall_forall in Hall. apply Forall_forall.
      intros entry [Hne Hentry]%list_elem_of_filter.
      apply list_elem_of_filter. split; [|by apply Hall].
      intros Href.
      assert (listener_of entry = listener_of (clientId, client)) as Heq.
      { apply (NoDup_fmap_eq listener_ref (port_listeners h));
          [done | by apply Hall | by apply Hall | done]. }
      apply Hne. by injection Heq.
  - revert Hreg. destruct (port_message_frame p data now h)
      as ((_ & _ & Hn) & Hc & Hl & _). by apply registry_ok_frame.
  - revert Hreg. destruct (host_drop_frame h) as ((_ & _ & Hn) & Hc & Hl & _).
    by apply registry_ok_frame.
  - js_unfold. rewrite super_run.
    destruct (perform_frame (op_subscribe cb) (base h)) as (_ & Hnext & _).
    simpl in Hnext. js_unfold.
    destruct (subscribe cb (base h)) as [[r|x] e']; simpl in *;
      revert Hreg; by apply registry_ok_frame.
Qed.

(** No port carries two listeners while no port is passed to [addClient]
    twice. *)
Lemma ports_perform o (ops : list (@HostOp Payload Meta State)) h :
  NoDup (map listener_port (port_listeners h) ++ added_ports (o :: ops)) →
  NoDup (map listener_port (port_listeners (host_perform truthy o h).2)
           ++ added_ports ops).
Proof.
  destruct o as [pl generated now|clientId p|clientId|p data now| |cb];
    cbn [host_perform]; unfold added_ports; cbn [omap];
    fold (added_ports ops).
  - rewrite host_dispatch_run. cbv zeta.
    by destruct (dispatch _ (base h)) as [[[]|x] e'].
  - rewrite addClient_run. simpl. rewrite fmap_app. simpl.
    by rewrite <- app_assoc.
  - rewrite removeClient_run. simpl.
    destruct (list_find _ (clients h)) as [[i [k client]]|]; [|done]. simpl.
    intros Hnd. eapply sublist_NoDup; [done|].
    apply sublist_app; [|done].
    apply (fmap_sublist listener_port), sublist_filter.
  - destruct (port_message_frame p data now h) as (_ & _ & -> & _). done.
  - destruct (host_drop_frame h) as (_ & _ & -> & _). done.
  - js_unfold. rewrite super_run. js_unfold.
    by destruct (subscribe cb (base h)) as [[r|x] e'].
Qed.

Lemma registry_run (ops : list (@HostOp Payload Meta State)) h :
  registry_ok h →
  NoDup (map listener_port (port_listeners h) ++ added_ports ops) →
  registry_ok (for_of ops (host_perform truthy) h).2
  ∧ NoDup (map listener_port
             (port_listeners (for_of ops (host_perform truthy) h).2)).
Proof.
  revert h. induction ops as [|o ops IH]; intros h Hreg Hports.
  - simpl. split; [done|]. by rewrite app_nil_r in Hports.
  - cbn [for_of]. js_unfold.
    pose proof (registry_ok_perform o h Hreg) as Hreg'.
    pose proof (ports_perform o ops h Hports) as Hports'.
    destruct (host_perform truthy o h) as [[[]|x] h1]; simpl in *.
    + by apply IH.
    + split; [done|]. by apply NoDup_app in Hports' as (? & _).
Qed.

(** C8, as amended: on a host reached from the constructor by any
    operations, a [requestHistory] message with bound [since] that arrives
    on a port is answered on that port with one [eventHistory] message per
    listener attached to the port, in the order of attachment, and nothing
    else changes.  The events of a reply are the log events with timestamp
    strictly above [since], each with its payload replaced by
    [filterForClient(payload, clientId)] for the client id of the
    registration, those filtered to [null] left out, in the order of the
    log.  When no port was passed to [addClient] twice, the port of a
    registered client gets exactly one reply, filtered for that client. *)
Theorem requestHistory_reply (initial : State) apply validate filterFn h0
    (ops : list (@HostOp Payload Meta State)) res h p since now :
  new_HostEventSource initial apply validate filterFn = Normal h0 →
  for_of ops (host_perform truthy) h0 = (res, h) →
  ∃ h', port_message p (msg_requestHistory since) now h = (Normal tt, h')
        ∧ posted h' = posted h ++ history_replies h p since
        ∧ base h' = base h ∧ clients h' = clients h
        ∧ pastEventIds h' = pastEventIds h
        ∧ port_listeners h' = port_listeners h
        ∧ (NoDup (added_ports ops) →
           ∀ entry, entry ∈ clients h → port entry.2 = p →
             posted h'
             = posted h
               ++ [(p, msg_eventHistory
                         (history_since (filterForClient h) entry.1 since
                            (events (base h))))])
        ∧ (∀ clientId sent,
             sent ∈ history_since (filterForClient h) clientId since
                      (events (base h)) ↔
             ∃ ev filtered,
               ev ∈ events (base h) ∧ (since < timestamp ev)%Z
               ∧ filterForClient h (payload ev) clientId = Some filtered
               ∧ sent = {| id := id ev; timestamp := timestamp ev;
                           source := source ev; context := context ev;
                           payload := filtered |})
        ∧ (∀ clientId,
             map (λ e : Event, (id e, timestamp e, source e, context e))
               (history_since (filterForClient h) clientId since
                  (events (base h)))
             `sublist_of`
             map (λ e : Event, (id e, timestamp e, source e, context e))
               (events (base h))).
Proof.
  intros Hnew Hrun. rewrite requestHistory_run. eexists. split; [done|].
  simpl. split_and!; try done.
  - intros Hports entry Hentry Hport.
    assert (registry_ok h0 ∧ port_listeners h0 = []) as [Hreg0 Hl0].
    { unfold new_HostEventSource in Hnew.
      destruct (new_EventSource initial apply None); [|done].
      injection Hnew as <-. split; [|done]. split_and!; constructor. }
    destruct (registry_run ops h0 Hreg0) as [(_ & _ & Hall) Hnd].
    { by rewrite Hl0. }
    rewrite Hrun in Hall, Hnd. simpl in Hall, Hnd.
    rewrite Forall_forall in Hall. specialize (Hall entry Hentry).
    unfold history_replies. subst p.
    change (port entry.2) with (listener_port (listener_of entry)).
    by rewrite (filter_unique listener_port (listener_of entry)).
  - intros clientId sent. apply elem_of_history_since.
  - intros clientId. apply history_since_sublist.
Qed.

End HostMore.

(** ** The mock port *)

Section PortMore.
Import Port PortSpec.
Context {T Any : Type}.

#[local] Abbreviation MockPort := (MockReconnectingPort T Any).

Implicit Types (p : MockPort) (type : EventType) (l : Listener T Any).

Lemma dispatchEvent_run type (event : PortEvent T Any) p :
  dispatchEvent type event p
  = (Normal tt,
     set_port_console
       (port_console p ++ errors_of type (listeners_of p type) event)
       (set_heard (heard p ++ calls_of (listeners_of p type) event) p)).
Proof.
  unfold dispatchEvent, listeners_of. js_unfold.
  destruct (listeners p type) as [set|]; simpl;
    [|destruct p; simpl; by rewrite !app_nil_r].
  revert p. induction set as [|l set IH]; intros p.
  - destruct p; simpl. by rewrite !app_nil_r.
  - cbn [for_of]. js_unfold. simpl.
    destruct (fn_body l event) as [[]|error]; rewrite IH; simpl;
      rewrite <- ?app_assoc; done.
Qed.

Lemma postMessage_run (msg : T) p :
  postMessage msg p
  = (Normal tt,
     if _connected p then p else set_messageQueue (messageQueue p ++ [msg]) p).
Proof. unfold postMessage. js_unfold. by destruct (_connected p). Qed.

Lemma postMessage_all_run (msgs : list T) p :
  for_of msgs postMessage p
  = (Normal tt,
     if _connected p then p else set_messageQueue (messageQueue p ++ msgs) p).
Proof.
  revert p. induction msgs as [|msg msgs IH]; intros p.
  - simpl. destruct (_connected p); [done|]. rewrite app_nil_r. by destruct p.
  - cbn [for_of]. js_unfold. rewrite postMessage_run.
    destruct (_connected p) eqn:Hc; rewrite IH; simpl; rewrite ?Hc; [done|].
    by rewrite <- app_assoc.
Qed.

Lemma connect_run p :
  connect p
  = (Normal tt,
     if _connected p then p
     else set_messageQueue []
            (set_port_console
               (port_console p
                  ++ errors_of connected (listeners_of p connected)
                       (Event connected))
               (set_heard
                  (heard p ++ calls_of (listeners_of p connected) (Event connected))
                  (set_connected true p)))).
Proof.
  unfold connect. js_unfold. destruct (_connected p) eqn:Hc; [done|].
  rewrite dispatchEvent_run. simpl.
  by rewrite postMessage_all_run.
Qed.

Lemma disconnect_run p :
  disconnect p
  = (Normal tt,
     if _connected p
     then set_port_console
            (port_console p
               ++ errors_of disconnected (listeners_of p disconnected)
                    (Event disconnected))
            (set_heard
               (heard p
                  ++ calls_of (listeners_of p disconnected) (Event disconnected))
               (set_connected false p))
     else p).
Proof.
  unfold disconnect. js_unfold. destruct (_connected p) eqn:Hc; [|done].
  simpl. by rewrite dispatchEvent_run.
Qed.

(** X20: Messages posted on a disconnected port are queued, in the order of
    the calls, and no listener is called.  [connect] then returns, makes
    the port connected, calls each ['connected'] listener once, in the
    order of registration, and empties the queue: the queued messages
    reach no listener.  A throwing listener is reported on the console and
    does not stop the others.  On the connected port a second [connect]
    changes nothing, and neither does posting: a message posted while
    connected is not kept. *)
Theorem connect_drops_queued_messages (msgs : list T) p :
  _connected p = false →
  ∃ p1 p2,
    for_of msgs postMessage p = (Normal tt, p1)
    ∧ getQueuedMessages p1 = (Normal (messageQueue p ++ msgs), p1)
    ∧ heard p1 = heard p
    ∧ connect p1 = (Normal tt, p2)
    ∧ _connected p2 = true ∧ messageQueue p2 = []
    ∧ listeners p2 = listeners p
    ∧ heard p2
      = heard p ++ calls_of (listeners_of p connected) (Event connected)
    ∧ port_console p2
      = port_console p
        ++ errors_of connected (listeners_of p connected) (Event connected)
    ∧ connect p2 = (Normal tt, p2)
    ∧ for_of msgs postMessage p2 = (Normal tt, p2).
Proof.
  intros Hc. rewrite postMessage_all_run, Hc. eexists _, _. split; [done|].
  rewrite !connect_run. unfold getQueuedMessages, gets. simpl. rewrite Hc.
  rewrite postMessage_all_run. simpl. by split_and!.
Qed.

(** X21: [receiveMessage] on a disconnected port throws and calls no listener.
    On a connected port it returns and has called every ['message']
    listener once with the data, in the order of registration, also when
    some of them throw; each exception is reported on the console; the
    listeners, the queue and the connection are as before. *)
Theorem receiveMessage_delivers (data : T) p :
  (_connected p = false →
   receiveMessage data p
   = (Throw (Error "Cannot receive messages when disconnected"), p))
  ∧ (_connected p = true →
     ∃ p', receiveMessage data p = (Normal tt, p')
           ∧ heard p'
             = heard p
               ++ calls_of (listeners_of p message)
                    (MessageEvent message (inl data))
           ∧ port_console p'
             = port_console p
               ++ errors_of message (listeners_of p message)
                    (MessageEvent message (inl data))
           ∧ listeners p' = listeners p
           ∧ messageQueue p' = messageQueue p
           ∧ _connected p' = true).
Proof.
  unfold receiveMessage. js_unfold. split; intros Hc; rewrite Hc; simpl.
  - done.
  - rewrite dispatchEvent_run. eexists. split; [done|]. by simpl.
Qed.

Lemma addEventListener_run type l signal p :
  ∃ p', addEventListener type l signal p = (Normal tt, p')
        ∧ (∀ k, listeners_of p' k
                = if decide (k = type) then set_add l (listeners_of p type)
                  else listeners_of p k)
        ∧ abort_hooks p'
          = abort_hooks p
            ++ match signal with Some s => [(s, (type, l))] | None => [] end
        ∧ listener_frame p p'.
Proof.
  unfold addEventListener, listeners_of. js_unfold.
  destruct (listeners p type) as [set|] eqn:Hset; destruct signal as [s|];
    simpl; eexists; (split; [done|]); simpl;
    (split_and!; [|by rewrite ?app_nil_r|done]);
    intros k; unfold listeners_set; simpl;
    destruct (decide (k = type)) as [->|]; simpl;
    rewrite ?Hset, ?decide_True by done; done.
Qed.

Lemma removeEventListener_run type l p :
  ∃ p', removeEventListener type l p = (Normal tt, p')
        ∧ (∀ k, listeners_of p' k
                = if decide (k = type) then set_delete l (listeners_of p type)
                  else listeners_of p k)
        ∧ abort_hooks p' = abort_hooks p
        ∧ listener_frame p p'.
Proof.
  unfold removeEventListener, listeners_of. js_unfold.
  destruct (listeners p type) as [set|] eqn:Hset; simpl; eexists;
    (split; [done|]); simpl; (split_and!; [|done..]);
    intros k; unfold listeners_set; simpl;
    destruct (decide (k = type)) as [->|]; simpl; rewrite ?Hset; done.
Qed.

Lemma listener_frame_trans p1 p2 p3 :
  listener_frame p1 p2 → listener_frame p2 p3 → listener_frame p1 p3.
Proof.
  intros (? & ? & ? & ? & ?) (? & ? & ? & ? & ?). split_and!; congruence.
Qed.

Lemma set_add_NoDup l (set : list (Listener T Any)) :
  NoDup (map fn_ref set) → NoDup (map fn_ref (set_add l set)).
Proof.
  intros Hnd. unfold set_add. case_bool_decide as Hin; [done|].
  rewrite fmap_app. apply NoDup_app. split_and!; [done| |apply NoDup_singleton].
  intros r Hr Heq%list_elem_of_singleton. simpl in Heq. by subst.
Qed.

Lemma set_delete_NoDup l (set : list (Listener T Any)) :
  NoDup (map fn_ref set) → NoDup (map fn_ref (set_delete l set)).
Proof.
  intros Hnd. apply (sublist_NoDup _ (map fn_ref set)); [done|].
  apply (fmap_sublist fn_ref), sublist_filter.
Qed.

(** The hooks of a signal, run in order: every step returns. *)
Lemma abort_hooks_run (hooks : list (nat * (EventType * Listener T Any))) p :
  ∃ p', for_of hooks (λ hook, removeEventListener hook.2.1 hook.2.2) p
        = (Normal tt, p')
        ∧ (∀ k, NoDup (map fn_ref (listeners_of p k)) →
                NoDup (map fn_ref (listeners_of p' k)))
        ∧ abort_hooks p' = abort_hooks p
        ∧ listener_frame p p'.
Proof.
  revert p. induction hooks as [|[s [type l]] hooks IH]; intros p.
  - exists p. by split_and!.
  - cbn [for_of]. js_unfold. simpl.
    destruct (removeEventListener_run type l p) as (p1 & -> & Hl1 & Hh1 & Hf1).
    destruct (IH p1) as (p2 & -> & Hl2 & Hh2 & Hf2).
    exists p2. split_and!; [done| |congruence|by eapply listener_frame_trans].
    intros k Hnd. apply Hl2. rewrite Hl1.
    case_decide; [subst; by apply set_delete_NoDup | done].
Qed.

Lemma port_ok_perform (o : PortOp) p :
  port_ok p → port_ok (port_perform o p).2.
Proof.
  intros Hok. pose proof Hok as [Hq Hnd]. destruct o; cbn [port_perform].
  - rewrite postMessage_run. destruct (_connected p) eqn:Hc; [done|].
    split; simpl; [by rewrite Hc | done].
  - destruct (addEventListener_run type listener signal p)
      as (p' & -> & Hl & _ & (Hc & Hm & _)).
    split; simpl; [by rewrite Hc, Hm|].
    intros k. rewrite Hl. case_decide; [by apply set_add_NoDup | done].
  - destruct (removeEventListener_run type listener p)
      as (p' & -> & Hl & _ & (Hc & Hm & _)).
    split; simpl; [by rewrite Hc, Hm|].
    intros k. rewrite Hl. case_decide; [by apply set_delete_NoDup | done].
  - unfold abort. js_unfold. case_bool_decide; [done|].
    destruct (abort_hooks_run
                (filter (λ hook, hook.1 = signal) (abort_hooks p))
                (set_aborted (aborted p ++ [signal]) p))
      as (p' & -> & Hl & _ & (Hc & Hm & _)).
    simpl in Hc, Hm. split; simpl; [by rewrite Hc, Hm|].
    intros k. apply Hl, Hnd.
  - unfold receiveMessage. js_unfold.
    destruct (_connected p) eqn:Hc; simpl; [|done].
    rewrite dispatchEvent_run. split; simpl; [intros _; by apply Hq | done].
  - unfold receiveMessageError. rewrite dispatchEvent_run. by split.
  - rewrite connect_run. destruct (_connected p); [done|]. by split.
  - rewrite disconnect_run. destruct (_connected p); [|done]. by split.
  - by split.
Qed.

(** X22: On a port reached from the constructor by any operations, a connected
    port holds no queued message, and no function is twice in a set of
    listeners: an event calls a listener that was added several times
    once. *)
Theorem port_invariants (isConnected : option bool) (ops : list PortOp) :
  port_ok (for_of ops port_perform
             (new_MockReconnectingPort (T := T) (Any := Any) isConnected)).2.
Proof.
  apply (for_of_preserves port_ok).
  - intros o p. apply port_ok_perform.
  - split; [done|]. intros type. constructor.
Qed.

(** X23: A listener added with a signal is in the set of its type, and the abort
    of the signal takes it out again; a second abort changes nothing.  When
    the signal has fired before the listener is added, the abort never
    removes it. *)
Theorem abort_removes_listener type l s p :
  fn_ref l ∈ map fn_ref (listeners_of (addEventListener type l (Some s) p).2 type)
  ∧ (s ∉ aborted p →
     (abort s (addEventListener type l (Some s) p).2).1 = Normal tt
     ∧ (fn_ref l
        ∉ map fn_ref
            (listeners_of (abort s (addEventListener type l (Some s) p).2).2 type))
     ∧ abort s (abort s (addEventListener type l (Some s) p).2).2
       = (Normal tt, (abort s (addEventListener type l (Some s) p).2).2))
  ∧ (s ∈ aborted p →
     abort s (addEventListener type l (Some s) p).2
     = (Normal tt, (addEventListener type l (Some s) p).2)).
Proof.
  destruct (addEventListener_run type l (Some s) p)
    as (p1 & -> & Hl1 & Hh1 & (_ & _ & Ha1 & _)).
  cbn [snd]. split_and!.
  - rewrite Hl1, decide_True by done. unfold set_add.
    case_bool_decide as Hin; [done|].
    rewrite fmap_app. apply elem_of_app. right. by left.
  - intros Hs. unfold abort. js_unfold.
    rewrite bool_decide_eq_false_2 by (by rewrite Ha1).
    rewrite Hh1, filter_app, filter_cons_True, filter_nil by done.
    rewrite for_of_app.
    destruct (abort_hooks_run
                (filter (λ hook, hook.1 = s) (abort_hooks p))
                (set_aborted (aborted p1 ++ [s]) p1))
      as (pa & -> & _ & _ & (_ & _ & Haa & _)).
    cbn [for_of]. js_unfold. cbn [fst snd].
    destruct (removeEventListener_run type l pa)
      as (pb & -> & Hlb & _ & (_ & _ & Hab & _)).
    cbn [fst snd]. split_and!; [done| |].
    + rewrite Hlb, decide_True by done.
      intros (y & Hy & [Hne _]%list_elem_of_filter)%list_elem_of_fmap.
      by apply Hne.
    + rewrite bool_decide_eq_true_2; [done|].
      rewrite Hab, Haa. simpl. apply elem_of_app. right. by left.
  - intros Hs. unfold abort. js_unfold.
    by rewrite bool_decide_eq_true_2 by (by rewrite Ha1).
Qed.

End PortMore.

(** ** The pair of mock ports *)

Section PairMore.
Import Port PortSpec.
Context {T Any : Type}.

#[local] Abbreviation Pair := (PortPair T Any).

Implicit Types (s : Pair) (msg : T).

Lemma port1_postMessage_run msg s :
  port1_postMessage msg s
  = (Normal tt,
     if _connected (port1 s)
     then if _connected (port2 s)
          then set_timers (timers s ++ [deliver_to_port2 msg]) s
          else s
     else set_port1
            (set_messageQueue (messageQueue (port1 s) ++ [msg]) (port1 s)) s).
Proof.
  unfold port1_postMessage, on_port1, on_port2, get_connected, setTimeout.
  js_unfold. rewrite postMessage_run.
  destruct (_connected (port1 s)) eqn:Hc1; simpl; rewrite ?Hc1; simpl.
  - destruct (_connected (port2 s)) eqn:Hc2; simpl; by destruct s.
  - done.
Qed.

Lemma port1_postMessage_all_run (msgs : list T) s :
  _connected (port1 s) = true →
  for_of msgs port1_postMessage s
  = (Normal tt,
     if _connected (port2 s)
     then set_timers (timers s ++ map deliver_to_port2 msgs) s
     else s).
Proof.
  revert s. induction msgs as [|msg msgs IH]; intros s Hc1.
  - simpl. destruct (_connected (port2 s)); [|done].
    rewrite app_nil_r. by destruct s.
  - cbn [for_of]. js_unfold. rewrite port1_postMessage_run, Hc1.
    destruct (_connected (port2 s)) eqn:Hc2; rewrite IH by done; simpl;
      rewrite Hc2; [|done].
    by rewrite <- app_assoc.
Qed.

(** X24: In a pair, a message posted on port 1 while both ports are connected
    calls no listener at once; it arms one delivery.  When the delivery
    runs, the ['message'] listeners of port 2 are called with the message,
    once each.  If port 2 has disconnected in the meantime, the delivery
    calls no ['message'] listener and raises nothing: the message is
    lost. *)
Theorem pair_message_round_trip msg s :
  _connected (port1 s) = true → _connected (port2 s) = true →
  timers s = [] →
  ∃ s1 s2 s3,
    port1_postMessage msg s = (Normal tt, s1)
    ∧ port1 s1 = port1 s ∧ port2 s1 = port2 s
    ∧ run_next_timer s1 = (Normal tt, s2)
    ∧ timers s2 = [] ∧ port1 s2 = port1 s
    ∧ heard (port2 s2)
      = heard (port2 s)
        ++ calls_of (listeners_of (port2 s) message)
             (MessageEvent message (inl msg))
    ∧ run_next_timer (on_port2 disconnect s1).2 = (Normal tt, s3)
    ∧ timers s3 = []
    ∧ heard (port2 s3)
      = heard (port2 s)
        ++ calls_of (listeners_of (port2 s) disconnected) (Event disconnected).
Proof.
  intros Hc1 Hc2 Ht. rewrite port1_postMessage_run, Hc1, Hc2, Ht.
  eexists _, _, _. split; [done|]. simpl.
  unfold run_next_timer, run_timer, on_port2, receiveMessage. js_unfold. simpl.
  rewrite disconnect_run, Hc2. simpl. rewrite dispatchEvent_run. simpl.
  by split_and!.
Qed.

(** X25: [connect] on a disconnected port of a pair flushes the queue through
    the override: the port becomes connected, its ['connected'] listeners
    are called, its queue is emptied, and each queued message arms a
    delivery to the peer, in the order of the queue, if the peer is
    connected; if the peer is disconnected the queued messages are lost. *)
Theorem pair_connect_resends_queue s :
  _connected (port1 s) = false →
  ∃ s', port1_connect s = (Normal tt, s')
        ∧ _connected (port1 s') = true
        ∧ messageQueue (port1 s') = []
        ∧ heard (port1 s')
          = heard (port1 s)
            ++ calls_of (listeners_of (port1 s) connected) (Event connected)
        ∧ port2 s' = port2 s
        ∧ timers s'
          = timers s
            ++ if _connected (port2 s)
               then map deliver_to_port2 (messageQueue (port1 s))
               else [].
Proof.
  intros Hc1. unfold port1_connect, on_port1. js_unfold. rewrite Hc1. simpl.
  rewrite dispatchEvent_run. simpl.
  rewrite port1_postMessage_all_run by done. simpl.
  eexists. split; [done|].
  destruct (_connected (port2 s)); simpl; rewrite ?app_nil_r; by split_and!.
Qed.

End PairMore.

(** ** The client *)

Section ClientMore.
Import Client ClientSpec.
Context {Payload Meta State : Type}.

#[local] Abbreviation Event := (BaseEvent Payload Meta).
#[local] Abbreviation ClientSource := (ClientEventSource Payload Meta State).

Implicit Types (c : ClientSource) (ev : Event).

Lemma client_super_run {A} (m : JS (EventSource Payload Meta State) A) c :
  super m c = ((m (Client.base c)).1, Client.set_base (m (Client.base c)).2 c).
Proof. unfold super. by destruct (m (Client.base c)). Qed.

Lemma propose_run eventData generated now c :
  propose eventData generated now c
  = let proposed := proposed_event eventData generated now in
    let c1 := Client.set_base (dispatch proposed (Client.base c)).2
                (set_pending (map_set generated proposed (pending c)) c) in
    match (dispatch proposed (Client.base c)).1 with
    | Normal _ =>
        (Normal tt,
         set_retries (retries c ++ [proposed])
           (set_sent (sent c ++ [msg_event proposed]) c1))
    | Throw x => (Throw x, c1)
    end.
Proof.
  unfold propose, sendToHost, setTimeout, dispatchEvent. js_unfold.
  rewrite client_super_run. simpl.
  by destruct (dispatch _ (Client.base c)) as [[[]|x] e'].
Qed.

Lemma rejectPendingEvent_run eventId c :
  rejectPendingEvent eventId c
  = match list_find (λ kv : string * Event, kv.1 = eventId) (pending c) with
    | None => (Normal tt, c)
    | Some (_, (_, rejectedEvent)) =>
        ((removeEvent rejectedEvent (Client.base c)).1,
         Client.set_base (removeEvent rejectedEvent (Client.base c)).2
           (set_pending (filter (λ kv : string * Event, kv.1 ≠ eventId) (pending c))
              c))
    end.
Proof.
  unfold rejectPendingEvent. js_unfold.
  destruct (list_find _ (pending c)) as [[? [? rejectedEvent]]|]; [|done].
  by rewrite client_super_run.
Qed.

Lemma receiveFromHost_run ev c :
  receiveFromHost ev c
  = ((dispatch ev (Client.base c)).1,
     Client.set_base (dispatch ev (Client.base c)).2
       (set_pending (filter (λ kv : string * Event, kv.1 ≠ id ev) (pending c)) c)).
Proof.
  unfold receiveFromHost, dispatchEvent. js_unfold. by rewrite client_super_run.
Qed.

Lemma sendToHost_all_run (values : list Event) c :
  for_of values sendToHost c
  = (Normal tt, set_sent (sent c ++ map msg_event values) c).
Proof.
  revert c. induction values as [|ev values IH]; intros c.
  - simpl. rewrite app_nil_r. by destruct c.
  - cbn [for_of]. js_unfold. unfold sendToHost at 1. js_unfold.
    rewrite IH. simpl. by rewrite <- app_assoc.
Qed.

Lemma onConnected_run c :
  onConnected c
  = (Normal tt,
     set_sent
       (sent c ++ map msg_event (map snd (pending c))
          ++ [msg_requestHistory
                match last (events (Client.base c)) with
                | Some newest => timestamp newest
                | None => 0%Z
                end]) c).
Proof.
  unfold onConnected, requestEventHistory. js_unfold.
  rewrite sendToHost_all_run. simpl. rewrite <- app_assoc.
  destruct (last (events (Client.base c))) as [newest|]; [|done].
  destruct (Z.eqb_spec (timestamp newest) 0) as [->|]; done.
Qed.

Lemma run_next_timer_run c :
  run_next_timer c
  = (Normal tt,
     match retries c with
     | [] => c
     | proposedEvent :: rest =>
         set_retries (rest ++ [proposedEvent])
           (set_sent
              (sent c
                 ++ if bool_decide (id proposedEvent ∈ map fst (pending c))
                    then [msg_event proposedEvent] else [])
              c)
     end).
Proof.
  unfold run_next_timer, retry, sendToHost, setTimeout. js_unfold.
  destruct (retries c) as [|proposedEvent rest]; [done|]. simpl.
  case_bool_decide; simpl; [done|]. by rewrite app_nil_r.
Qed.

Lemma pending_ok_weaken c c' :
  pending c' `sublist_of` pending c →
  (∀ ev, ev ∈ events (Client.base c) → ev ∈ events (Client.base c')) →
  pending_ok c → pending_ok c'.
Proof.
  intros Hsub Hlog Hok. unfold pending_ok.
  eapply Forall_sublist; [done|]. eapply Forall_impl; [done|].
  intros kv [Hk Hin]. auto.
Qed.

Lemma pending_ok_perform (o : ClientOp) c :
  pending_ok c → pending_ok (client_perform o c).2.
Proof.
  intros Hok. destruct o as [eventData generated now|data| |];
    cbn [client_perform].
  - rewrite propose_run. cbv zeta.
    set (proposed := proposed_event eventData generated now).
    assert (pending_ok
              (Client.set_base (dispatch proposed (Client.base c)).2
                 (set_pending (map_set generated proposed (pending c)) c)))
      as Hok1.
    { unfold pending_ok. simpl. rewrite dispatch_events.
      apply Forall_map_set.
      - eapply Forall_impl; [apply Hok|]. intros kv [Hk Hin].
        split; [done|]. apply elem_of_app. by left.
      - split; [done|]. simpl. apply elem_of_app. right. by left. }
    by destruct (dispatch proposed (Client.base c)).1.
  - destruct data as [event|eventId|since|evs]; cbn [onMessage].
    + rewrite receiveFromHost_run. revert Hok. apply pending_ok_weaken; simpl.
      * apply sublist_filter.
      * intros ev Hev. rewrite dispatch_events. apply elem_of_app. by left.
    + rewrite rejectPendingEvent_run.
      destruct (list_find _ (pending c)) as [[i [k rejectedEvent]]|] eqn:Hfind;
        [|done].
      apply list_find_Some in Hfind as (Hi & Hk & _). simpl in Hk. subst k.
      apply list_elem_of_lookup_2 in Hi.
      pose proof Hok as Hall. unfold pending_ok in Hall.
      rewrite Forall_forall in Hall. destruct (Hall _ Hi) as [Hid _].
      simpl in Hid. unfold pending_ok. simpl.
      rewrite removeEvent_removes_id_log. apply Forall_forall.
      intros kv [Hne Hkv]%list_elem_of_filter.
      destruct (Hall _ Hkv) as [Hk Hin]. split; [done|].
      apply list_elem_of_filter. split; [|done]. congruence.
    + done.
    + rewrite client_super_run. revert Hok. apply pending_ok_weaken; simpl.
      * done.
      * intros ev Hev. rewrite insertEvents_perm. apply elem_of_app. by left.
  - rewrite onConnected_run. done.
  - rewrite run_next_timer_run. by destruct (retries c).
Qed.

(** X26: Every pending event is in the log, filed under its own id, after
    any operations of the client that returned. *)
Theorem pending_events_are_in_log (initial : State) apply c0
    (ops : list ClientOp) c :
  new_ClientEventSource initial apply = Normal c0 →
  for_of ops client_perform c0 = (Normal tt, c) →
  pending_ok c.
Proof.
  intros Hnew Hrun.
  assert (pending_ok (for_of ops client_perform c0).2) as Hok.
  { apply (for_of_preserves pending_ok).
    - intros o c'. apply pending_ok_perform.
    - unfold new_ClientEventSource in Hnew.
      destruct (new_EventSource initial apply None); [|done].
      injection Hnew as <-. constructor. }
  by rewrite Hrun in Hok.
Qed.

Lemma engine_ok_client_perform (o : ClientOp) c c' :
  engine_ok (Client.base c) → client_perform o c = (Normal tt, c') →
  engine_ok (Client.base c').
Proof.
  intros Hok. destruct o as [eventData generated now|data| |];
    cbn [client_perform].
  - rewrite propose_run. cbv zeta.
    destruct (dispatch _ (Client.base c)) as [[[]|x] e'] eqn:Hd; [|done].
    intros [= <-]. simpl. by eapply engine_ok_dispatched.
  - destruct data as [event|eventId|since|evs]; cbn [onMessage].
    + rewrite receiveFromHost_run.
      destruct (dispatch _ (Client.base c)) as [[[]|x] e'] eqn:Hd; [|done].
      intros [= <-]. simpl. by eapply engine_ok_dispatched.
    + rewrite rejectPendingEvent_run.
      destruct (list_find _ (pending c)) as [[i [k rejectedEvent]]|];
        [|by intros [= <-]].
      destruct (removeEvent _ (Client.base c)) as [[[]|x] e'] eqn:Hr; [|done].
      intros [= <-]. simpl. by eapply engine_ok_removed.
    + by intros [= <-].
    + rewrite client_super_run.
      destruct (insertEvents _ (Client.base c)) as [[[]|x] e'] eqn:Hi; [|done].
      intros [= <-]. simpl. by eapply engine_ok_inserted.
  - rewrite onConnected_run. by intros [= <-].
  - rewrite run_next_timer_run. intros [= <-]. by destruct (retries c).
Qed.

Lemma engine_ok_client_run (initial : State) apply c0 (ops : list ClientOp) c :
  new_ClientEventSource initial apply = Normal c0 →
  for_of ops client_perform c0 = (Normal tt, c) →
  engine_ok (Client.base c).
Proof.
  intros Hnew.
  assert (engine_ok (Client.base c0)) as Hok.
  { unfold new_ClientEventSource in Hnew.
    destruct (new_EventSource initial apply None) as [e0|x] eqn:He; [|done].
    injection Hnew as <-. by eapply engine_ok_fresh. }
  clear Hnew. revert c0 Hok.
  induction ops as [|o ops IH]; intros c0 Hok; simpl.
  - by intros [= <-].
  - js_unfold.
    destruct (client_perform o c0) as [[[]|x] c1] eqn:Hp; [|done].
    apply IH. by eapply engine_ok_client_perform.
Qed.

(** X27: A proposal is applied at once: the event enters the log and the state,
    is filed as pending and is sent to the host.  A rejection of its id
    then takes it out of the log again and the state is the one before the
    proposal, provided the id was not in the log before; the id is no
    longer pending, and a second rejection of it changes nothing. *)
Theorem rejection_undoes_propose (initial : State) apply c0
    (ops : list ClientOp) c eventData generated now st :
  new_ClientEventSource initial apply = Normal c0 →
  for_of ops client_perform c0 = (Normal tt, c) →
  generated ∉ map id (events (Client.base c)) →
  applyEvent (Client.base c) (state (Client.base c))
    (proposed_event eventData generated now) = Normal st →
  ∃ c1 c2,
    propose eventData generated now c = (Normal tt, c1)
    ∧ events (Client.base c1)
      = events (Client.base c) ++ [proposed_event eventData generated now]
    ∧ state (Client.base c1) = st
    ∧ sent c1 = sent c ++ [msg_event (proposed_event eventData generated now)]
    ∧ generated ∈ map fst (pending c1)
    ∧ onMessage (msg_rejection generated) c1 = (Normal tt, c2)
    ∧ events (Client.base c2) = events (Client.base c)
    ∧ state (Client.base c2) = state (Client.base c)
    ∧ (generated ∉ map fst (pending c2))
    ∧ sent c2 = sent c1
    ∧ onMessage (msg_rejection generated) c2 = (Normal tt, c2).
Proof.
  intros Hnew Hrun Hfresh Hap.
  pose proof (engine_ok_client_run _ _ _ _ _ Hnew Hrun) as Hok.
  set (proposed := proposed_event eventData generated now) in *.
  set (e := Client.base c) in *.
  destruct (dispatch proposed e) as [r e1] eqn:Hd.
  assert (r = Normal tt) as ->.
  { rewrite dispatch_run, Hap in Hd. by injection Hd as <-. }
  pose proof (engine_ok_dispatched _ _ _ Hok Hd) as Hok1.
  pose proof (dispatch_events proposed e) as Hlog1. rewrite Hd in Hlog1.
  simpl in Hlog1.
  destruct (perform_frame (op_dispatch proposed) e) as (Hap1 & _ & [Hin1|[? ?]]);
    [|done].
  simpl in Hap1, Hin1. rewrite Hd in Hap1, Hin1. simpl in Hap1, Hin1.
  assert (state e1 = st) as Hst1.
  { rewrite dispatch_run, Hap in Hd. injection Hd as <-.
    unfold auto_snapshot. by case_match. }
  destruct (removeEvent_newest (events e) proposed e1 Hok1 Hlog1 Hfresh)
    as (st0 & Hred & Hrem & Hlog2).
  assert (st0 = state e) as ->.
  { pose proof (ok_state _ Hok) as Hs. unfold state_is_replay in Hs.
    rewrite Hap1, Hin1 in Hred. congruence. }
  destruct (map_set_find generated proposed (pending c)) as [i Hfind].
  assert (∀ m : list (string * Event),
            list_find (λ kv : string * Event, kv.1 = generated)
              (filter (λ kv : string * Event, kv.1 ≠ generated) m) = None)
    as Hgone.
  { intros m. apply list_find_None. apply Forall_forall.
    by intros kv [Hkv _]%list_elem_of_filter. }
  eexists _, _. split.
  { rewrite propose_run. cbv zeta. fold proposed e. rewrite Hd. done. }
  simpl. split; [done|]. split; [done|]. split; [done|]. split.
  { apply list_find_Some in Hfind as (Hi & _).
    apply list_elem_of_lookup_2 in Hi. by apply (list_elem_of_fmap_2 fst) in Hi. }
  cbn [onMessage]. rewrite rejectPendingEvent_run. simpl. rewrite Hfind, Hrem.
  split; [done|]. simpl. split; [done|]. split; [done|]. split.
  { intros (kv & Hk & [Hne _]%list_elem_of_filter)%list_elem_of_fmap.
    by apply Hne. }
  split; [done|].
  rewrite rejectPendingEvent_run. simpl. by rewrite Hgone.
Qed.

(** X28: The event the host sends back for a proposal is dispatched as it is:
    the copy the client applied at [propose] stays in the log, the
    authoritative event is appended behind it, and the reducer has been
    applied to both.  The id is no longer pending. *)
Theorem host_echo_is_appended eventData generated now c st authoritative st' :
  applyEvent (Client.base c) (state (Client.base c))
    (proposed_event eventData generated now) = Normal st →
  id authoritative = generated →
  applyEvent (Client.base c) st authoritative = Normal st' →
  ∃ c1 c2,
    propose eventData generated now c = (Normal tt, c1)
    ∧ onMessage (msg_event authoritative) c1 = (Normal tt, c2)
    ∧ events (Client.base c2)
      = events (Client.base c)
        ++ [proposed_event eventData generated now; authoritative]
    ∧ state (Client.base c2) = st'
    ∧ (generated ∉ map fst (pending c2))
    ∧ sent c2 = sent c ++ [msg_event (proposed_event eventData generated now)].
Proof.
  intros Hap Hid Hap'.
  set (proposed := proposed_event eventData generated now) in *.
  set (e := Client.base c) in *.
  destruct (dispatch proposed e) as [r e1] eqn:Hd.
  pose proof (dispatch_events proposed e) as Hlog1.
  destruct (perform_frame (op_dispatch proposed) e) as (Hap1 & _).
  simpl in Hap1. rewrite Hd in Hlog1, Hap1. simpl in Hlog1, Hap1.
  assert (r = Normal tt ∧ state e1 = st) as [-> Hst1].
  { rewrite dispatch_run, Hap in Hd. injection Hd as <- <-.
    split; [done|]. unfold auto_snapshot. by case_match. }
  destruct (dispatch authoritative e1) as [r2 e2] eqn:Hd2.
  pose proof (dispatch_events authoritative e1) as Hlog2.
  rewrite Hd2 in Hlog2. simpl in Hlog2.
  assert (r2 = Normal tt ∧ state e2 = st') as [-> Hst2].
  { rewrite dispatch_run, Hap1, Hst1, Hap' in Hd2. injection Hd2 as <- <-.
    split; [done|]. unfold auto_snapshot. by case_match. }
  eexists _, _. split.
  { rewrite propose_run. cbv zeta. fold proposed e. rewrite Hd. done. }
  cbn [onMessage]. rewrite receiveFromHost_run. simpl. rewrite Hd2. simpl.
  split; [done|]. simpl. split; [by rewrite Hlog2, Hlog1, <- app_assoc|].
  split; [done|]. split; [|done].
  intros (kv & Hk & [Hne _]%list_elem_of_filter)%list_elem_of_fmap.
  apply Hne. congruence.
Qed.

(** X29: On reconnection after a proposal the client sends every pending event
    again, oldest first, the proposal among them, and then one history
    request; the bound of the request is the timestamp of the last event of
    the log, which is the client's own proposal. *)
Theorem reconnect_resends_pending eventData generated now c st :
  applyEvent (Client.base c) (state (Client.base c))
    (proposed_event eventData generated now) = Normal st →
  ∃ c1,
    propose eventData generated now c = (Normal tt, c1)
    ∧ proposed_event eventData generated now ∈ map snd (pending c1)
    ∧ onConnected c1
      = (Normal tt,
         set_sent
           (sent c1 ++ map msg_event (map snd (pending c1))
              ++ [msg_requestHistory now]) c1).
Proof.
  intros Hap. set (proposed := proposed_event eventData generated now) in *.
  destruct (dispatch proposed (Client.base c)) as [r e1] eqn:Hd.
  pose proof (dispatch_events proposed (Client.base c)) as Hlog1.
  rewrite Hd in Hlog1. simpl in Hlog1.
  assert (r = Normal tt) as ->.
  { rewrite dispatch_run, Hap in Hd. by injection Hd as <-. }
  eexists. split.
  { rewrite propose_run. cbv zeta. fold proposed. rewrite Hd. done. }
  simpl. split.
  - destruct (map_set_find generated proposed (pending c)) as [i Hfind].
    apply list_find_Some in Hfind as (Hi & _).
    apply list_elem_of_lookup_2 in Hi. by apply (list_elem_of_fmap_2 snd) in Hi.
  - rewrite onConnected_run. simpl. by rewrite Hlog1, last_snoc.
Qed.

Lemma retries_perform (o : ClientOp) c :
  retries c ⊆+ retries (client_perform o c).2.
Proof.
  destruct o as [eventData generated now|data| |]; cbn [client_perform].
  - rewrite propose_run. cbv zeta.
    destruct (dispatch _ (Client.base c)).1; simpl; [|done].
    by apply submseteq_inserts_r.
  - destruct data as [event|eventId|since|evs]; cbn [onMessage].
    + by rewrite receiveFromHost_run.
    + rewrite rejectPendingEvent_run.
      by destruct (list_find _ (pending c)) as [[i [k rejectedEvent]]|].
    + done.
    + by rewrite client_super_run.
  - by rewrite onConnected_run.
  - rewrite run_next_timer_run.
    destruct (retries c) as [|proposedEvent rest] eqn:Hr; simpl;
      [by rewrite Hr|].
    by rewrite (Permutation_app_comm rest).
Qed.

(** X30: A retry, once armed, stays armed: no operation of the client, neither
    the confirmation nor the rejection of the event, disarms it.  When it
    fires it sends the event again if its id is still pending and nothing
    otherwise, and arms itself again. *)
Theorem retry_is_never_disarmed (ops : list ClientOp) c :
  retries c ⊆+ retries (for_of ops client_perform c).2
  ∧ ∀ proposedEvent rest,
      retries c = proposedEvent :: rest →
      run_next_timer c
      = (Normal tt,
         set_retries (rest ++ [proposedEvent])
           (set_sent
              (sent c
                 ++ if bool_decide (id proposedEvent ∈ map fst (pending c))
                    then [msg_event proposedEvent] else [])
              c)).
Proof.
  split.
  - apply (for_of_preserves (λ c', retries c ⊆+ retries c')); [|done].
    intros o c' Hc'. etrans; [done|]. apply retries_perform.
  - intros proposedEvent rest Hr. by rewrite run_next_timer_run, Hr.
Qed.

End ClientMore.

(** ** Scenarios of the further properties *)

Lemma removeEvent_removes_id_witness :
  let e := exec (for_of [add_event; sub_event] dispatch) (fresh applyEvent_test 100) in
  removeEvent tie_b e = (Normal tt, e).
Proof.
  intros e. apply (removeEvent_removes_id tie_b e).
  change (map id (events e)) with ["a"; "s"].
  change (id tie_b) with "b".
  repeat (apply not_elem_of_cons; split; [discriminate|]). apply not_elem_of_nil.
Defined.

Lemma snapshots_sound_after_operations_witness :
  let e := exec (for_of [op_dispatch add_event; op_dispatch sub_event;
                         op_createSnapshot; op_insertEvents [tie_a];
                         op_removeEvent add_event; op_disposeSnapshot 0]
                   perform) (fresh applyEvent_test 2) in
  Forall (λ s, eventIndex s ≤ length (events e)
               ∧ reduce (applyEvent e) (initialState e)
                   (take (eventIndex s) (events e)) = (Normal tt, snap_state s))
    (snapshots e)
  ∧ StronglySorted (λ a b, eventIndex a ≤ eventIndex b) (snapshots e).
Proof.
  intros e.
  apply (snapshots_sound_after_operations 0%Z applyEvent_test (Some 2%Z)
           (fresh applyEvent_test 2)
           [op_dispatch add_event; op_dispatch sub_event;
            op_createSnapshot; op_insertEvents [tie_a];
            op_removeEvent add_event; op_disposeSnapshot 0]).
  - reflexivity.
  - repeat constructor.
  - vm_compute. reflexivity.
Defined.

Lemma insertEvents_keeps_events_witness :
  let e := exec (for_of [op_subscribe good_listener; op_dispatch tie_b;
                         op_createSnapshot] perform)
             (fresh applyEvent_test 100) in
  insertEvents [] e = (Normal tt, e)
  ∧ delivered (insertEvents [tie_a] e).2
    = delivered e
      ++ map (λ s, (sub_ref s, state (insertEvents [tie_a] e).2)) (subscribers e).
Proof.
  intros e. split.
  - by apply (insertEvents_keeps_events [] e).
  - apply (insertEvents_keeps_events [tie_a] e).
    + discriminate.
    + vm_compute. reflexivity.
Defined.

Lemma dispatch_removeEvent_keep_order_witness :
  let e := exec (dispatch add_event) (fresh applyEvent_test 100) in
  log_ordered (events (dispatch sub_event e).2)
  ∧ log_ordered (events (removeEvent add_event e).2).
Proof.
  intros e.
  assert (log_ordered (events e)) as Hlog.
  { change (events e) with [add_event]. split.
    - apply StronglySorted_cons. split; constructor.
    - apply NoDup_singleton. }
  destruct (dispatch_removeEvent_keep_order sub_event e Hlog) as [Hd Hr].
  split.
  - apply Hd.
    + change (events e) with [add_event].
      apply Forall_cons. split; [|constructor]. left. simpl. lia.
    + change (map id (events e)) with ["a"]. change (id sub_event) with "s".
      apply not_elem_of_cons. split; [discriminate | apply not_elem_of_nil].
  - apply (dispatch_removeEvent_keep_order add_event e Hlog).
Defined.

Lemma insertEvents_sorted_log_witness :
  let e := exec (for_of [op_dispatch tie_a; op_createSnapshot] perform)
             (fresh applyEvent_test 100) in
  log_ordered (events (insertEvents [sub_event] e).2)
  ∧ events (insertEvents [sub_event] e).2 = [sub_event; tie_a].
Proof.
  intros e. split; [|reflexivity].
  destruct (insertEvents_sorted_log sub_event [] e) as [Hordered _];
    [| | |exact Hordered].
  - change (events e) with [tie_a]. split.
    + apply StronglySorted_cons. split; constructor.
    + apply NoDup_singleton.
  - split.
    + apply StronglySorted_cons. split; constructor.
    + apply NoDup_singleton.
  - change (events e) with [tie_a]. intros a b Ha Hb.
    apply list_elem_of_singleton in Ha as ->.
    apply list_elem_of_singleton in Hb as ->. split; discriminate.
Defined.

Lemma dropSnapshotsAfterEventIndex_filter_witness :
  let e := exec (for_of [op_createSnapshot; op_dispatch add_event;
                         op_createSnapshot; op_dispatch sub_event;
                         op_createSnapshot] perform)
             (fresh applyEvent_test 100) in
  dropSnapshotsAfterEventIndex 1 e
  = (Normal tt,
     set_snapshots (filter (λ s, eventIndex s ≤ 1) (snapshots e)) e).
Proof.
  intros e. apply (dropSnapshotsAfterEventIndex_filter 1 e).
  change (snapshots e)
    with [{| snap_state := 0%Z; eventIndex := 0; snap_ref := 0 |};
          {| snap_state := 1%Z; eventIndex := 1; snap_ref := 1 |};
          {| snap_state := 0%Z; eventIndex := 2; snap_ref := 2 |}].
  repeat (apply StronglySorted_cons; split;
    [repeat (apply Forall_cons; split; [simpl; lia|]); constructor|]).
  constructor.
Defined.

Lemma dispatch_all_is_replay_witness :
  ∃ e1 e2, for_of (ticks 3) dispatch (fresh applyEvent_test 2) = (Normal tt, e1)
           ∧ replay (ticks 3) (fresh applyEvent_test 2) = (Normal tt, e2)
           ∧ events e1 = ticks 3 ∧ getState e1 = (Normal 3%Z, e1)
           ∧ events e2 = [] ∧ getState e2 = (Normal 3%Z, e2).
Proof.
  apply (dispatch_all_is_replay 0%Z applyEvent_test (Some 2%Z)
           (fresh applyEvent_test 2) (ticks 3) 3%Z).
  - reflexivity.
  - vm_compute. reflexivity.
Defined.

Lemma unsubscribe_undoes_subscribe_witness :
  let e := exec (for_of [op_subscribe good_listener; op_dispatch add_event]
                   perform) (fresh applyEvent_test 100) in
  ∃ r e1, subscribe bad_listener e = (Normal r, e1)
          ∧ delivered e1 = delivered e ++ [(r, state e)]
          ∧ subscribers e1
            = subscribers e ++ [{| sub_ref := r; callback := bad_listener |}]
          ∧ events e1 = events e ∧ state e1 = state e
          ∧ subscribers (unsubscribe r e1).2 = subscribers e
          ∧ unsubscribe r (unsubscribe r e1).2 = (Normal tt, (unsubscribe r e1).2).
Proof.
  intros e.
  apply (unsubscribe_undoes_subscribe 0%Z applyEvent_test None
           (fresh applyEvent_test 100)
           [op_subscribe good_listener; op_dispatch add_event]).
  - reflexivity.
  - vm_compute. reflexivity.
Defined.

Lemma dispose_undoes_createSnapshot_witness :
  let e := exec (for_of [op_createSnapshot; op_dispatch add_event] perform)
             (fresh applyEvent_test 100) in
  ∃ r e1, createSnapshot e = (Normal r, e1)
          ∧ snapshots e1
            = snapshots e ++ [{| snap_state := state e;
                                 eventIndex := length (events e);
                                 snap_ref := r |}]
          ∧ events e1 = events e ∧ state e1 = state e
          ∧ delivered e1 = delivered e
          ∧ snapshots (disposeSnapshot r e1).2 = snapshots e
          ∧ disposeSnapshot r (disposeSnapshot r e1).2
            = (Normal tt, (disposeSnapshot r e1).2).
Proof.
  intros e.
  apply (dispose_undoes_createSnapshot 0%Z applyEvent_test None
           (fresh applyEvent_test 100)
           [op_createSnapshot; op_dispatch add_event]).
  - reflexivity.
  - vm_compute. reflexivity.
Defined.

Lemma receiveFromClient_rejected_witness :
  let retry := {| id := "y"; timestamp := 2500; source := {| clientId := "c2" |};
                  context := None; payload := ADD 2 |} in
  ∃ h', receiveFromClient retry "c2" 4000 host_xy = (Normal tt, h')
        ∧ events (base h') = events (base host_xy)
        ∧ state (base h') = state (base host_xy)
        ∧ snapshots (base h') = snapshots (base host_xy)
        ∧ delivered (base h') = delivered (base host_xy)
        ∧ pastEventIds h' = pastEventIds host_xy
        ∧ clients h' = clients host_xy
        ∧ console (base h')
          = console (base host_xy) ++ [console_warn "c2" "y"]
        ∧ posted h'
          = posted host_xy ++ rejection_messages (clients host_xy) "c2" "y".
Proof.
  intros retry.
  apply (receiveFromClient_rejected retry "c2" 4000 host_xy).
  left. apply elem_of_union_r. by apply elem_of_singleton.
Defined.

Lemma pastEventIds_are_generated_ids_witness :
  let ops : list (@HostOp Action unit Z) :=
    [hop_addClient "c1" 7; hop_message 7 (msg_event proposal_x) 1000;
     hop_dispatch (ADD 2) "y" 3000] in
  pastEventIds (for_of ops (host_perform truthy) fresh_host).2
  = pastEventIds fresh_host ∪ list_to_set (generated_ids ops).
Proof.
  intros ops.
  apply (pastEventIds_are_generated_ids truthy ops fresh_host).
  vm_compute. reflexivity.
Defined.

Lemma removeClient_undoes_addClient_witness :
  ∃ h1 h2 i,
    addClient "c1" 9 host_xy = (Normal tt, h1)
    ∧ list_find (λ c : string * Client, c.1 = "c1") (clients h1)
      = Some (i, ("c1", {| port := 9; dispose := next_ref (base host_xy) |}))
    ∧ port_listeners h1
      = port_listeners host_xy
        ++ [{| listener_ref := next_ref (base host_xy); listener_port := 9;
               listener_clientId := "c1" |}]
    ∧ removeClient "c1" h1 = (Normal tt, h2)
    ∧ port_listeners h2 = port_listeners host_xy
    ∧ clients h2 = filter (λ c : string * Client, c.1 ≠ "c1") (clients host_xy)
    ∧ ("c1" ∉ map fst (clients host_xy) → clients h2 = clients host_xy)
    ∧ removeClient "c1" h2 = (Normal tt, h2).
Proof.
  apply (removeClient_undoes_addClient truthy 0%Z applyEvent_test accept_all
           no_filter fresh_host
           [hop_addClient "c1" 7; hop_addClient "c2" 8;
            hop_message 7 (msg_event proposal_x) 1000;
            hop_dispatch (ADD 2) "y" 3000] (Normal tt) host_xy "c1" 9).
  - reflexivity.
  - vm_compute. reflexivity.
Defined.

Lemma accepted_proposal_is_stamped_witness :
  ∃ h', receiveFromClient proposal_x "c1" 1000 host_c1_c2 = (Normal tt, h')
        ∧ events (base h')
          = events (base host_c1_c2)
            ++ [{| id := "x"; timestamp := 1000;
                   source := {| clientId := "c1" |};
                   context := None; payload := ADD 5 |}]
        ∧ state (base h') = 5%Z
        ∧ delivered (base h')
          = delivered (base host_c1_c2)
            ++ map (λ s, (sub_ref s, 5%Z)) (subscribers (base host_c1_c2))
        ∧ posted h' = posted host_c1_c2
        ∧ pastEventIds h' = pastEventIds host_c1_c2
        ∧ clients h' = clients host_c1_c2.
Proof.
  apply (accepted_proposal_is_stamped proposal_x "c1" 1000 host_c1_c2 5%Z).
  - change (pastEventIds host_c1_c2) with (∅ : gset string).
    apply not_elem_of_empty.
  - reflexivity.
  - reflexivity.
Defined.

Lemma removeEvent_after_insertEvents_witness :
  let e1 := exec (insertEvents [add_event; sub_event; tie_a])
              (fresh applyEvent_test 100) in
  let e2 := exec (removeEvent sub_event) e1 in
  events e1 = [add_event; sub_event; tie_a]
  ∧ events e2
    = filter (λ y : Event, id y ≠ id sub_event) [add_event; sub_event; tie_a]
  ∧ reduce applyEvent_test 0%Z
      (filter (λ y : Event, id y ≠ id sub_event) [add_event; sub_event; tie_a])
    = (Normal tt, state e2).
Proof.
  intros e1 e2.
  apply (removeEvent_after_insertEvents 0%Z applyEvent_test None
           (fresh applyEvent_test 100) [add_event; sub_event; tie_a] sub_event
           e1 e2).
  - reflexivity.
  - vm_compute. reflexivity.
  - vm_compute. reflexivity.
Defined.

Section PortScenarios.
Import Port PortSpec Scenario.

Lemma connect_drops_queued_messages_witness :
  ∃ p1 p2,
    for_of [7; 8] postMessage offline_port = (Normal tt, p1)
    ∧ getQueuedMessages p1 = (Normal (messageQueue offline_port ++ [7; 8]), p1)
    ∧ heard p1 = heard offline_port
    ∧ connect p1 = (Normal tt, p2)
    ∧ _connected p2 = true ∧ messageQueue p2 = []
    ∧ listeners p2 = listeners offline_port
    ∧ heard p2
      = heard offline_port
        ++ calls_of (listeners_of offline_port connected) (Event connected)
    ∧ port_console p2
      = port_console offline_port
        ++ errors_of connected (listeners_of offline_port connected)
             (Event connected)
    ∧ connect p2 = (Normal tt, p2)
    ∧ for_of [7; 8] postMessage p2 = (Normal tt, p2).
Proof.
  apply (connect_drops_queued_messages [7; 8] offline_port). reflexivity.
Defined.

Lemma receiveMessage_delivers_witness :
  receiveMessage 3 offline_port
  = (Throw (Error "Cannot receive messages when disconnected"), offline_port)
  ∧ ∃ p', receiveMessage 3 listening_port = (Normal tt, p')
          ∧ heard p'
            = heard listening_port
              ++ calls_of (listeners_of listening_port message)
                   (MessageEvent message (inl 3))
          ∧ port_console p'
            = port_console listening_port
              ++ errors_of message (listeners_of listening_port message)
                   (MessageEvent message (inl 3))
          ∧ listeners p' = listeners listening_port
          ∧ messageQueue p' = messageQueue listening_port
          ∧ _connected p' = true.
Proof.
  split.
  - destruct (receiveMessage_delivers 3 offline_port) as [Hthrow _].
    apply Hthrow. reflexivity.
  - destruct (receiveMessage_delivers 3 listening_port) as [_ Hcall].
    apply Hcall. reflexivity.
Defined.

Lemma abort_removes_listener_witness :
  ((abort 5 (addEventListener connected faulty (Some 5) listening_port).2).1
   = Normal tt
   ∧ (fn_ref faulty
      ∉ map fn_ref
          (listeners_of
             (abort 5 (addEventListener connected faulty (Some 5) listening_port).2).2
             connected))
   ∧ abort 5
       (abort 5 (addEventListener connected faulty (Some 5) listening_port).2).2
     = (Normal tt,
        (abort 5 (addEventListener connected faulty (Some 5) listening_port).2).2))
  ∧ abort 5
      (addEventListener connected faulty (Some 5) (abort 5 listening_port).2).2
    = (Normal tt,
       (addEventListener connected faulty (Some 5) (abort 5 listening_port).2).2).
Proof.
  split.
  - destruct (abort_removes_listener connected faulty 5 listening_port)
      as (_ & Hremoved & _).
    apply Hremoved. change (aborted listening_port) with (@nil nat).
    apply not_elem_of_nil.
  - destruct (abort_removes_listener connected faulty 5
                (abort 5 listening_port).2) as (_ & _ & Hkept).
    apply Hkept. change (aborted (abort 5 listening_port).2) with [5].
    by left.
Defined.

Lemma port_invariants_witness :
  messageQueue
    (for_of port_ops port_perform (new_MockReconnectingPort (Any := unit) None)).2
  = [].
Proof.
  destruct (port_invariants (T := nat) (Any := unit) None port_ops) as [Hqueue _].
  apply Hqueue. reflexivity.
Defined.

Lemma pair_message_round_trip_witness :
  ∃ s1 s2 s3,
    port1_postMessage 3 listening_pair = (Normal tt, s1)
    ∧ port1 s1 = port1 listening_pair ∧ port2 s1 = port2 listening_pair
    ∧ run_next_timer s1 = (Normal tt, s2)
    ∧ timers s2 = [] ∧ port1 s2 = port1 listening_pair
    ∧ heard (port2 s2)
      = heard (port2 listening_pair)
        ++ calls_of (listeners_of (port2 listening_pair) message)
             (MessageEvent message (inl 3))
    ∧ run_next_timer (on_port2 disconnect s1).2 = (Normal tt, s3)
    ∧ timers s3 = []
    ∧ heard (port2 s3)
      = heard (port2 listening_pair)
        ++ calls_of (listeners_of (port2 listening_pair) disconnected)
             (Event disconnected).
Proof.
  apply (pair_message_round_trip 3 listening_pair); reflexivity.
Defined.

Lemma pair_connect_resends_queue_witness :
  ∃ s', port1_connect queued_pair = (Normal tt, s')
        ∧ _connected (port1 s') = true
        ∧ messageQueue (port1 s') = []
        ∧ heard (port1 s')
          = heard (port1 queued_pair)
            ++ calls_of (listeners_of (port1 queued_pair) connected)
                 (Event connected)
        ∧ port2 s' = port2 queued_pair
        ∧ timers s'
          = timers queued_pair
            ++ if _connected (port2 queued_pair)
               then map deliver_to_port2 (messageQueue (port1 queued_pair))
               else [].
Proof.
  apply (pair_connect_resends_queue queued_pair). reflexivity.
Defined.

End PortScenarios.

Section ClientScenarios.
Import Client ClientSpec Scenario.

Lemma pending_events_are_in_log_witness :
  pending_ok busy_client.
Proof.
  apply (pending_events_are_in_log 0%Z applyEvent_test fresh_client client_ops).
  - reflexivity.
  - vm_compute. reflexivity.
Defined.

Lemma rejection_undoes_propose_witness :
  ∃ c1 c2,
    propose sub_event "p2" 20 busy_client = (Normal tt, c1)
    ∧ events (Client.base c1)
      = events (Client.base busy_client) ++ [proposed_event sub_event "p2" 20]
    ∧ state (Client.base c1) = 10%Z
    ∧ sent c1 = sent busy_client ++ [msg_event (proposed_event sub_event "p2" 20)]
    ∧ "p2" ∈ map fst (pending c1)
    ∧ onMessage (msg_rejection "p2") c1 = (Normal tt, c2)
    ∧ events (Client.base c2) = events (Client.base busy_client)
    ∧ state (Client.base c2) = state (Client.base busy_client)
    ∧ ("p2" ∉ map fst (pending c2))
    ∧ sent c2 = sent c1
    ∧ onMessage (msg_rejection "p2") c2 = (Normal tt, c2).
Proof.
  apply (rejection_undoes_propose 0%Z applyEvent_test fresh_client client_ops
           busy_client sub_event "p2" 20 10%Z).
  - reflexivity.
  - vm_compute. reflexivity.
  - change (map id (events (Client.base busy_client))) with ["a"; "p1"].
    repeat (apply not_elem_of_cons; split; [discriminate|]).
    apply not_elem_of_nil.
  - reflexivity.
Defined.

Lemma host_echo_is_appended_witness :
  let authoritative :=
    {| id := "p2"; timestamp := 25; source := {| clientId := "c1" |};
       context := None; payload := SUBTRACT 1 |} in
  ∃ c1 c2,
    propose sub_event "p2" 20 busy_client = (Normal tt, c1)
    ∧ onMessage (msg_event authoritative) c1 = (Normal tt, c2)
    ∧ events (Client.base c2)
      = events (Client.base busy_client)
        ++ [proposed_event sub_event "p2" 20; authoritative]
    ∧ state (Client.base c2) = 9%Z
    ∧ ("p2" ∉ map fst (pending c2))
    ∧ sent c2
      = sent busy_client ++ [msg_event (proposed_event sub_event "p2" 20)].
Proof.
  intros authoritative.
  apply (host_echo_is_appended sub_event "p2" 20 busy_client 10%Z
           authoritative 9%Z); reflexivity.
Defined.

Lemma reconnect_resends_pending_witness :
  ∃ c1,
    propose add_event "p1" 10 fresh_client = (Normal tt, c1)
    ∧ proposed_event add_event "p1" 10 ∈ map snd (pending c1)
    ∧ onConnected c1
      = (Normal tt,
         set_sent
           (sent c1 ++ map msg_event (map snd (pending c1))
              ++ [msg_requestHistory 10]) c1).
Proof.
  apply (reconnect_resends_pending add_event "p1" 10 fresh_client 1%Z).
  reflexivity.
Defined.

Lemma retry_is_never_disarmed_witness :
  run_next_timer busy_client
  = (Normal tt,
     set_retries ([] ++ [proposed_event add_event "p1" 10])
       (set_sent
          (sent busy_client
             ++ if bool_decide (id (proposed_event add_event "p1" 10)
                                ∈ map fst (pending busy_client))
                then [msg_event (proposed_event add_event "p1" 10)] else [])
          busy_client)).
Proof.
  apply (retry_is_never_disarmed [] busy_client). reflexivity.
Defined.

End ClientScenarios.

(** C8 on the host with the clients c1 and c2 on the ports 7 and 8 and the
    events ["x"] (at 1000) and ["y"] (at 3000): the request of c1 with the
    bound 1000 is answered with one message, which holds ["y"]. *)
Lemma requestHistory_reply_witness :
  posted (port_message 7 (msg_requestHistory 1000) 5000 host_xy).2
  = posted host_xy
    ++ [(7, msg_eventHistory
              (history_since (filterForClient host_xy) "c1" 1000
                 (events (base host_xy))))]
  ∧ history_since (filterForClient host_xy) "c1" 1000 (events (base host_xy))
    = [{| id := "y"; timestamp := 3000; source := {| clientId := "host" |};
          context := None; payload := ADD 2 |}].
Proof.
  split; [|reflexivity].
  destruct (requestHistory_reply truthy 0%Z applyEvent_test accept_all no_filter
              fresh_host
              [hop_addClient "c1" 7; hop_addClient "c2" 8;
               hop_message 7 (msg_event proposal_x) 1000;
               hop_dispatch (ADD 2) "y" 3000]
              (Normal tt) host_xy 7 1000 5000)
    as (h' & Hrun & _ & _ & _ & _ & _ & Hone & _).
  - reflexivity.
  - vm_compute. reflexivity.
  - rewrite Hrun. simpl.
    refine (Hone _ ("c1", {| port := 7; dispose := 0 |}) _ eq_refl).
    + change (NoDup [7; 8]). apply NoDup_cons. split.
      * intros Hin%list_elem_of_singleton. discriminate.
      * apply NoDup_singleton.
    + change (clients host_xy)
        with [("c1", {| port := 7; dispose := 0 |});
              ("c2", {| port := 8; dispose := 1 |})].
      by left.
Defined.

(** C8, as the claim states it, fails: the port 7 was passed to [addClient]
    twice for the client c1, the registry holds c1 once, and a request on
    the port is answered twice. *)
Lemma requestHistory_answered_twice :
  for_of [hop_addClient "c1" 7; hop_addClient "c1" 7] (host_perform truthy)
    fresh_host = (Normal tt, Ledger.host_c1_twice)
  ∧ clients Ledger.host_c1_twice = [("c1", {| port := 7; dispose := 1 |})]
  ∧ posted (port_message 7 (msg_requestHistory 0) 10 Ledger.host_c1_twice).2
    = [(7, msg_eventHistory []); (7, msg_eventHistory [])]
  ∧ ¬ @replies_once Action unit Z truthy.
Proof.
  split_and!; try (vm_compute; reflexivity).
  intros Hclaim.
  destruct (Hclaim 0%Z applyEvent_test accept_all no_filter fresh_host
              Ledger.host_c1_twice
              [hop_addClient "c1" 7; hop_addClient "c1" 7]
              ("c1", {| port := 7; dispose := 1 |}) 0%Z 10%Z)
    as [reply Hposted].
  - reflexivity.
  - vm_compute. reflexivity.
  - left.
  - vm_compute in Hposted. discriminate.
Qed.
